(** * TAP_GAME: the simulation-and-control core of [main.py]

    A shallow embedding of the game logic of [main.py] (the [Bird],
    [PipePair] and [FlappyGame] classes, and the pixel pass of the image
    conversion), the properties of the specification stated over it, and
    further properties of the code.

    Numbers.  Python [int] values are [Z]; Python [float] values are
    idealised as exact rationals [Q], so every arithmetic law used below is
    the one of exact arithmetic and equalities between computed floats are
    stated with [==].  All concrete inputs used in examples are dyadic, so
    that the same trace is exact in binary floating point as well.

    Effects.  The widget tree, labels, sounds and the clock scheduler are
    presentation and are left out.  The three ambient inputs of the code are
    made explicit arguments: the frame time [dt], the wall clock read by
    [time.time()] and the entropy consumed by [random.randint].  A Python
    exception is the [None] of an [option]. *)

From Stdlib Require Import ZArith QArith Qminmax Qabs Qround Qpower.
From Stdlib Require Import List Bool Lia Lqa Sorting.Sorted.
Import ListNotations.

Open Scope Q_scope.

(** ** Python arithmetic on the idealised numbers *)

Definition Qltb (a b : Q) : bool := negb (Qle_bool b a).
Definition Qleb (a b : Q) : bool := Qle_bool a b.

(** [int(x)] on a float: truncation toward zero. *)
Definition py_int (q : Q) : Z := Z.quot (Qnum q) (Zpos (Qden q)).

(** [a / b] on floats: raises [ZeroDivisionError] when [b] is zero. *)
Definition py_div (a b : Q) : option Q :=
  if Qeq_bool b 0 then None else Some (a / b).

(** [random.randint(lo, hi)]: raises [ValueError] on an empty range; any
    integer of [lo..hi] can come out and nothing else.  [u] is the entropy
    the generator consumes. *)
Definition randint (lo hi u : Z) : option Z :=
  if (lo <=? hi)%Z then Some (lo + u mod (hi - lo + 1))%Z else None.

Definition bind {A B : Type} (m : option A) (f : A -> option B) : option B :=
  match m with
  | Some a => f a
  | None => None
  end.

Notation "x <- m ;; k" := (bind m (fun x => k))
  (at level 61, m at next level, right associativity).

(** ** Window / baseline values and gameplay constants *)

Definition WINDOW_WIDTH : Z := 400.
Definition WINDOW_HEIGHT : Z := 600.
Definition GRAVITY : Q := -480.
Definition FLAP_VELOCITY : Q := 380.
Definition BIRD_SIZE : Z * Z := (64, 64)%Z.
Definition MIN_FLAP_INTERVAL : Q := 18 # 100.
Definition PIPE_MIN_GAP_Y : Z := 60.

Record Difficulty := mkDifficulty {
  PIPE_SPEED : Q;
  PIPE_GAP : Z;
  PIPE_SPAWN_INTERVAL : Q;
  INITIAL_SPACING_MULT : Q
}.

Definition EASY : Difficulty := mkDifficulty 80 300 4 (13 # 10).
Definition HARD : Difficulty := mkDifficulty 180 200 2 (105 # 100).
Definition RAMP_MAX_ADDITIONAL_SPEED : Q := 80.
Definition RAMP_MAX_GAP_REDUCTION : Z := 50.

(** ** class Bird *)

Module Bird.
(** [size] is [BIRD_SIZE], assigned once in [__init__]. *)
Record t := mk { x : Q; y : Q; velocity : Q }.

Definition width (_ : t) : Q := inject_Z (fst BIRD_SIZE).
Definition height (_ : t) : Q := inject_Z (snd BIRD_SIZE).

Definition physics_step (dt : Q) (b : t) : t :=
  let v := velocity b + GRAVITY * dt in
  mk (x b) (y b + v * dt) v.

Definition flap (b : t) : t := mk (x b) (y b) FLAP_VELOCITY.

Definition top (b : t) : Q := y b + height b.

Definition set_y (y' : Q) (b : t) : t := mk (x b) y' (velocity b).
End Bird.

(** ** class PipePair *)

Module PipePair.
(** [pid] stands for the identity of the Python object: widgets compare
    by identity, and [scored] is a flag of the object. *)
Record t := mk {
  pid : nat;
  x : Q;
  width_pipe : Q;
  gap_size : Q;
  gap_y : Q;
  screen_height : Q;
  bottom_height : Q;
  top_pos : Q;
  top_height : Q;
  scored : bool
}.

Definition init (id : nat) (x gap_y gap_size width screen_height : Q) : t :=
  let top_pos := gap_y + gap_size in
  mk id x width gap_size gap_y screen_height
     gap_y top_pos (screen_height - top_pos) false.

Definition right (p : t) : Q := x p + width_pipe p.

Definition set_x (x' : Q) (p : t) : t :=
  mk (pid p) x' (width_pipe p) (gap_size p) (gap_y p) (screen_height p)
     (bottom_height p) (top_pos p) (top_height p) (scored p).

Definition set_scored (b : bool) (p : t) : t :=
  mk (pid p) (x p) (width_pipe p) (gap_size p) (gap_y p) (screen_height p)
     (bottom_height p) (top_pos p) (top_height p) b.

Definition move (dx : Q) (p : t) : t := set_x (x p + dx) p.

Definition aabb (x1 y1 w1 h1 x2 y2 w2 h2 : Q) : bool :=
  Qltb x1 (x2 + w2) && Qltb x2 (x1 + w1)
  && Qltb y1 (y2 + h2) && Qltb y2 (y1 + h1).

Definition collides_with (p : t) (bx by_ bw bh : Q) : bool :=
  aabb bx by_ bw bh (x p) 0 (width_pipe p) (bottom_height p)
  || aabb bx by_ bw bh (x p) (top_pos p) (width_pipe p) (top_height p).
End PipePair.

(** ** class FlappyGame: state *)

Record Game := mkGame {
  score : Z;
  game_over : bool;
  running : bool;
  bird : Bird.t;
  pipes : list PipePair.t;
  _time_since_last_spawn : Q;
  _last_flap_time : Q;
  current_pipe_speed : Q;
  current_pipe_gap : Z;
  current_spawn_interval : Q;
  initial_spacing_mult : Q;
  autoplay : bool;
  (** allocator of object identities for [PipePair] instances *)
  next_pid : nat
}.

Definition set_score (v : Z) (s : Game) : Game :=
  mkGame v (game_over s) (running s) (bird s) (pipes s)
    (_time_since_last_spawn s) (_last_flap_time s) (current_pipe_speed s)
    (current_pipe_gap s) (current_spawn_interval s) (initial_spacing_mult s)
    (autoplay s) (next_pid s).

Definition set_phase (over run : bool) (s : Game) : Game :=
  mkGame (score s) over run (bird s) (pipes s)
    (_time_since_last_spawn s) (_last_flap_time s) (current_pipe_speed s)
    (current_pipe_gap s) (current_spawn_interval s) (initial_spacing_mult s)
    (autoplay s) (next_pid s).

Definition set_bird (b : Bird.t) (s : Game) : Game :=
  mkGame (score s) (game_over s) (running s) b (pipes s)
    (_time_since_last_spawn s) (_last_flap_time s) (current_pipe_speed s)
    (current_pipe_gap s) (current_spawn_interval s) (initial_spacing_mult s)
    (autoplay s) (next_pid s).

Definition set_pipes (ps : list PipePair.t) (s : Game) : Game :=
  mkGame (score s) (game_over s) (running s) (bird s) ps
    (_time_since_last_spawn s) (_last_flap_time s) (current_pipe_speed s)
    (current_pipe_gap s) (current_spawn_interval s) (initial_spacing_mult s)
    (autoplay s) (next_pid s).

Definition set_time_since_last_spawn (t : Q) (s : Game) : Game :=
  mkGame (score s) (game_over s) (running s) (bird s) (pipes s)
    t (_last_flap_time s) (current_pipe_speed s)
    (current_pipe_gap s) (current_spawn_interval s) (initial_spacing_mult s)
    (autoplay s) (next_pid s).

Definition set_last_flap_time (t : Q) (s : Game) : Game :=
  mkGame (score s) (game_over s) (running s) (bird s) (pipes s)
    (_time_since_last_spawn s) t (current_pipe_speed s)
    (current_pipe_gap s) (current_spawn_interval s) (initial_spacing_mult s)
    (autoplay s) (next_pid s).

Definition set_difficulty (speed : Q) (gap : Z) (interval mult : Q)
    (s : Game) : Game :=
  mkGame (score s) (game_over s) (running s) (bird s) (pipes s)
    (_time_since_last_spawn s) (_last_flap_time s) speed gap interval mult
    (autoplay s) (next_pid s).

Definition set_autoplay (a : bool) (s : Game) : Game :=
  mkGame (score s) (game_over s) (running s) (bird s) (pipes s)
    (_time_since_last_spawn s) (_last_flap_time s) (current_pipe_speed s)
    (current_pipe_gap s) (current_spawn_interval s) (initial_spacing_mult s)
    a (next_pid s).

Definition set_next_pid (n : nat) (s : Game) : Game :=
  mkGame (score s) (game_over s) (running s) (bird s) (pipes s)
    (_time_since_last_spawn s) (_last_flap_time s) (current_pipe_speed s)
    (current_pipe_gap s) (current_spawn_interval s) (initial_spacing_mult s)
    (autoplay s) n.

(** The launch position [(100, WINDOW_HEIGHT // 2 - bird.height // 2)]. *)
Definition launch_x : Q := 100.
Definition launch_y : Q :=
  inject_Z (WINDOW_HEIGHT / 2 - snd BIRD_SIZE / 2).

(** [FlappyGame.__init__] *)
Definition init_game : Game :=
  mkGame 0 false false (Bird.mk launch_x launch_y 0) [] 0 0
    (PIPE_SPEED EASY) (PIPE_GAP EASY) (PIPE_SPAWN_INTERVAL EASY)
    (INITIAL_SPACING_MULT EASY) false 0.

(** ** Flap with debounce *)

Definition _can_flap_now (now : Q) (s : Game) : bool * Game :=
  if Qleb MIN_FLAP_INTERVAL (now - _last_flap_time s)
  then (true, set_last_flap_time now s)
  else (false, s).

Definition _flap (now : Q) (s : Game) : Game :=
  let (ok, s1) := _can_flap_now now s in
  if ok then set_bird (Bird.flap (bird s1)) s1 else s1.

(** ** Predictive multi-flap controller *)

Inductive event_type := Flap | End.

Definition event : Type := event_type * Q.

Fixpoint insert_event (e : event) (l : list event) : list event :=
  match l with
  | [] => [e]
  | e' :: l' =>
      if Qltb (snd e) (snd e') then e :: l else e' :: insert_event e l'
  end.

(** [events.sort(key=lambda x: x[1])]: a stable sort on the event time. *)
Definition sort_events (l : list event) : list event :=
  fold_left (fun acc e => insert_event e acc) l [].

(** [t = i * MIN_FLAP_INTERVAL] *)
Definition flap_time (i : nat) : Q := inject_Z (Z.of_nat i) * MIN_FLAP_INTERVAL.

Definition flap_event (time_to_pipe : Q) (i : nat) : list event :=
  let t := flap_time i in
  if Qltb t time_to_pipe then [(Flap, t)] else [].

Definition flap_events (time_to_pipe : Q) (n_flaps : nat) : list event :=
  flat_map (flap_event time_to_pipe) (seq 0 n_flaps).

Definition build_events (time_to_pipe : Q) (n_flaps : nat) : list event :=
  sort_events (flap_events time_to_pipe n_flaps ++ [(End, time_to_pipe)]).

(** One turn of the integration loop; the state is [(y, v, t_prev)]. *)
Definition integrate_event (st : Q * Q * Q) (e : event) : Q * Q * Q :=
  let '(y, v, t_prev) := st in
  let dt := snd e - t_prev in
  let y := y + v * dt + (1 # 2) * GRAVITY * dt ^ 2 in
  let v := v + GRAVITY * dt in
  let v := match fst e with Flap => FLAP_VELOCITY | End => v end in
  (y, v, snd e).

Definition _predict_center_with_flaps (s : Game) (time_to_pipe : Q)
    (n_flaps : nat) : Q :=
  let events := build_events time_to_pipe n_flaps in
  let '(y, _, _) :=
    fold_left integrate_event events
      (Bird.y (bird s), Bird.velocity (bird s), 0) in
  y + Bird.height (bird s) / 2.

(** The first pipe whose right edge is ahead of the bird. *)
Definition next_pipe_of (s : Game) : option PipePair.t :=
  find (fun p => Qltb (Bird.x (bird s)) (PipePair.x p + PipePair.width_pipe p))
       (pipes s).

Definition margin : Q := 6.
Definition max_flaps : nat := 3.

Definition inside_gap (s : Game) (next_pipe : PipePair.t) (gap_center : Q)
    (time_to_pipe : Q) (k : nat) : bool :=
  let predicted_center := _predict_center_with_flaps s time_to_pipe k in
  Qleb (gap_center - PipePair.gap_size next_pipe / 2 + margin) predicted_center
  && Qleb predicted_center
          (gap_center + PipePair.gap_size next_pipe / 2 - margin).

(** The fallback loop; [best_dist = None] is [float('inf')]. *)
Definition closest_step (s : Game) (gap_center time_to_pipe : Q)
    (best : option nat * option Q) (k : nat) : option nat * option Q :=
  let predicted_center := _predict_center_with_flaps s time_to_pipe k in
  let dist := Qabs (predicted_center - gap_center) in
  match snd best with
  | None => (Some k, Some dist)
  | Some best_dist =>
      if Qltb dist best_dist then (Some k, Some dist) else best
  end.

Definition closest_flaps (s : Game) (gap_center time_to_pipe : Q)
    : option nat :=
  fst (fold_left (closest_step s gap_center time_to_pipe)
         (seq 0 (max_flaps + 1)) (None, None)).

Definition chosen_flaps (s : Game) (next_pipe : PipePair.t)
    (gap_center time_to_pipe : Q) : option nat :=
  match find (inside_gap s next_pipe gap_center time_to_pipe)
             (seq 0 (max_flaps + 1)) with
  | Some k => Some k
  | None => closest_flaps s gap_center time_to_pipe
  end.

(** The deciding part of [_autoflap_logic]: [Some None] when a guard
    returns early, [Some (Some k)] for the value of [chosen_flaps]. *)
Definition autoflap_choice (s : Game) : option (option nat) :=
  match pipes s with
  | [] => Some None
  | _ :: _ =>
  if negb (running s) || game_over s then Some None else
  match next_pipe_of s with
  | None => Some None
  | Some next_pipe =>
      let gap_center :=
        PipePair.gap_y next_pipe + PipePair.gap_size next_pipe / 2 in
      let horiz_dist := PipePair.x next_pipe - Bird.x (bird s) in
      if Qleb (current_pipe_speed s) 0 then Some None else
      time_to_pipe <- py_div horiz_dist (current_pipe_speed s) ;;
      Some (chosen_flaps s next_pipe gap_center time_to_pipe)
  end
  end.

Definition _autoflap_logic (now : Q) (s : Game) : option Game :=
  choice <- autoflap_choice s ;;
  match choice with
  | Some k => if (1 <=? k)%nat then Some (_flap now s) else Some s
  | None => Some s
  end.

(** ** Game logic *)

Definition pipe_width : Q := inject_Z (py_int (inject_Z WINDOW_WIDTH * (12 # 100))).

Definition clear_pipes (s : Game) : Game := set_pipes [] s.

(** One turn of the pre-spawn loop of [start_game], for index [i]. *)
Definition prespawn (spacing : Z) (i : Z) (u : Z) (s : Game) : option Game :=
  let spawn_x := (WINDOW_WIDTH + i * spacing)%Z in
  gap_y <- randint (PIPE_MIN_GAP_Y + 20)
                   (WINDOW_HEIGHT - current_pipe_gap s - 40) u ;;
  let p := PipePair.init (next_pid s) (inject_Z spawn_x) (inject_Z gap_y)
             (inject_Z (current_pipe_gap s)) pipe_width
             (inject_Z WINDOW_HEIGHT) in
  Some (set_next_pid (S (next_pid s)) (set_pipes (pipes s ++ [p]) s)).

Definition start_game (u0 u1 : Z) (s : Game) : option Game :=
  let s := clear_pipes s in
  let s := set_score 0 s in
  let s := set_phase false true s in
  let s := set_time_since_last_spawn 0 s in
  let s := set_bird (Bird.mk launch_x launch_y 0) s in
  let spacing := py_int (inject_Z WINDOW_WIDTH * initial_spacing_mult s) in
  s <- prespawn spacing 0 u0 s ;;
  prespawn spacing 1 u1 s.

Definition end_game (s : Game) : Game := set_phase true false s.

Definition _apply_difficulty (s : Game) : Game :=
  if (score s <? 30)%Z then
    set_difficulty (PIPE_SPEED EASY) (PIPE_GAP EASY)
      (PIPE_SPAWN_INTERVAL EASY) (INITIAL_SPACING_MULT EASY) s
  else
    let extra := Z.max 0 (score s - 30) in
    let ramp_factor := Qmin 1 (inject_Z extra / 50) in
    set_difficulty
      (PIPE_SPEED HARD + RAMP_MAX_ADDITIONAL_SPEED * ramp_factor)
      (py_int (Qmax 60 (inject_Z (PIPE_GAP HARD)
                        - inject_Z RAMP_MAX_GAP_REDUCTION * ramp_factor)))
      (Qmax (9 # 10) (PIPE_SPAWN_INTERVAL HARD - (8 # 10) * ramp_factor))
      (INITIAL_SPACING_MULT HARD) s.

(** The loop that moves every pipe and drops the ones gone past [-50]. *)
Fixpoint advance_pipes (dx : Q) (ps : list PipePair.t) : list PipePair.t :=
  match ps with
  | [] => []
  | p :: rest =>
      let p := PipePair.move dx p in
      if Qltb (PipePair.right p) (-50) then advance_pipes dx rest
      else p :: advance_pipes dx rest
  end.

(** [max([p.x for p in self.pipes]) if self.pipes else 0] *)
Definition rightmost_of (ps : list PipePair.t) : Q :=
  match map PipePair.x ps with
  | [] => 0
  | x :: xs => fold_left Qmax xs x
  end.

Definition spawn_pipe (u : Z) (s : Game) : option Game :=
  let rightmost := rightmost_of (pipes s) in
  let spawn_x :=
    Qmax (inject_Z (WINDOW_WIDTH + 20))
         (rightmost + inject_Z (py_int (inject_Z WINDOW_WIDTH * (7 # 10)))) in
  gap_y <- randint (PIPE_MIN_GAP_Y + 10)
                   (WINDOW_HEIGHT - current_pipe_gap s - 30) u ;;
  let new_pipe := PipePair.init (next_pid s) spawn_x (inject_Z gap_y)
                    (inject_Z (current_pipe_gap s)) pipe_width
                    (inject_Z WINDOW_HEIGHT) in
  Some (set_time_since_last_spawn 0
          (set_next_pid (S (next_pid s))
             (set_pipes (pipes s ++ [new_pipe]) s))).

(** Lines 544-552 of [_update]: accumulate, and spawn when due. *)
Definition maybe_spawn (dt : Q) (u : Z) (s : Game) : option Game :=
  let s := set_time_since_last_spawn (_time_since_last_spawn s + dt) s in
  if Qleb (current_spawn_interval s) (_time_since_last_spawn s)
  then spawn_pipe u s
  else Some s.

(** The closing loop of [_update]: per pipe, the overlap test and then the
    scoring test.  The result is the pipe list with its flags, the score,
    and whether the loop left through [end_game]. *)
Fixpoint check_pipes (b : Bird.t) (ps : list PipePair.t) (sc : Z)
    : list PipePair.t * Z * bool :=
  match ps with
  | [] => ([], sc, false)
  | p :: rest =>
      if PipePair.collides_with p (Bird.x b) (Bird.y b)
           (Bird.width b) (Bird.height b)
      then (p :: rest, sc, true)
      else if negb (PipePair.scored p) && Qltb (PipePair.right p) (Bird.x b)
      then let '(rest', sc', hit) := check_pipes b rest (sc + 1)%Z in
           (PipePair.set_scored true p :: rest', sc', hit)
      else let '(rest', sc', hit) := check_pipes b rest sc in
           (p :: rest', sc', hit)
  end.

Definition collide_and_score (s : Game) : Game :=
  let '(ps, sc, hit) := check_pipes (bird s) (pipes s) (score s) in
  let s := set_score sc (set_pipes ps s) in
  if hit then end_game s else s.

(** The ambient inputs of one call of [_update]. *)
Record Frame := mkFrame {
  frame_dt : Q;
  frame_now : Q;
  frame_rand : Z
}.

Definition _update (f : Frame) (s : Game) : option Game :=
  let dt := frame_dt f in
  if negb (running s) || game_over s then Some s else
  let s := _apply_difficulty s in
  let s := set_bird (Bird.physics_step dt (bird s)) s in
  if Qleb (Bird.y (bird s)) 0 then
    Some (end_game (set_bird (Bird.set_y 0 (bird s)) s))
  else if Qleb (inject_Z WINDOW_HEIGHT) (Bird.top (bird s)) then
    Some (end_game
            (set_bird (Bird.set_y (inject_Z WINDOW_HEIGHT
                                   - Bird.height (bird s)) (bird s)) s))
  else
    let dx := - current_pipe_speed s * dt in
    let s := set_pipes (advance_pipes dx (pipes s)) s in
    s <- maybe_spawn dt (frame_rand f) s ;;
    s <- (if autoplay s then _autoflap_logic (frame_now f) s else Some s) ;;
    Some (collide_and_score s).

(** ** Input events of the host *)

Inductive Input :=
| Tick (f : Frame)                 (* the scheduled [_update] *)
| Press (now : Q) (u0 u1 : Z)      (* space bar or touch *)
| ToggleBot (u0 u1 : Z)            (* the A key *)
| StartButton (u0 u1 : Z).         (* the start / restart button *)

(** The button is in the widget tree only while no run is on: [start_game]
    removes it and [end_game] puts it back. *)

Definition step (i : Input) (s : Game) : option Game :=
  match i with
  | Tick f => _update f s
  | Press now u0 u1 =>
      if negb (running s) && negb (game_over s) then start_game u0 u1 s
      else if running s then Some (_flap now s)
      else Some s
  | ToggleBot u0 u1 =>
      let s := set_autoplay (negb (autoplay s)) s in
      if autoplay s && negb (running s) && negb (game_over s)
      then start_game u0 u1 s
      else Some s
  | StartButton u0 u1 =>
      if running s then Some s else start_game u0 u1 s
  end.

Fixpoint run (ins : list Input) (s : Game) : option Game :=
  match ins with
  | [] => Some s
  | i :: rest => s' <- step i s ;; run rest s'
  end.

(** ** Definitions that follow the specification's words *)

(** An axis-aligned box, and the specification's intersection formula
    [a.left < b.right AND a.right > b.left AND a.bottom < b.top AND
     a.top > b.bottom]. *)
Record Box := mkBox { left : Q; bottom : Q; box_w : Q; box_h : Q }.

Definition intersects (a b : Box) : Prop :=
  left a < left b + box_w b /\ left a + box_w a > left b /\
  bottom a < bottom b + box_h b /\ bottom a + box_h a > bottom b.

(** Extent of the common part of two boxes along each axis; zero when the
    boxes touch, negative when they are apart. *)
Definition overlap_x (a b : Box) : Q :=
  Qmin (left a + box_w a) (left b + box_w b) - Qmax (left a) (left b).
Definition overlap_y (a b : Box) : Q :=
  Qmin (bottom a + box_h a) (bottom b + box_h b) - Qmax (bottom a) (bottom b).

Definition lower_segment (p : PipePair.t) : Box :=
  mkBox (PipePair.x p) 0 (PipePair.width_pipe p) (PipePair.bottom_height p).
Definition upper_segment (p : PipePair.t) : Box :=
  mkBox (PipePair.x p) (PipePair.top_pos p) (PipePair.width_pipe p)
        (PipePair.top_height p).

(** The specification's [DifficultyCurve]:
    speed, gap, spawn interval, spacing multiplier. *)
Definition clamp (x lo hi : Q) : Q := Qmax lo (Qmin hi x).

Definition DifficultyCurve (sc : Z) : Q * Q * Q * Q :=
  if (sc <? 30)%Z then (80, 300, 4, 13 # 10)
  else
    let ramp := clamp ((inject_Z sc - 30) / 50) 0 1 in
    (180 + 80 * ramp, Qmax 60 (200 - 50 * ramp),
     Qmax (9 # 10) (2 - (8 # 10) * ramp), 105 # 100).

(** The four difficulty parameters of a state, gap as a float. *)
Definition params_of (s : Game) : Q * Q * Q * Q :=
  (current_pipe_speed s, inject_Z (current_pipe_gap s),
   current_spawn_interval s, initial_spacing_mult s).

Definition params_eq (a b : Q * Q * Q * Q) : Prop :=
  let '(a1, a2, a3, a4) := a in
  let '(b1, b2, b3, b4) := b in
  a1 == b1 /\ a2 == b2 /\ a3 == b3 /\ a4 == b4.

Definition curve_speed (sc : Z) : Q := fst (fst (fst (DifficultyCurve sc))).

(** Equality of the integration loop's state, component by component. *)
Definition st_eq (a b : Q * Q * Q) : Prop :=
  fst (fst a) == fst (fst b) /\ snd (fst a) == snd (fst b) /\ snd a == snd b.

(** The same state with another velocity of the agent. *)
Definition with_velocity (v : Q) (s : Game) : Game :=
  set_bird (Bird.mk (Bird.x (bird s)) (Bird.y (bird s)) v) s.

(** The scenario of the specification: agent centre 300 (so [y = 268]),
    velocity 0, an obstacle with gap centre 300 and gap size 200, one
    second away at the easy speed. *)
Definition scenario_pipe : PipePair.t :=
  PipePair.init 0 180 200 200 pipe_width 600.

Definition scenario : Game :=
  mkGame 0 false true (Bird.mk 100 268 0) [scenario_pipe] 0 0
    80 300 4 (13 # 10) true 1.

(** Distance of the predicted centre from the gap centre. *)
Definition miss (s : Game) (gap_center time_to_pipe : Q) (k : nat) : Q :=
  Qabs (_predict_center_with_flaps s time_to_pipe k - gap_center).

(** ** The tick in the order the specification gives *)

(** [CollisionAndBounds]: floor, ceiling, then overlap with any live
    obstacle; the first true condition ends the run. *)
Definition collision_and_bounds (s : Game) : Game :=
  let b := bird s in
  if Qleb (Bird.y b) 0 then
    end_game (set_bird (Bird.set_y 0 b) s)
  else if Qleb (inject_Z WINDOW_HEIGHT) (Bird.top b) then
    end_game (set_bird (Bird.set_y (inject_Z WINDOW_HEIGHT - Bird.height b) b) s)
  else if existsb (fun p => PipePair.collides_with p (Bird.x b) (Bird.y b)
                              (Bird.width b) (Bird.height b)) (pipes s)
  then end_game s
  else s.

(** The scoring pass: every obstacle not yet scored whose trailing edge has
    passed the agent is marked and counts one, in spawn order. *)
Fixpoint scoring_pass_pipes (agent_x : Q) (ps : list PipePair.t) (sc : Z)
    : list PipePair.t * Z :=
  match ps with
  | [] => ([], sc)
  | p :: rest =>
      if negb (PipePair.scored p) && Qltb (PipePair.right p) agent_x
      then let (rest', sc') := scoring_pass_pipes agent_x rest (sc + 1)%Z in
           (PipePair.set_scored true p :: rest', sc')
      else let (rest', sc') := scoring_pass_pipes agent_x rest sc in
           (p :: rest', sc')
  end.

Definition scoring_pass (s : Game) : Game :=
  let (ps, sc) := scoring_pass_pipes (Bird.x (bird s)) (pipes s) (score s) in
  set_score sc (set_pipes ps s).

(** [Running -> Running]: difficulty, agent step, obstacle advance and
    spawn, collision and bounds (may end the run), autopilot, scoring. *)
Definition update_spec_order (f : Frame) (s : Game) : option Game :=
  let dt := frame_dt f in
  if negb (running s) || game_over s then Some s else
  let s := _apply_difficulty s in
  let s := set_bird (Bird.physics_step dt (bird s)) s in
  let dx := - current_pipe_speed s * dt in
  let s := set_pipes (advance_pipes dx (pipes s)) s in
  s <- maybe_spawn dt (frame_rand f) s ;;
  let s := collision_and_bounds s in
  if game_over s then Some s else
  s <- (if autoplay s then _autoflap_logic (frame_now f) s else Some s) ;;
  Some (scoring_pass s).

(** A running state one half-second frame before an overlap with the lower
    segment of an obstacle, the autopilot switched on. *)
Definition crash_state : Game :=
  mkGame 0 false true (Bird.mk 100 268 0)
    [PipePair.init 0 200 200 300 pipe_width 600] 0 0
    80 300 4 (13 # 10) true 1.

Definition crash_frame : Frame := mkFrame (1 # 2) 1000 0.

(** What the closing loop may do to one obstacle: leave it, or set the flag
    of an unscored obstacle that has passed the agent. *)
Definition marked (agent_x : Q) (p p' : PipePair.t) : Prop :=
  p' = p \/
  (PipePair.scored p = false /\ PipePair.right p < agent_x /\
   p' = PipePair.set_scored true p).

(** Number of flags that differ between a list and its image, place by
    place. *)
Fixpoint flips (ps ps' : list PipePair.t) : Z :=
  match ps, ps' with
  | p :: r, p' :: r' =>
      ((if PipePair.scored p' && negb (PipePair.scored p) then 1 else 0)
       + flips r r')%Z
  | _, _ => 0%Z
  end.

(** ** Well-formed states *)

(** Two obstacles in list order: leading edges at least 280 apart, the
    later one the younger object. *)
Definition apart (p q : PipePair.t) : Prop :=
  PipePair.x p + 280 <= PipePair.x q /\ (PipePair.pid p < PipePair.pid q)%nat.

(** The geometry every reachable state has: the agent stays on its column,
    obstacles have the one width, keep their spacing and spawn order, carry
    identities already handed out, and none is left of the culling line. *)
Record geom (s : Game) : Prop := mk_geom {
  g_bird_x : Bird.x (bird s) = launch_x;
  g_widths : Forall (fun p => PipePair.width_pipe p = pipe_width) (pipes s);
  g_apart : StronglySorted apart (pipes s);
  g_fresh : Forall (fun p => (PipePair.pid p < next_pid s)%nat) (pipes s);
  g_live : Forall (fun p => -50 <= PipePair.right p) (pipes s);
  g_gap : (150 <= current_pipe_gap s <= 300)%Z;
  g_mult : initial_spacing_mult s = INITIAL_SPACING_MULT EASY \/
           initial_spacing_mult s = INITIAL_SPACING_MULT HARD
}.

(** An obstacle that has passed the agent has its flag set. *)
Definition passed_scored (agent_x : Q) (p : PipePair.t) : Prop :=
  PipePair.right p < agent_x -> PipePair.scored p = true.

Definition wf (s : Game) : Prop :=
  geom s /\ Forall (passed_scored (Bird.x (bird s))) (pipes s).

(** ** Accounting of the score per obstacle *)

Definition has_pid (id : nat) (p : PipePair.t) : bool :=
  Nat.eqb (PipePair.pid p) id.

(** The obstacle [id] is in the list. *)
Definition present_in (id : nat) (ps : list PipePair.t) : bool :=
  existsb (has_pid id) ps.

(** The obstacle [id] is in the list and its [scored] flag is set. *)
Definition flag_in (id : nat) (ps : list PipePair.t) : bool :=
  existsb (fun p => has_pid id p && PipePair.scored p) ps.

Definition present (id : nat) (s : Game) : bool := present_in id (pipes s).

Definition flag (id : nat) (s : Game) : bool := flag_in id (pipes s).

Definition flagZ (id : nat) (s : Game) : Z := if flag id s then 1 else 0.

(** What a step from [s] to [s'] adds to the score on account of the
    obstacle [id]: one when its flag goes from unset to set. *)
Definition credit (id : nat) (s s' : Game) : Z :=
  if flag id s' && negb (flag id s) then 1 else 0.

Definition credits (s s' : Game) : Z :=
  fold_right Z.add 0%Z (map (fun p => credit (PipePair.pid p) s s') (pipes s')).

(** What is still to come for the obstacle [id]: one as long as it is in
    the list unscored or has not been created yet, nothing afterwards. *)
Definition remaining (id : nat) (s : Game) : Z :=
  if (present id s && negb (flag id s)) || (next_pid s <=? id)%nat
  then 1%Z else 0%Z.

(** Inputs that stay within the run: no press of the start button. *)
Definition in_run (i : Input) : bool :=
  match i with
  | StartButton _ _ => false
  | _ => true
  end.

(** A run has been started: the game is running or has ended. *)
Definition started (s : Game) : bool := running s || game_over s.

(** The two ways a step within a run acts on the obstacle list: not at
    all, or as a tick that moves and culls, appends at most one new
    obstacle with the next identity, and sets flags. *)
Definition same_pipes (s s' : Game) : Prop :=
  pipes s' = pipes s /\ score s' = score s /\ next_pid s' = next_pid s.

Definition ticked (s s' : Game) : Prop :=
  exists dx new,
    ((new = [] /\ next_pid s' = next_pid s) \/
     (exists p, new = [p] /\ PipePair.pid p = next_pid s /\
                PipePair.scored p = false /\
                next_pid s' = S (next_pid s))) /\
    Forall2 (marked (Bird.x (bird s)))
            (advance_pipes dx (pipes s) ++ new) (pipes s') /\
    score s' = (score s + flips (advance_pipes dx (pipes s) ++ new)
                                (pipes s'))%Z.

Fixpoint total_credit (id : nat) (ins : list Input) (s : Game) : Z :=
  match ins with
  | [] => 0
  | i :: rest =>
      match step i s with
      | Some s' => credit id s s' + total_credit id rest s'
      | None => 0
      end
  end%Z.

(** Where an obstacle seen by the closing loop comes from: it is an
    obstacle of the state before the tick, moved, or the one just made. *)
Definition origin (s : Game) (q : PipePair.t) : Prop :=
  (exists p dx, In p (pipes s) /\ q = PipePair.move dx p) \/
  (PipePair.pid q = next_pid s /\ PipePair.scored q = false).

(** The score gained over a sequence of inputs, step by step. *)
Fixpoint run_credits (ins : list Input) (s : Game) : Z :=
  match ins with
  | [] => 0
  | i :: rest =>
      match step i s with
      | Some s' => credits s s' + run_credits rest s'
      | None => 0
      end
  end%Z.

(** ** Phases of a tick *)

(** The abscissa at which [_update] puts a new obstacle. *)
Definition spawn_x_of (ps : list PipePair.t) : Q :=
  Qmax (inject_Z (WINDOW_WIDTH + 20))
       (rightmost_of ps + inject_Z (py_int (inject_Z WINDOW_WIDTH * (7 # 10)))).

(** The first two statements of a running [_update], and the obstacle
    advance that follows the bounds checks. *)
Definition after_physics (dt : Q) (s : Game) : Game :=
  let s := _apply_difficulty s in
  set_bird (Bird.physics_step dt (bird s)) s.

Definition advanced (dt : Q) (s : Game) : Game :=
  set_pipes (advance_pipes (- current_pipe_speed s * dt) (pipes s)) s.

(** ** A played run that reaches the hard tier *)

(** One hover period of the player: a flap, two half-second frames and an
    eighth of a second; the agent is back at its height afterwards. *)
Definition hover_period (k : nat) : list Input :=
  let now := inject_Z (1000 + Z.of_nat k) in
  [ Press now 0 0;
    Tick (mkFrame (1 # 2) now 80);
    Tick (mkFrame (1 # 2) now 80);
    Tick (mkFrame (1 # 8) now 80) ].

Fixpoint hover (from n : nat) : list Input :=
  match n with
  | O => []
  | S n' => hover_period from ++ hover (S from) n'
  end.

(** Start by a press, hover for 107 periods (thirty obstacles pass), then
    let the agent fall to the floor. *)
Definition hard_run : list Input :=
  Press 1000 70 70 :: hover 1 107
  ++ [Tick (mkFrame (1 # 2) 2000 80); Tick (mkFrame (1 # 2) 2000 80)].

(** The state right after the first start of the game, with both gaps
    at height 150. *)
Definition first_state : Game :=
  match start_game 70 70 init_game with
  | Some s => s
  | None => init_game
  end.

(** [lra] on [Q] does not read a division: divisions by the constants of the
    program are turned into products first. *)
Ltac qdiv :=
  unfold Qdiv in *;
  change (/ 50) with (1 # 50) in *;
  change (/ 2) with (1 # 2) in *.

(** ** Notions for the properties of whole runs *)

(** The agent's box does not overlap the obstacle. *)
Definition clear_of (b : Bird.t) (p : PipePair.t) : Prop :=
  PipePair.collides_with p (Bird.x b) (Bird.y b) (Bird.width b) (Bird.height b)
  = false.

(** The agent is strictly between floor and ceiling and clear of every
    obstacle of the list. *)
Definition in_flight (s : Game) : Prop :=
  0 < Bird.y (bird s) /\ Bird.top (bird s) < inject_Z WINDOW_HEIGHT /\
  Forall (clear_of (bird s)) (pipes s).

(** The vertical layout [PipePair.__init__] gives an obstacle, with the
    margins the two call sites leave: the lower segment reaches up to the
    gap, the upper one from the gap's top to the window's top. *)
Definition shaped (p : PipePair.t) : Prop :=
  PipePair.bottom_height p = PipePair.gap_y p /\
  PipePair.top_pos p = PipePair.gap_y p + PipePair.gap_size p /\
  PipePair.top_height p = inject_Z WINDOW_HEIGHT - PipePair.top_pos p /\
  70 <= PipePair.gap_y p /\
  150 <= PipePair.gap_size p <= 300 /\
  PipePair.top_pos p <= 570.

Definition is_tick (i : Input) : bool :=
  match i with
  | Tick _ => true
  | _ => false
  end.

(** Number of calls of [_update] in a sequence of inputs. *)
Definition ticks (ins : list Input) : Z :=
  Z.of_nat (length (filter is_tick ins)).

(** ** Image conversion: the pixel pass *)

Definition WHITE_THRESHOLD : Z := 240.

(** An RGBA pixel as [getdata] yields it. *)
Definition pixel : Type := (Z * Z * Z * Z)%type.

(** The loop of [convert_jpg_to_png_with_transparency] over the pixels of
    the canvas: a pixel whose three colour channels all reach the threshold
    becomes white and fully transparent, any other is kept. *)
Definition new_pixels (data : list pixel) : list pixel :=
  map (fun px : pixel =>
         let '(r, g, b, a) := px in
         if (WHITE_THRESHOLD <=? r)%Z && (WHITE_THRESHOLD <=? g)%Z
            && (WHITE_THRESHOLD <=? b)%Z
         then (255, 255, 255, 0)%Z
         else (r, g, b, a))
      data.

(** ** A frame that throws an obstacle past the culling line *)

(** The played run goes on after the thirtieth point: one more hover
    period, a flap and a frame that bring obstacle 30 to abscissa 100, its
    trailing edge at 148 still ahead of the agent, and a flap. *)
Definition cull_run : list Input :=
  hover 1 108
  ++ [Press 2000 0 0; Tick (mkFrame (3 # 8) 2000 80); Press 2001 0 0].

Definition cull_state : Game :=
  match run cull_run first_state with
  | Some s => s
  | None => first_state
  end.

(** A frame of nine eighths of a second: at speed 180 the obstacles move by
    202.5. *)
Definition cull_frame : Frame := mkFrame (9 # 8) 2001 80.

(** * Properties *)

(** ** Comparisons *)

Lemma Qleb_true a b : Qleb a b = true <-> a <= b.
Proof. apply Qle_bool_iff. Qed.

Lemma Qleb_false a b : Qleb a b = false <-> b < a.
Proof.
  unfold Qleb. split; intro H.
  - apply Qnot_le_lt. intro Hle. apply Qle_bool_iff in Hle. congruence.
  - destruct (Qle_bool a b) eqn:E; [|reflexivity].
    apply Qle_bool_iff in E. exfalso. apply (Qlt_not_le _ _ H E).
Qed.

Lemma Qltb_true a b : Qltb a b = true <-> a < b.
Proof.
  unfold Qltb. rewrite negb_true_iff. apply (Qleb_false b a).
Qed.

Lemma Qltb_false a b : Qltb a b = false <-> b <= a.
Proof.
  unfold Qltb. rewrite negb_false_iff. apply (Qleb_true b a).
Qed.

Lemma py_int_inject q z : q == inject_Z z -> py_int q = z.
Proof.
  unfold py_int, Qeq. destruct q as [n d]. simpl. intro H.
  rewrite Z.mul_1_r in H. subst n. apply Z.quot_mul. discriminate.
Qed.

(** ** The overlap test *)

Lemma aabb_intersects a b :
  PipePair.aabb (left a) (bottom a) (box_w a) (box_h a)
                (left b) (bottom b) (box_w b) (box_h b) = true
  <-> intersects a b.
Proof.
  unfold PipePair.aabb, intersects.
  rewrite !andb_true_iff, !Qltb_true. tauto.
Qed.

Lemma intersects_overlap a b :
  0 < box_w a -> 0 < box_h a -> 0 < box_w b -> 0 < box_h b ->
  (intersects a b <-> 0 < overlap_x a b /\ 0 < overlap_y a b).
Proof.
  intros Hwa Hha Hwb Hhb. unfold intersects, overlap_x, overlap_y.
  destruct (Q.min_spec (left a + box_w a) (left b + box_w b)) as [[? E1]|[? E1]];
  destruct (Q.max_spec (left a) (left b)) as [[? E2]|[? E2]];
  destruct (Q.min_spec (bottom a + box_h a) (bottom b + box_h b)) as [[? E3]|[? E3]];
  destruct (Q.max_spec (bottom a) (bottom b)) as [[? E4]|[? E4]];
  rewrite E1, E2, E3, E4; split; intros; repeat split; lra.
Qed.

(** C6.  The overlap test of an obstacle is the strict-inequality box
    intersection of the agent's box with the lower or the upper solid
    segment.  For boxes of positive size it says true exactly when the
    common part has positive extent on both axes: boxes that merely touch
    (zero extent on a side) do not collide, any positive penetration of
    either segment does. *)
Theorem collides_with_strict_aabb :
  forall (p : PipePair.t) (a : Box),
    0 < box_w a -> 0 < box_h a -> 0 < PipePair.width_pipe p ->
    0 < PipePair.bottom_height p -> 0 < PipePair.top_height p ->
    let hit := PipePair.collides_with p (left a) (bottom a) (box_w a) (box_h a) in
    (hit = true <->
       intersects a (lower_segment p) \/ intersects a (upper_segment p)) /\
    (forall seg, seg = lower_segment p \/ seg = upper_segment p ->
       0 < overlap_x a seg -> 0 < overlap_y a seg -> hit = true) /\
    ((overlap_x a (lower_segment p) <= 0 \/ overlap_y a (lower_segment p) <= 0) ->
     (overlap_x a (upper_segment p) <= 0 \/ overlap_y a (upper_segment p) <= 0) ->
     hit = false).
Proof.
  intros p a Hwa Hha Hwp Hbh Hth hit.
  assert (Hiff : hit = true <->
     intersects a (lower_segment p) \/ intersects a (upper_segment p)).
  { unfold hit, PipePair.collides_with. rewrite orb_true_iff.
    rewrite <- (aabb_intersects a (lower_segment p)).
    rewrite <- (aabb_intersects a (upper_segment p)). reflexivity. }
  assert (Hlo := intersects_overlap a (lower_segment p) Hwa Hha Hwp Hbh).
  assert (Hup := intersects_overlap a (upper_segment p) Hwa Hha Hwp Hth).
  split; [exact Hiff|]. split.
  - intros seg [-> | ->] Hx Hy; apply Hiff; [left; apply Hlo | right; apply Hup];
      split; assumption.
  - intros Hl Hu. destruct hit eqn:E; [|reflexivity]. exfalso.
    destruct (proj1 Hiff eq_refl) as [Hi | Hi].
    + apply Hlo in Hi. destruct Hi, Hl; lra.
    + apply Hup in Hi. destruct Hi, Hu; lra.
Qed.

Lemma collides_with_strict_aabb_witness :
  let p := PipePair.init 0 150 200 300 48 600 in
  PipePair.collides_with p 100 199 64 64 = true /\
  PipePair.collides_with p 100 200 64 64 = false.
Proof.
  intro p.
  destruct (collides_with_strict_aabb p (mkBox 100 199 64 64))
    as [_ [Hin _]]; try reflexivity.
  destruct (collides_with_strict_aabb p (mkBox 100 200 64 64))
    as [_ [_ Hout]]; try reflexivity.
  split.
  - apply (Hin (lower_segment p)); [left; reflexivity | reflexivity | reflexivity].
  - apply Hout; right; vm_compute; discriminate.
Defined.

(** ** The difficulty curve *)

Lemma ramp_factor_clamp (sc : Z) :
  (30 <= sc)%Z ->
  Qmin 1 (inject_Z (Z.max 0 (sc - 30)) / 50)
  == clamp ((inject_Z sc - 30) / 50) 0 1.
Proof.
  intro H. rewrite Z.max_r by lia. unfold clamp.
  assert (E : inject_Z (sc - 30) == inject_Z sc - 30).
  { unfold Z.sub. rewrite inject_Z_plus, inject_Z_opp. reflexivity. }
  assert (P : 0 <= inject_Z (sc - 30)).
  { change 0 with (inject_Z 0). rewrite <- Zle_Qle. lia. }
  rewrite E in *. qdiv.
  destruct (Q.min_spec 1 ((inject_Z sc - 30) * (1 # 50))) as [[? E1]|[? E1]];
    rewrite E1;
  destruct (Q.max_spec 0 1) as [[? E2]|[? E2]];
  destruct (Q.max_spec 0 ((inject_Z sc - 30) * (1 # 50))) as [[? E3]|[? E3]];
    try rewrite E2; try rewrite E3; lra.
Qed.

Lemma ramp_gap_integral (sc : Z) :
  (30 <= sc)%Z ->
  Qmax 60 (200 - 50 * Qmin 1 (inject_Z (Z.max 0 (sc - 30)) / 50))
  == inject_Z (200 - Z.min 50 (sc - 30)).
Proof.
  intro H. rewrite Z.max_r by lia.
  assert (P : 0 <= inject_Z (sc - 30)).
  { change 0 with (inject_Z 0). rewrite <- Zle_Qle. lia. }
  unfold Z.sub at 2. rewrite inject_Z_plus, inject_Z_opp. qdiv.
  destruct (Z_le_gt_dec (sc - 30) 50) as [L | G].
  - rewrite Z.min_r by lia.
    assert (L' : inject_Z (sc - 30) <= 50).
    { change 50 with (inject_Z 50). rewrite <- Zle_Qle. lia. }
    destruct (Q.min_spec 1 (inject_Z (sc - 30) * (1 # 50))) as [[? E1]|[? E1]];
      rewrite E1;
    destruct (Q.max_spec 60 (200 - 50 * 1)) as [[? E2]|[? E2]];
    destruct (Q.max_spec 60 (200 - 50 * (inject_Z (sc - 30) * (1 # 50))))
      as [[? E3]|[? E3]];
      try rewrite E2; try rewrite E3; change (inject_Z 200) with 200; lra.
  - rewrite Z.min_l by lia.
    assert (G' : 50 < inject_Z (sc - 30)).
    { change 50 with (inject_Z 50). rewrite <- Zlt_Qlt. lia. }
    destruct (Q.min_spec 1 (inject_Z (sc - 30) * (1 # 50))) as [[? E1]|[? E1]];
      rewrite E1;
    destruct (Q.max_spec 60 (200 - 50 * 1)) as [[? E2]|[? E2]];
    destruct (Q.max_spec 60 (200 - 50 * (inject_Z (sc - 30) * (1 # 50))))
      as [[? E3]|[? E3]];
      try rewrite E2; try rewrite E3;
      change (inject_Z 200) with 200; change (inject_Z 50) with 50; lra.
Qed.

Lemma apply_difficulty_easy s :
  (score s < 30)%Z ->
  params_of (_apply_difficulty s) = (80, 300, 4, 13 # 10).
Proof.
  intro H. unfold _apply_difficulty.
  apply Z.ltb_lt in H. rewrite H. reflexivity.
Qed.

Lemma apply_difficulty_hard s :
  (30 <= score s)%Z ->
  let ramp := clamp ((inject_Z (score s) - 30) / 50) 0 1 in
  params_eq (params_of (_apply_difficulty s))
    (180 + 80 * ramp, Qmax 60 (200 - 50 * ramp),
     Qmax (9 # 10) (2 - (8 # 10) * ramp), 105 # 100).
Proof.
  intros H ramp. unfold _apply_difficulty.
  apply Z.ltb_ge in H. rewrite H. apply Z.ltb_ge in H.
  unfold params_of, params_eq, set_difficulty.
  cbn [current_pipe_speed current_pipe_gap current_spawn_interval
       initial_spacing_mult PIPE_SPEED PIPE_GAP PIPE_SPAWN_INTERVAL
       INITIAL_SPACING_MULT HARD].
  pose proof (ramp_factor_clamp (score s) H) as R. fold ramp in R.
  pose proof (ramp_gap_integral (score s) H) as G.
  change (inject_Z 200) with 200. change (inject_Z RAMP_MAX_GAP_REDUCTION) with 50.
  rewrite (py_int_inject _ _ G).
  repeat split.
  - unfold RAMP_MAX_ADDITIONAL_SPEED. rewrite R. reflexivity.
  - rewrite <- G, R. reflexivity.
  - rewrite R. reflexivity.
Qed.

(** C5.  After the recomputation the four difficulty parameters are the
    specification's curve at the current score, whatever the rest of the
    state is: the easy tuple below 30, the ramped formulas from 30 on.  At
    30 the speed is 180, and from there it moves away from 180 by at most
    8/5 per point of score, so there is no jump at the boundary on the
    side of the ramp. *)
Theorem apply_difficulty_curve :
  forall s : Game,
    params_eq (params_of (_apply_difficulty s)) (DifficultyCurve (score s)) /\
    ((score s < 30)%Z ->
       params_of (_apply_difficulty s) = (80, 300, 4, 13 # 10)) /\
    (forall s2 : Game, score s2 = score s ->
       params_eq (params_of (_apply_difficulty s2))
                 (params_of (_apply_difficulty s))) /\
    curve_speed 30 == 180 /\
    (forall sc : Z, (30 <= sc)%Z ->
       0 <= curve_speed sc - curve_speed 30 <= (8 # 5) * (inject_Z sc - 30)).
Proof.
  intro s.
  assert (Hcurve : forall g : Game,
    params_eq (params_of (_apply_difficulty g)) (DifficultyCurve (score g))).
  { intro g. unfold DifficultyCurve.
    destruct (score g <? 30)%Z eqn:E.
    - rewrite apply_difficulty_easy by (apply Z.ltb_lt; exact E).
      unfold params_eq. repeat split; reflexivity.
    - apply apply_difficulty_hard. apply Z.ltb_ge. exact E. }
  split; [apply Hcurve|]. split; [apply apply_difficulty_easy|].
  split.
  - intros s2 E. pose proof (Hcurve s2) as H2. pose proof (Hcurve s) as H1.
    rewrite E in H2. unfold params_eq in *.
    destruct (params_of (_apply_difficulty s2)) as [[[a1 a2] a3] a4].
    destruct (params_of (_apply_difficulty s)) as [[[b1 b2] b3] b4].
    destruct (DifficultyCurve (score s)) as [[[c1 c2] c3] c4].
    destruct H1 as (?&?&?&?), H2 as (?&?&?&?).
    repeat split; etransitivity; try eassumption; symmetry; assumption.
  - split; [vm_compute; reflexivity|].
    intros sc H.
    assert (E30 : curve_speed 30 == 180) by (vm_compute; reflexivity).
    rewrite E30. unfold curve_speed, DifficultyCurve.
    apply Z.ltb_ge in H. rewrite H. apply Z.ltb_ge in H. simpl.
    assert (P : 30 <= inject_Z sc).
    { change 30 with (inject_Z 30). rewrite <- Zle_Qle. exact H. }
    unfold clamp. qdiv.
    destruct (Q.min_spec 1 ((inject_Z sc - 30) * (1 # 50))) as [[? E1]|[? E1]];
    destruct (Q.max_spec 0 (Qmin 1 ((inject_Z sc - 30) * (1 # 50))))
      as [[? E2]|[? E2]];
      rewrite E2; try rewrite E1; rewrite ?E1 in *; split; lra.
Qed.

Lemma apply_difficulty_curve_witness :
  params_of (_apply_difficulty (set_score 12 init_game))
  = (80, 300, 4, 13 # 10).
Proof.
  apply (proj1 (proj2 (apply_difficulty_curve (set_score 12 init_game)))).
  reflexivity.
Defined.

(** ** Flap debounce *)

Lemma flap_rejected now s :
  now - _last_flap_time s < MIN_FLAP_INTERVAL -> _flap now s = s.
Proof.
  intro H. unfold _flap, _can_flap_now.
  apply Qleb_false in H. rewrite H. reflexivity.
Qed.

Lemma flap_accepted now s :
  MIN_FLAP_INTERVAL <= now - _last_flap_time s ->
  _flap now s = set_bird (Bird.flap (bird s)) (set_last_flap_time now s).
Proof.
  intro H. unfold _flap, _can_flap_now.
  apply Qleb_true in H. rewrite H. reflexivity.
Qed.

(** C4.  Of two flap requests, at wall-clock times [t1] and [t2] with any
    change of the agent's velocity [v] in between: a second request that
    comes less than [MIN_FLAP_INTERVAL] after the last accepted flap
    changes nothing at all, now or later (the state holds no pending
    request); one that comes at least the interval after it sets the
    velocity to [FLAP_VELOCITY], whatever the velocity was, and becomes the
    last accepted flap. *)
Theorem flap_debounce :
  forall (s : Game) (t1 t2 v : Q),
    let s1 := _flap t1 s in
    let s1' := set_bird (Bird.mk (Bird.x (bird s1)) (Bird.y (bird s1)) v) s1 in
    let s2 := _flap t2 s1' in
    (t2 - _last_flap_time s1 < MIN_FLAP_INTERVAL ->
       s2 = s1' /\ Bird.velocity (bird s2) = v) /\
    (MIN_FLAP_INTERVAL <= t2 - _last_flap_time s1 ->
       Bird.velocity (bird s2) = FLAP_VELOCITY /\
       _last_flap_time s2 = t2 /\
       Bird.y (bird s2) = Bird.y (bird s1) /\
       set_bird (bird s1') (set_last_flap_time (_last_flap_time s1') s2) = s1').
Proof.
  intros s t1 t2 v s1 s1' s2. split; intro H.
  - unfold s2. rewrite flap_rejected by exact H. split; reflexivity.
  - unfold s2. rewrite flap_accepted by exact H.
    repeat split.
Qed.

Lemma flap_debounce_witness :
  let s1 := _flap 1000 init_game in
  let falling := set_bird (Bird.mk 100 268 (-900)) s1 in
  _flap (1000 + (1 # 10)) falling = falling /\
  Bird.velocity (bird (_flap (1000 + (1 # 4)) falling)) = FLAP_VELOCITY.
Proof.
  intros s1 falling.
  destruct (flap_debounce init_game 1000 (1000 + (1 # 10)) (-900)) as [Hno _].
  destruct (flap_debounce init_game 1000 (1000 + (1 # 4)) (-900)) as [_ Hyes].
  split.
  - apply Hno. reflexivity.
  - apply Hyes. vm_compute. discriminate.
Defined.

(** ** The event list of the predictor *)

Lemma insert_event_last e acc :
  Forall (fun e' => snd e' <= snd e) acc -> insert_event e acc = acc ++ [e].
Proof.
  induction 1 as [|e' acc He' _ IH]; simpl; [reflexivity|].
  apply Qltb_false in He'. rewrite He', IH. reflexivity.
Qed.

Lemma sort_events_fold l : forall acc,
  StronglySorted (fun a b => snd a <= snd b) (acc ++ l) ->
  fold_left (fun acc e => insert_event e acc) l acc = acc ++ l.
Proof.
  induction l as [|e l IH]; intros acc H; simpl.
  - rewrite app_nil_r. reflexivity.
  - rewrite insert_event_last.
    + rewrite IH; rewrite <- app_assoc; [reflexivity | exact H].
    + clear IH. induction acc as [|a acc IHa]; constructor.
      * simpl in H. apply StronglySorted_inv in H. destruct H as [_ H].
        rewrite Forall_forall in H. apply H.
        apply in_or_app. right. left. reflexivity.
      * apply IHa. simpl in H. apply StronglySorted_inv in H. tauto.
Qed.

Lemma sort_events_sorted l :
  StronglySorted (fun a b => snd a <= snd b) l -> sort_events l = l.
Proof. intro H. unfold sort_events. apply (sort_events_fold l [] H). Qed.

Lemma flap_time_mono i j : (i <= j)%nat -> flap_time i <= flap_time j.
Proof.
  intro H. unfold flap_time. apply Qmult_le_compat_r; [|discriminate].
  rewrite <- Zle_Qle. lia.
Qed.

Lemma flap_events_from_bounds T n : forall a,
  Forall (fun e => flap_time a <= snd e /\ snd e < T)
         (flat_map (flap_event T) (seq a n)).
Proof.
  induction n as [|n IH]; intro a; simpl; [constructor|].
  apply Forall_app. split.
  - unfold flap_event. destruct (Qltb (flap_time a) T) eqn:E; constructor.
    + simpl. split; [apply Qle_refl | apply Qltb_true; exact E].
    + constructor.
  - eapply Forall_impl; [|apply (IH (S a))]. intros e [H1 H2]. split.
    + eapply Qle_trans; [apply (flap_time_mono a (S a)); lia | exact H1].
    + exact H2.
Qed.

Lemma flap_events_from_sorted T n : forall a,
  StronglySorted (fun x y => snd x <= snd y)
                 (flat_map (flap_event T) (seq a n)).
Proof.
  induction n as [|n IH]; intro a; simpl; [constructor|].
  unfold flap_event at 1. destruct (Qltb (flap_time a) T); simpl.
  - constructor; [apply IH|].
    eapply Forall_impl; [|apply (flap_events_from_bounds T n (S a))].
    intros e [H _]. simpl.
    eapply Qle_trans; [apply (flap_time_mono a (S a)); lia | exact H].
  - apply IH.
Qed.

Lemma StronglySorted_snoc {A} (R : A -> A -> Prop) l x :
  StronglySorted R l -> Forall (fun y => R y x) l ->
  StronglySorted R (l ++ [x]).
Proof.
  induction 1 as [|a l Hs IH Ha]; intro Hf; simpl.
  - repeat constructor.
  - apply Forall_cons_iff in Hf. destruct Hf as [Hax Hf].
    constructor; [apply IH; exact Hf|].
    apply Forall_app. split; [exact Ha | repeat constructor; exact Hax].
Qed.

(** The list handed to [sort] is in time order already: the sort leaves it
    as it was built. *)
Lemma build_events_unsorted T n :
  build_events T n = flap_events T n ++ [(End, T)].
Proof.
  unfold build_events. apply sort_events_sorted.
  apply StronglySorted_snoc; [apply flap_events_from_sorted|].
  eapply Forall_impl; [|apply (flap_events_from_bounds T n 0)].
  intros e [_ H]. simpl. apply Qlt_le_weak. exact H.
Qed.

(** ** The integration loop respects equality of rationals *)

Lemma integrate_event_eq a b e :
  st_eq a b -> st_eq (integrate_event a e) (integrate_event b e).
Proof.
  destruct a as [[y1 v1] t1], b as [[y2 v2] t2], e as [k t].
  unfold st_eq. simpl. intros (Hy & Hv & Ht).
  split; [|split].
  - rewrite Hy, Hv, Ht. reflexivity.
  - destruct k; [reflexivity | rewrite Hv, Ht; reflexivity].
  - reflexivity.
Qed.

Lemma fold_integrate_eq l : forall a b,
  st_eq a b ->
  st_eq (fold_left integrate_event l a) (fold_left integrate_event l b).
Proof.
  induction l as [|e l IH]; intros a b H; simpl; [exact H|].
  apply IH. apply integrate_event_eq. exact H.
Qed.

Lemma predict_unfold s T n :
  _predict_center_with_flaps s T n =
  fst (fst (fold_left integrate_event (build_events T n)
              (Bird.y (bird s), Bird.velocity (bird s), 0)))
  + Bird.height (bird s) / 2.
Proof.
  unfold _predict_center_with_flaps.
  destruct (fold_left _ _ _) as [[y v] t]. reflexivity.
Qed.

Lemma flap_events_head T k :
  0 < T ->
  flap_events T (S k) =
  (Flap, flap_time 0) :: flat_map (flap_event T) (seq 1 k).
Proof.
  intro H. unfold flap_events. simpl. unfold flap_event at 1.
  assert (E : Qltb (flap_time 0) T = true).
  { apply Qltb_true. assert (Z0 : flap_time 0 == 0) by reflexivity.
    rewrite Z0. exact H. }
  rewrite E. reflexivity.
Qed.

(** C10.  With at least one flap and the obstacle still ahead in time, the
    predicted centre does not depend on the agent's current velocity: the
    first event of the schedule is a flap at time 0, no integration time
    elapses before it, and it overwrites the velocity with the flap
    constant.  Two states that differ in the velocity alone get the same
    prediction. *)
Theorem predict_independent_of_velocity :
  forall (s : Game) (v1 v2 T : Q) (k : nat),
    (1 <= k)%nat -> 0 < T ->
    (exists t0 rest, build_events T k = (Flap, t0) :: rest /\ t0 == 0) /\
    _predict_center_with_flaps (with_velocity v1 s) T k
    == _predict_center_with_flaps (with_velocity v2 s) T k.
Proof.
  intros s v1 v2 T k Hk HT.
  destruct k as [|k]; [lia|].
  pose proof (build_events_unsorted T (S k)) as B.
  rewrite (flap_events_head T k HT) in B.
  split.
  - exists (flap_time 0), (flat_map (flap_event T) (seq 1 k) ++ [(End, T)]).
    split; [exact B | reflexivity].
  - rewrite !predict_unfold, B. simpl fold_left.
    apply Qplus_comp; [|reflexivity].
    apply fold_integrate_eq.
    unfold st_eq, integrate_event. simpl.
    repeat split; try reflexivity.
    assert (Z0 : flap_time 0 - 0 == 0) by reflexivity.
    rewrite Z0. ring.
Qed.

Lemma predict_independent_of_velocity_witness :
  _predict_center_with_flaps (with_velocity (-300) init_game) 1 2
  == _predict_center_with_flaps (with_velocity 250 init_game) 1 2.
Proof.
  apply (predict_independent_of_velocity init_game (-300) 250 1 2).
  - lia.
  - reflexivity.
Defined.

(** With no flap the schedule is the single final event, and the loop is
    one closed-form step over the whole time. *)
Lemma predict_free_fall s T :
  _predict_center_with_flaps s T 0
  == Bird.y (bird s) + Bird.velocity (bird s) * T
     + (1 # 2) * GRAVITY * T ^ 2 + Bird.height (bird s) / 2.
Proof.
  rewrite predict_unfold, build_events_unsorted. simpl. ring.
Qed.

(** ** The autopilot's decision *)

Lemma closest_step_miss s gc T best k :
  closest_step s gc T best k =
  match snd best with
  | None => (Some k, Some (miss s gc T k))
  | Some best_dist =>
      if Qltb (miss s gc T k) best_dist
      then (Some k, Some (miss s gc T k)) else best
  end.
Proof. reflexivity. Qed.

Lemma closest_flaps_argmin s gc T :
  exists k, closest_flaps s gc T = Some k /\ (k <= 3)%nat /\
    (forall j, (j <= 3)%nat -> miss s gc T k <= miss s gc T j) /\
    (forall j, (j < k)%nat -> miss s gc T k < miss s gc T j).
Proof.
  unfold closest_flaps.
  change (seq 0 (max_flaps + 1)) with [0; 1; 2; 3]%nat.
  cbn [fold_left]. rewrite !closest_step_miss. cbn [snd fst].
  remember (miss s gc T 0) as d0 eqn:H0.
  remember (miss s gc T 1) as d1 eqn:H1.
  remember (miss s gc T 2) as d2 eqn:H2.
  remember (miss s gc T 3) as d3 eqn:H3.
  destruct (Qltb d1 d0) eqn:E1; cbn [snd fst];
    [apply Qltb_true in E1 | apply Qltb_false in E1];
  [ destruct (Qltb d2 d1) eqn:E2 | destruct (Qltb d2 d0) eqn:E2 ];
    cbn [snd fst];
    [apply Qltb_true in E2 | apply Qltb_false in E2
    |apply Qltb_true in E2 | apply Qltb_false in E2];
  [ destruct (Qltb d3 d2) eqn:E3 | destruct (Qltb d3 d1) eqn:E3
  | destruct (Qltb d3 d2) eqn:E3 | destruct (Qltb d3 d0) eqn:E3 ];
    cbn [snd fst];
    try (apply Qltb_true in E3); try (apply Qltb_false in E3);
  eexists; (split; [reflexivity|]); (split; [lia|]);
  (split; intros j Hj; destruct j as [|[|[|[|j]]]]; try lia;
   rewrite <- ?H0, <- ?H1, <- ?H2, <- ?H3; lra).
Qed.

Lemma py_div_positive a b : 0 < b -> py_div a b = Some (a / b).
Proof.
  intro H. unfold py_div.
  destruct (Qeq_bool b 0) eqn:E; [|reflexivity].
  apply Qeq_bool_iff in E. rewrite E in H. discriminate H.
Qed.

Lemma autoflap_choice_total s : exists c, autoflap_choice s = Some c.
Proof.
  unfold autoflap_choice.
  destruct (pipes s); [eexists; reflexivity|].
  destruct (negb (running s) || game_over s); [eexists; reflexivity|].
  destruct (next_pipe_of s); [|eexists; reflexivity].
  destruct (Qleb (current_pipe_speed s) 0) eqn:E; [eexists; reflexivity|].
  apply Qleb_false in E. rewrite py_div_positive by exact E.
  eexists. reflexivity.
Qed.

Lemma autoflap_choice_stopped s :
  current_pipe_speed s <= 0 -> autoflap_choice s = Some None.
Proof.
  intro H. unfold autoflap_choice.
  destruct (pipes s); [reflexivity|].
  destruct (negb (running s) || game_over s); [reflexivity|].
  destruct (next_pipe_of s); [|reflexivity].
  apply Qleb_true in H. rewrite H. reflexivity.
Qed.

Lemma autoflap_choice_run s p :
  pipes s <> [] -> running s = true -> game_over s = false ->
  next_pipe_of s = Some p -> 0 < current_pipe_speed s ->
  autoflap_choice s =
  Some (chosen_flaps s p (PipePair.gap_y p + PipePair.gap_size p / 2)
          ((PipePair.x p - Bird.x (bird s)) / current_pipe_speed s)).
Proof.
  intros Hp Hr Hg Hn Hs. unfold autoflap_choice.
  destruct (pipes s); [congruence|].
  rewrite Hr, Hg, Hn. simpl negb. cbn [orb].
  apply Qleb_false in Hs. rewrite Hs. apply Qleb_false in Hs.
  rewrite py_div_positive by exact Hs. reflexivity.
Qed.

(** C8.  The autopilot's decision always returns, for every state and
    clock value.  With a speed that is not positive it leaves the state as
    it is, the division never being reached.  When none of the flap counts
    0..3 puts the predicted centre inside the gap shrunk by the margin, the
    choice is the flap count of 0..3 whose predicted centre is nearest to
    the gap centre (the least such count), and that is what a running
    game's decision uses. *)
Theorem autoflap_total_with_fallback :
  forall (now : Q) (s : Game),
    (exists s', _autoflap_logic now s = Some s') /\
    (current_pipe_speed s <= 0 -> _autoflap_logic now s = Some s) /\
    (forall (p : PipePair.t) (gc T : Q),
       forallb (fun k => negb (inside_gap s p gc T k)) (seq 0 4) = true ->
       exists k, chosen_flaps s p gc T = Some k /\ (k <= 3)%nat /\
         (forall j, (j <= 3)%nat -> miss s gc T k <= miss s gc T j) /\
         (forall j, (j < k)%nat -> miss s gc T k < miss s gc T j)) /\
    (forall p : PipePair.t,
       pipes s <> [] -> running s = true -> game_over s = false ->
       next_pipe_of s = Some p -> 0 < current_pipe_speed s ->
       autoflap_choice s =
       Some (chosen_flaps s p (PipePair.gap_y p + PipePair.gap_size p / 2)
               ((PipePair.x p - Bird.x (bird s)) / current_pipe_speed s))).
Proof.
  intros now s. split; [|split; [|split]].
  - unfold _autoflap_logic.
    destruct (autoflap_choice_total s) as [c ->]. cbn [bind].
    destruct c as [k|]; [destruct (1 <=? k)%nat|]; eexists; reflexivity.
  - intro H. unfold _autoflap_logic.
    rewrite autoflap_choice_stopped by exact H. reflexivity.
  - intros p gc T H. unfold chosen_flaps.
    change (seq 0 (max_flaps + 1)) with [0; 1; 2; 3]%nat.
    change (seq 0 4) with [0; 1; 2; 3]%nat in H.
    cbn [forallb] in H. rewrite !andb_true_iff, !negb_true_iff in H.
    destruct H as (E0 & E1 & E2 & E3 & _).
    cbn [find]. rewrite E0, E1, E2, E3.
    apply closest_flaps_argmin.
  - apply autoflap_choice_run.
Qed.

Lemma autoflap_total_with_fallback_witness :
  _autoflap_logic 5 (set_difficulty 0 300 4 (13 # 10) scenario) = Some (set_difficulty 0 300 4 (13 # 10) scenario)
  /\ autoflap_choice scenario = Some (chosen_flaps scenario scenario_pipe 300 1).
Proof.
  split.
  - apply (proj1 (proj2 (autoflap_total_with_fallback 5
             (set_difficulty 0 300 4 (13 # 10) scenario)))).
    discriminate.
  - apply (proj2 (proj2 (proj2 (autoflap_total_with_fallback 5 scenario)))
             scenario_pipe); try reflexivity. discriminate.
Defined.

(** The scenario state is the one the specification describes. *)
Lemma scenario_as_specified :
  PipePair.gap_y scenario_pipe + PipePair.gap_size scenario_pipe / 2 == 300 /\
  PipePair.gap_size scenario_pipe == 200 /\
  Bird.y (bird scenario) + Bird.height (bird scenario) / 2 == 300 /\
  Bird.velocity (bird scenario) == 0 /\
  (PipePair.x scenario_pipe - Bird.x (bird scenario))
    / current_pipe_speed scenario == 1 /\
  next_pipe_of scenario = Some scenario_pipe.
Proof. repeat split. Qed.

(** It does not come out as the specification expects: the free-fall
    prediction misses the shrunk gap, and the decision is not 0 flaps. *)
Lemma scenario_choice_not_zero :
  ~ (inside_gap scenario scenario_pipe 300 1 0 = true
     \/ autoflap_choice scenario = Some (Some 0%nat)).
Proof.
  intros [H | H]; vm_compute in H; discriminate H.
Qed.

(** C3.  With no flap the prediction is the closed-form free fall over the
    whole time plus half the agent's height, for every time.  In the
    scenario the free-fall centre is 60, which is outside the shrunk gap
    from 206 to 394; no flap count of 0..3 lands inside it, and the
    autopilot's choice is the fallback's count 1. *)
Theorem predict_free_fall_and_scenario :
  forall (s : Game) (T : Q),
    _predict_center_with_flaps s T 0
    == Bird.y (bird s) + Bird.velocity (bird s) * T
       + (1 # 2) * GRAVITY * T ^ 2 + Bird.height (bird s) / 2
    /\ _predict_center_with_flaps scenario 1 0 == 60
    /\ forallb (fun k => negb (inside_gap scenario scenario_pipe 300 1 k))
               (seq 0 4) = true
    /\ autoflap_choice scenario = Some (Some 1%nat).
Proof.
  intros s T. split; [apply predict_free_fall|].
  split; [reflexivity|]. split; vm_compute; reflexivity.
Qed.

(** ** The obstacle list: advancing and the closing loop *)

Lemma pipe_width_48 : pipe_width = 48.
Proof. reflexivity. Qed.

Lemma advance_pipes_In dx ps p' :
  In p' (advance_pipes dx ps) ->
  exists p, In p ps /\ p' = PipePair.move dx p /\ -50 <= PipePair.right p'.
Proof.
  induction ps as [|p ps IH]; simpl; [tauto|].
  destruct (Qltb (PipePair.right (PipePair.move dx p)) (-50)) eqn:E.
  - intro H. destruct (IH H) as (q & Hq & R). exists q. tauto.
  - intros [<- | H].
    + exists p. split; [left; reflexivity|]. split; [reflexivity|].
      apply Qltb_false. exact E.
    + destruct (IH H) as (q & Hq & R). exists q. tauto.
Qed.

Lemma advance_pipes_Forall (P R : PipePair.t -> Prop) dx ps :
  (forall p, P p -> -50 <= PipePair.right (PipePair.move dx p) ->
             R (PipePair.move dx p)) ->
  Forall P ps -> Forall R (advance_pipes dx ps).
Proof.
  intros HPR HP. apply Forall_forall. intros p' Hin.
  destruct (advance_pipes_In dx ps p' Hin) as (p & Hp & -> & Hl).
  rewrite Forall_forall in HP. apply HPR; [apply HP; exact Hp | exact Hl].
Qed.

Lemma apart_move dx p q :
  apart p q -> apart (PipePair.move dx p) (PipePair.move dx q).
Proof.
  unfold apart. simpl. intros [H1 H2]. split; [clear H2; lra | exact H2].
Qed.

Lemma advance_pipes_sorted dx ps :
  StronglySorted apart ps -> StronglySorted apart (advance_pipes dx ps).
Proof.
  induction 1 as [|p ps Hs IH Hp]; simpl; [constructor|].
  destruct (Qltb (PipePair.right (PipePair.move dx p)) (-50)); [exact IH|].
  constructor; [exact IH|].
  apply (advance_pipes_Forall (apart p)); [|exact Hp].
  intros q Hq _. apply apart_move. exact Hq.
Qed.

Lemma collides_with_x p bx by_ bw bh :
  PipePair.collides_with p bx by_ bw bh = true ->
  bx < PipePair.x p + PipePair.width_pipe p /\ PipePair.x p < bx + bw.
Proof.
  unfold PipePair.collides_with, PipePair.aabb.
  rewrite orb_true_iff, !andb_true_iff, !Qltb_true. tauto.
Qed.

Lemma check_pipes_far b ps : forall sc ps' sc' hit,
  Forall (fun q => Bird.x b + Bird.width b <= PipePair.x q) ps ->
  check_pipes b ps sc = (ps', sc', hit) -> hit = false.
Proof.
  induction ps as [|p ps IH]; intros sc ps' sc' hit Hf H; simpl in H.
  - congruence.
  - apply Forall_cons_iff in Hf. destruct Hf as [Hp Hf].
    destruct (PipePair.collides_with p _ _ _ _) eqn:C.
    + apply collides_with_x in C. lra.
    + destruct (negb (PipePair.scored p) && _);
        destruct (check_pipes b ps _) as [[r s0] h] eqn:E;
        inversion H; subst; eapply IH; eassumption.
Qed.

Lemma check_pipes_marks b ps : forall sc ps' sc' hit,
  check_pipes b ps sc = (ps', sc', hit) ->
  Forall2 (marked (Bird.x b)) ps ps' /\ sc' = (sc + flips ps ps')%Z.
Proof.
  induction ps as [|p ps IH]; intros sc ps' sc' hit H; simpl in H.
  - inversion H; subst. split; [constructor | simpl; lia].
  - destruct (PipePair.collides_with p _ _ _ _).
    + inversion H; subst. split.
      * clear. induction (p :: ps); constructor; [left; reflexivity | assumption].
      * assert (Z0 : forall l, flips l l = 0%Z).
        { induction l as [|a l IHl]; simpl; [reflexivity|].
          rewrite IHl. destruct (PipePair.scored a); reflexivity. }
        rewrite Z0. lia.
    + destruct (negb (PipePair.scored p) && Qltb _ _) eqn:E;
        destruct (check_pipes b ps _) as [[r s0] h] eqn:R;
        inversion H; subst; destruct (IH _ _ _ _ R) as [F S]; split.
      * constructor; [|exact F]. right.
        apply andb_true_iff in E. destruct E as [E1 E2].
        apply negb_true_iff in E1. apply Qltb_true in E2. tauto.
      * apply andb_true_iff in E. destruct E as [E1 _].
        apply negb_true_iff in E1.
        cbn [flips PipePair.set_scored PipePair.scored]. rewrite E1.
        cbn [andb negb]. lia.
      * constructor; [left; reflexivity | exact F].
      * cbn [flips]. destruct (PipePair.scored p); cbn [andb negb]; lia.
Qed.

Lemma check_pipes_hit_keeps_score b ps : forall sc ps' sc',
  Bird.x b = launch_x ->
  Forall (fun p => PipePair.width_pipe p = pipe_width) ps ->
  StronglySorted apart ps ->
  Forall (fun p => -50 <= PipePair.right p) ps ->
  check_pipes b ps sc = (ps', sc', true) -> sc' = sc /\ ps' = ps.
Proof.
  induction ps as [|p ps IH]; intros sc ps' sc' Hx Hw Hs Hl H; simpl in H.
  - inversion H.
  - apply Forall_cons_iff in Hw. destruct Hw as [Hwp Hw].
    apply Forall_cons_iff in Hl. destruct Hl as [Hlp Hl].
    apply StronglySorted_inv in Hs. destruct Hs as [Hs Hp].
    destruct (PipePair.collides_with p _ _ _ _).
    + inversion H; subst. split; reflexivity.
    + destruct (negb (PipePair.scored p) && Qltb _ _) eqn:E;
        destruct (check_pipes b ps _) as [[r s0] h] eqn:R;
        inversion H; subst.
      * exfalso. assert (F : true = false); [|discriminate F].
        eapply check_pipes_far; [|exact R].
        eapply Forall_impl; [|exact Hp]. intros q [Hq _].
        unfold PipePair.right in Hlp. rewrite Hwp, pipe_width_48 in Hlp.
        rewrite Hx. unfold launch_x. change (Bird.width b) with 64. lra.
      * destruct (IH _ _ _ Hx Hw Hs Hl R) as [-> ->]. split; reflexivity.
Qed.

Lemma check_pipes_passed b ps : forall sc ps' sc' hit,
  Forall (fun p => PipePair.width_pipe p = pipe_width) ps ->
  StronglySorted apart ps ->
  check_pipes b ps sc = (ps', sc', hit) ->
  Forall (passed_scored (Bird.x b)) ps'.
Proof.
  induction ps as [|p ps IH]; intros sc ps' sc' hit Hw Hs H; simpl in H.
  - inversion H. constructor.
  - apply Forall_cons_iff in Hw. destruct Hw as [Hwp Hw].
    apply StronglySorted_inv in Hs. destruct Hs as [Hs Hp].
    destruct (PipePair.collides_with p _ _ _ _) eqn:C.
    + inversion H; subst. apply collides_with_x in C. destruct C as [C _].
      rewrite Hwp, pipe_width_48 in C. constructor.
      * unfold passed_scored, PipePair.right. rewrite Hwp, pipe_width_48. lra.
      * rewrite Forall_forall in Hp, Hw. apply Forall_forall. intros q Hq.
        destruct (Hp q Hq) as [Hpq _].
        unfold passed_scored, PipePair.right.
        rewrite (Hw q Hq), pipe_width_48. lra.
    + destruct (negb (PipePair.scored p) && Qltb _ _) eqn:E;
        destruct (check_pipes b ps _) as [[r s0] h] eqn:R;
        inversion H; subst; (constructor; [|eapply IH; eassumption]).
      * intro. reflexivity.
      * intro Hpass. apply Qltb_true in Hpass.
        change (PipePair.x p + PipePair.width_pipe p) with (PipePair.right p) in E.
        rewrite Hpass, andb_true_r in E. apply negb_false_iff in E. exact E.
Qed.

(** ** Geometry of the reachable states *)

Lemma geom_ext s s' :
  Bird.x (bird s') = Bird.x (bird s) -> pipes s' = pipes s ->
  next_pid s' = next_pid s -> current_pipe_gap s' = current_pipe_gap s ->
  initial_spacing_mult s' = initial_spacing_mult s ->
  geom s -> geom s'.
Proof.
  intros Hx Hp Hn Hg Hm [G1 G2 G3 G4 G5 G6 G7].
  constructor; rewrite ?Hx, ?Hp, ?Hn, ?Hg, ?Hm; assumption.
Qed.

Lemma apply_difficulty_gap s :
  (30 <= score s)%Z ->
  current_pipe_gap (_apply_difficulty s) = (200 - Z.min 50 (score s - 30))%Z.
Proof.
  intro H. unfold _apply_difficulty.
  apply Z.ltb_ge in H. rewrite H. apply Z.ltb_ge in H.
  cbn [set_difficulty current_pipe_gap PIPE_GAP HARD].
  apply py_int_inject. apply (ramp_gap_integral (score s) H).
Qed.

Lemma geom_apply_difficulty s : geom s -> geom (_apply_difficulty s).
Proof.
  intros [G1 G2 G3 G4 G5 G6 G7].
  assert (Hsame : bird (_apply_difficulty s) = bird s /\
                  pipes (_apply_difficulty s) = pipes s /\
                  next_pid (_apply_difficulty s) = next_pid s).
  { unfold _apply_difficulty. destruct (score s <? 30)%Z; repeat split. }
  destruct Hsame as (Hb & Hp & Hn).
  constructor; rewrite ?Hb, ?Hp, ?Hn; try assumption.
  - destruct (Z_lt_ge_dec (score s) 30) as [L | L].
    + unfold _apply_difficulty. apply Z.ltb_lt in L. rewrite L. simpl. lia.
    + rewrite apply_difficulty_gap by lia. lia.
  - unfold _apply_difficulty. destruct (score s <? 30)%Z; simpl; tauto.
Qed.

Lemma geom_advance dx s :
  geom s -> geom (set_pipes (advance_pipes dx (pipes s)) s).
Proof.
  intros [G1 G2 G3 G4 G5 G6 G7]. constructor; cbn [set_pipes pipes bird
    next_pid current_pipe_gap initial_spacing_mult]; try assumption.
  - eapply advance_pipes_Forall; [|exact G2]. intros p Hp _. exact Hp.
  - apply advance_pipes_sorted. exact G3.
  - eapply advance_pipes_Forall; [|exact G4]. intros p Hp _. exact Hp.
  - eapply advance_pipes_Forall; [|exact G5]. intros p _ Hl. exact Hl.
Qed.

Lemma fold_left_Qmax_ge xs : forall a,
  a <= fold_left Qmax xs a /\ Forall (fun x => x <= fold_left Qmax xs a) xs.
Proof.
  induction xs as [|x xs IH]; intro a; simpl.
  - split; [apply Qle_refl | constructor].
  - destruct (IH (Qmax a x)) as [H1 H2]. split.
    + eapply Qle_trans; [apply Q.le_max_l | exact H1].
    + constructor; [|exact H2].
      eapply Qle_trans; [apply Q.le_max_r | exact H1].
Qed.

Lemma rightmost_of_ge ps :
  Forall (fun p => PipePair.x p <= rightmost_of ps) ps.
Proof.
  unfold rightmost_of. destruct ps as [|p ps]; [constructor|].
  cbn [map]. destruct (fold_left_Qmax_ge (map PipePair.x ps) (PipePair.x p))
    as [H1 H2].
  constructor; [exact H1|].
  rewrite Forall_map in H2. exact H2.
Qed.

Lemma randint_range lo hi u :
  (lo <= hi)%Z ->
  exists v, randint lo hi u = Some v /\ (lo <= v <= hi)%Z.
Proof.
  intro H. unfold randint. apply Z.leb_le in H. rewrite H.
  apply Z.leb_le in H. eexists. split; [reflexivity|].
  pose proof (Z.mod_pos_bound u (hi - lo + 1)). lia.
Qed.

Lemma randint_onto lo hi v :
  (lo <= v <= hi)%Z -> randint lo hi (v - lo) = Some v.
Proof.
  intro H. unfold randint.
  assert (L : (lo <=? hi)%Z = true) by (apply Z.leb_le; lia).
  rewrite L. rewrite Z.mod_small by lia. f_equal. lia.
Qed.

(** ** Spawning *)

Lemma Qmax_cases a b : Qmax a b = a \/ Qmax a b = b.
Proof.
  unfold Qmax, GenericMinMax.gmax. destruct (a ?= b); tauto.
Qed.

Lemma fold_left_Qmax_in xs : forall a,
  fold_left Qmax xs a = a \/ In (fold_left Qmax xs a) xs.
Proof.
  induction xs as [|x xs IH]; intro a; simpl; [left; reflexivity|].
  destruct (IH (Qmax a x)) as [H | H]; [|right; right; exact H].
  rewrite H. destruct (Qmax_cases a x) as [E | E]; rewrite E; tauto.
Qed.

Lemma rightmost_of_in p ps :
  exists q, In q (p :: ps) /\ PipePair.x q = rightmost_of (p :: ps).
Proof.
  unfold rightmost_of. cbn [map].
  destruct (fold_left_Qmax_in (map PipePair.x ps) (PipePair.x p)) as [H | H].
  - exists p. split; [left; reflexivity | symmetry; exact H].
  - apply in_map_iff in H. destruct H as (q & Hq & Hin).
    exists q. split; [right; exact Hin | exact Hq].
Qed.

Lemma spawn_x_of_spec ps :
  spawn_x_of ps
  == Qmax (inject_Z WINDOW_WIDTH + 20)
          (rightmost_of ps + (7 # 10) * inject_Z WINDOW_WIDTH).
Proof.
  unfold spawn_x_of.
  change (inject_Z (py_int (inject_Z WINDOW_WIDTH * (7 # 10)))) with 280.
  change (inject_Z (WINDOW_WIDTH + 20)) with 420.
  change (inject_Z WINDOW_WIDTH) with 400.
  assert (E : rightmost_of ps + (7 # 10) * 400 == rightmost_of ps + 280)
    by ring.
  assert (E' : (400 : Q) + 20 == 420) by reflexivity.
  rewrite E, E'. reflexivity.
Qed.

Lemma spawn_pipe_some u s :
  (current_pipe_gap s <= 500)%Z ->
  exists gy,
    (70 <= gy <= 570 - current_pipe_gap s)%Z /\
    spawn_pipe u s =
    Some (set_time_since_last_spawn 0
            (set_next_pid (S (next_pid s))
               (set_pipes
                  (pipes s ++
                   [PipePair.init (next_pid s) (spawn_x_of (pipes s))
                      (inject_Z gy) (inject_Z (current_pipe_gap s))
                      pipe_width (inject_Z WINDOW_HEIGHT)]) s))).
Proof.
  intro H. unfold spawn_pipe.
  destruct (randint_range (PIPE_MIN_GAP_Y + 10)
              (WINDOW_HEIGHT - current_pipe_gap s - 30) u) as (gy & E & R).
  { unfold PIPE_MIN_GAP_Y, WINDOW_HEIGHT. lia. }
  exists gy. split.
  - unfold PIPE_MIN_GAP_Y, WINDOW_HEIGHT in R. lia.
  - rewrite E. reflexivity.
Qed.

Lemma geom_spawn gy s :
  geom s ->
  geom (set_time_since_last_spawn 0
          (set_next_pid (S (next_pid s))
             (set_pipes
                (pipes s ++
                 [PipePair.init (next_pid s) (spawn_x_of (pipes s))
                    (inject_Z gy) (inject_Z (current_pipe_gap s))
                    pipe_width (inject_Z WINDOW_HEIGHT)]) s))).
Proof.
  intros [G1 G2 G3 G4 G5 G6 G7].
  assert (Hx : 420 <= spawn_x_of (pipes s)).
  { unfold spawn_x_of. change (inject_Z (WINDOW_WIDTH + 20)) with 420.
    apply Q.le_max_l. }
  constructor; cbn [set_time_since_last_spawn set_next_pid set_pipes pipes
    bird next_pid current_pipe_gap initial_spacing_mult]; try assumption.
  - apply Forall_app. split; [exact G2|]. repeat constructor.
  - apply StronglySorted_snoc; [exact G3|].
    pose proof (rightmost_of_ge (pipes s)) as R.
    rewrite Forall_forall in R, G4. apply Forall_forall. intros p Hp.
    split; [|apply G4; exact Hp]. cbn [PipePair.init PipePair.x].
    eapply Qle_trans; [|apply Q.le_max_r].
    change (inject_Z (py_int (inject_Z WINDOW_WIDTH * (7 # 10)))) with 280.
    pose proof (R p Hp). lra.
  - apply Forall_app. split.
    + eapply Forall_impl; [|exact G4]. intros p Hp.
      apply Nat.lt_lt_succ_r. exact Hp.
    + repeat constructor.
  - apply Forall_app. split; [exact G5|]. repeat constructor.
    unfold PipePair.right. cbn [PipePair.init PipePair.x PipePair.width_pipe].
    rewrite pipe_width_48. lra.
Qed.

Lemma maybe_spawn_geom dt u s :
  geom s -> exists s', maybe_spawn dt u s = Some s' /\ geom s' /\
    bird s' = bird s /\ score s' = score s /\
    running s' = running s /\ game_over s' = game_over s /\
    autoplay s' = autoplay s /\ _last_flap_time s' = _last_flap_time s.
Proof.
  intro G. unfold maybe_spawn.
  set (s1 := set_time_since_last_spawn (_time_since_last_spawn s + dt) s).
  assert (G1 : geom s1) by (eapply geom_ext; [..|exact G]; reflexivity).
  destruct (Qleb (current_spawn_interval s1) (_time_since_last_spawn s1)).
  - destruct (spawn_pipe_some u s1) as (gy & _ & E).
    { destruct G1. lia. }
    rewrite E. eexists. split; [reflexivity|].
    split; [apply geom_spawn; exact G1 | repeat split].
  - exists s1. split; [reflexivity|]. split; [exact G1 | repeat split].
Qed.

(** ** The autopilot and the flap touch the agent only *)

Lemma flap_frame now s :
  exists v t, _flap now s =
    set_bird (Bird.mk (Bird.x (bird s)) (Bird.y (bird s)) v)
             (set_last_flap_time t s).
Proof.
  unfold _flap, _can_flap_now.
  destruct (Qleb MIN_FLAP_INTERVAL (now - _last_flap_time s)).
  - exists FLAP_VELOCITY, now. reflexivity.
  - exists (Bird.velocity (bird s)), (_last_flap_time s).
    destruct s as [? ? ? [? ? ?] ? ? ? ? ? ? ? ? ?]. reflexivity.
Qed.

Lemma autoflap_frame now s :
  exists s', _autoflap_logic now s = Some s' /\ (s' = s \/ s' = _flap now s).
Proof.
  unfold _autoflap_logic.
  destruct (autoflap_choice_total s) as [c ->]. cbn [bind].
  destruct c as [k|]; [destruct (1 <=? k)%nat|]; eexists; split;
    try reflexivity; tauto.
Qed.

Lemma autoflap_fields now s s' :
  _autoflap_logic now s = Some s' ->
  pipes s' = pipes s /\ Bird.x (bird s') = Bird.x (bird s) /\
  Bird.y (bird s') = Bird.y (bird s) /\
  next_pid s' = next_pid s /\ score s' = score s /\
  running s' = running s /\ game_over s' = game_over s /\
  _time_since_last_spawn s' = _time_since_last_spawn s /\
  current_pipe_gap s' = current_pipe_gap s /\
  initial_spacing_mult s' = initial_spacing_mult s.
Proof.
  intro H. destruct (autoflap_frame now s) as (s'' & E & D).
  rewrite E in H. inversion H; subst s''. clear H E.
  destruct D as [-> | ->]; [repeat split|].
  destruct (flap_frame now s) as (v & t & ->). repeat split.
Qed.

(** ** The closing loop on states *)

Lemma marked_fields ax p p' :
  marked ax p p' ->
  PipePair.pid p' = PipePair.pid p /\ PipePair.x p' = PipePair.x p /\
  PipePair.width_pipe p' = PipePair.width_pipe p /\
  PipePair.right p' = PipePair.right p /\
  (PipePair.scored p = true -> PipePair.scored p' = true).
Proof.
  intros [-> | (_ & _ & ->)]; repeat split; auto.
Qed.

Lemma Forall2_transfer {A : Type} (R : A -> A -> Prop) (P P' : A -> Prop)
    l l' :
  Forall2 R l l' -> (forall a a', R a a' -> P a -> P' a') ->
  Forall P l -> Forall P' l'.
Proof.
  intros H HR. induction H as [|a a' l l' Ha _ IH]; intro HP; constructor.
  - apply (HR a a' Ha). apply (Forall_inv HP).
  - apply IH. apply (Forall_inv_tail HP).
Qed.

Lemma marked_sorted ax ps ps' :
  Forall2 (marked ax) ps ps' ->
  StronglySorted apart ps -> StronglySorted apart ps'.
Proof.
  induction 1 as [|p p' ps ps' Hp Hps IH]; intro Hs; [constructor|].
  apply StronglySorted_inv in Hs. destruct Hs as [Hs Hf].
  constructor; [apply IH; exact Hs|].
  apply (Forall2_transfer (marked ax) (apart p) (apart p') ps ps' Hps);
    [|exact Hf].
  intros q q' Hq [A1 A2].
  destruct (marked_fields ax p p' Hp) as (Ep & Ex & _).
  destruct (marked_fields ax q q' Hq) as (Eq & Exq & _).
  unfold apart. rewrite Ep, Ex, Eq, Exq. split; assumption.
Qed.

Lemma collide_and_score_unfold s ps sc hit :
  check_pipes (bird s) (pipes s) (score s) = (ps, sc, hit) ->
  collide_and_score s =
  (if hit then end_game (set_score sc (set_pipes ps s))
   else set_score sc (set_pipes ps s)).
Proof. intro H. unfold collide_and_score. rewrite H. reflexivity. Qed.

Lemma collide_and_score_wf s : geom s -> wf (collide_and_score s).
Proof.
  intros [G1 G2 G3 G4 G5 G6 G7].
  destruct (check_pipes (bird s) (pipes s) (score s)) as [[ps sc] hit] eqn:E.
  rewrite (collide_and_score_unfold s ps sc hit E).
  destruct (check_pipes_marks _ _ _ _ _ _ E) as [M _].
  pose proof (check_pipes_passed _ _ _ _ _ _ G2 G3 E) as P.
  assert (G : geom (set_score sc (set_pipes ps s))).
  { constructor; cbn [set_score set_pipes pipes bird next_pid
      current_pipe_gap initial_spacing_mult]; try assumption.
    - refine (Forall2_transfer _ _ _ _ _ M _ G2).
      intros p p' Hm Hp. destruct (marked_fields _ _ _ Hm) as (_ & _ & W & _).
      rewrite W. exact Hp.
    - apply (marked_sorted _ _ _ M G3).
    - refine (Forall2_transfer _ _ _ _ _ M _ G4).
      intros p p' Hm Hp. destruct (marked_fields _ _ _ Hm) as (I & _).
      rewrite I. exact Hp.
    - refine (Forall2_transfer _ _ _ _ _ M _ G5).
      intros p p' Hm Hp.
      destruct (marked_fields _ _ _ Hm) as (_ & _ & _ & Rt & _).
      rewrite Rt. exact Hp. }
  destruct hit; split; try exact P;
    (eapply geom_ext; [..|exact G]; reflexivity).
Qed.

Lemma update_unfold f s :
  running s = true -> game_over s = false ->
  _update f s =
  let s1 := after_physics (frame_dt f) s in
  if Qleb (Bird.y (bird s1)) 0 then
    Some (end_game (set_bird (Bird.set_y 0 (bird s1)) s1))
  else if Qleb (inject_Z WINDOW_HEIGHT) (Bird.top (bird s1)) then
    Some (end_game
            (set_bird (Bird.set_y (inject_Z WINDOW_HEIGHT
                                   - Bird.height (bird s1)) (bird s1)) s1))
  else
    s2 <- maybe_spawn (frame_dt f) (frame_rand f) (advanced (frame_dt f) s1) ;;
    s3 <- (if autoplay s2 then _autoflap_logic (frame_now f) s2
           else Some s2) ;;
    Some (collide_and_score s3).
Proof.
  intros Hr Hg. unfold _update. rewrite Hr, Hg. reflexivity.
Qed.

Lemma after_physics_fields dt s :
  Bird.x (bird (after_physics dt s)) = Bird.x (bird s) /\
  pipes (after_physics dt s) = pipes s /\
  next_pid (after_physics dt s) = next_pid s /\
  score (after_physics dt s) = score s /\
  running (after_physics dt s) = running s /\
  game_over (after_physics dt s) = game_over s /\
  autoplay (after_physics dt s) = autoplay s /\
  _last_flap_time (after_physics dt s) = _last_flap_time s /\
  _time_since_last_spawn (after_physics dt s) = _time_since_last_spawn s.
Proof.
  unfold after_physics, _apply_difficulty.
  destruct (score s <? 30)%Z; repeat split.
Qed.

Lemma geom_after_physics dt s : geom s -> geom (after_physics dt s).
Proof.
  intro G. apply geom_apply_difficulty in G.
  unfold after_physics. eapply geom_ext; [..|exact G]; reflexivity.
Qed.

(** A tick never raises on a well-formed state, and leaves one. *)
Lemma update_wf f s : wf s -> exists s', _update f s = Some s' /\ wf s'.
Proof.
  intros [G P].
  destruct (running s) eqn:Hr; [destruct (game_over s) eqn:Hg|].
  - exists s. unfold _update. rewrite Hr, Hg. split; [reflexivity|].
    split; assumption.
  - rewrite (update_unfold f s Hr Hg). cbv zeta.
    set (s1 := after_physics (frame_dt f) s).
    pose proof (geom_after_physics (frame_dt f) s G) as G1. fold s1 in G1.
    destruct (after_physics_fields (frame_dt f) s) as (Ex & Ep & _).
    fold s1 in Ex, Ep.
    destruct (Qleb (Bird.y (bird s1)) 0);
      [|destruct (Qleb (inject_Z WINDOW_HEIGHT) (Bird.top (bird s1)))].
    + eexists. split; [reflexivity|]. split.
      * eapply geom_ext; [..|exact G1]; reflexivity.
      * cbn [end_game set_phase set_bird pipes bird Bird.set_y Bird.x].
        rewrite Ex, Ep. exact P.
    + eexists. split; [reflexivity|]. split.
      * eapply geom_ext; [..|exact G1]; reflexivity.
      * cbn [end_game set_phase set_bird pipes bird Bird.set_y Bird.x].
        rewrite Ex, Ep. exact P.
    + pose proof (geom_advance (- current_pipe_speed s1 * frame_dt f) s1 G1)
        as G2. fold (advanced (frame_dt f) s1) in G2.
      destruct (maybe_spawn_geom (frame_dt f) (frame_rand f) _ G2)
        as (s2 & E2 & G3 & _).
      rewrite E2. cbn [bind].
      assert (H3 : exists s3,
        (if autoplay s2 then _autoflap_logic (frame_now f) s2 else Some s2)
        = Some s3 /\ geom s3).
      { destruct (autoplay s2).
        - destruct (autoflap_frame (frame_now f) s2) as (s3 & E3 & _).
          exists s3. split; [exact E3|].
          destruct (autoflap_fields _ _ _ E3)
            as (A1 & A2 & _ & A3 & _ & _ & _ & _ & A4 & A5).
          eapply geom_ext; [..|exact G3]; assumption.
        - exists s2. split; [reflexivity | exact G3]. }
      destruct H3 as (s3 & E3 & G4). rewrite E3. cbn [bind].
      eexists. split; [reflexivity|]. apply collide_and_score_wf. exact G4.
  - exists s. unfold _update. rewrite Hr. split; [reflexivity|].
    split; assumption.
Qed.

(** ** Order of the operations of a tick *)

Lemma crash_state_wf : wf crash_state.
Proof.
  split.
  - constructor; cbn; repeat constructor.
    + discriminate.
    + lia.
    + lia.
  - repeat constructor. unfold passed_scored. cbn. intro H. discriminate H.
Qed.

(** On [crash_state] the code's tick and the specification's order part
    ways: the code has run the autopilot, which flapped, before it finds
    the overlap. *)
Lemma crash_tick_autopilot_before_collision :
  wf crash_state /\ running crash_state = true /\
  (exists s', _update crash_frame crash_state = Some s' /\
     game_over s' = true /\ Bird.velocity (bird s') == 380 /\
     _last_flap_time s' == 1000) /\
  (exists s', update_spec_order crash_frame crash_state = Some s' /\
     game_over s' = true /\ Bird.velocity (bird s') == -240 /\
     _last_flap_time s' == 0) /\
  _update crash_frame crash_state <> update_spec_order crash_frame crash_state.
Proof.
  split; [exact crash_state_wf|]. split; [reflexivity|].
  split; [|split].
  - eexists. split; [vm_compute; reflexivity|]. repeat split.
  - eexists. split; [vm_compute; reflexivity|]. repeat split.
  - vm_compute. intro H. discriminate H.
Qed.

(** A second place where they part ways: when the agent reaches the
    floor, the code leaves the tick before the obstacles move. *)
Lemma floor_tick_before_advance :
  (exists s', _update (mkFrame 1 1000 0) crash_state = Some s' /\
     game_over s' = true /\
     map PipePair.x (pipes s') = map PipePair.x (pipes crash_state) /\
     _time_since_last_spawn s' = _time_since_last_spawn crash_state) /\
  (exists s', update_spec_order (mkFrame 1 1000 0) crash_state = Some s' /\
     game_over s' = true /\
     Forall2 Qeq (map PipePair.x (pipes s')) [120] /\
     _time_since_last_spawn s' == 1).
Proof.
  split; eexists; (split; [vm_compute; reflexivity|]); repeat split.
  repeat constructor.
Qed.

Lemma collide_and_score_hit s :
  geom s -> game_over s = false ->
  game_over (collide_and_score s) = true ->
  score (collide_and_score s) = score s /\
  pipes (collide_and_score s) = pipes s.
Proof.
  intros [G1 G2 G3 G4 G5 G6 G7] Hg H.
  destruct (check_pipes (bird s) (pipes s) (score s)) as [[ps sc] hit] eqn:E.
  rewrite (collide_and_score_unfold s ps sc hit E) in *.
  destruct hit.
  - destruct (check_pipes_hit_keeps_score _ _ _ _ _ G1 G2 G3 G5 E) as [-> ->].
    split; reflexivity.
  - cbn in H. congruence.
Qed.

(** Past the floor and ceiling checks a tick is the spawn step, the
    autopilot and the closing loop, in this order, and none of them
    raises. *)
Lemma update_past_bounds f s :
  wf s -> running s = true -> game_over s = false ->
  let dt := frame_dt f in
  let s1 := after_physics dt s in
  0 < Bird.y (bird s1) -> Bird.top (bird s1) < inject_Z WINDOW_HEIGHT ->
  exists s2 s3,
    maybe_spawn dt (frame_rand f) (advanced dt s1) = Some s2 /\
    (if autoplay s2 then _autoflap_logic (frame_now f) s2 else Some s2)
    = Some s3 /\
    _update f s = Some (collide_and_score s3).
Proof.
  intros [G _] Hr Hg dt s1 H1 H2.
  pose proof (update_unfold f s Hr Hg) as U. cbv zeta in U.
  fold dt in U. fold s1 in U.
  pose proof (geom_after_physics dt s G) as G1. fold s1 in G1.
  pose proof (geom_advance (- current_pipe_speed s1 * dt) s1 G1) as G2.
  fold (advanced dt s1) in G2.
  destruct (maybe_spawn_geom dt (frame_rand f) _ G2) as (s2 & E2 & _).
  assert (H3 : exists s3,
    (if autoplay s2 then _autoflap_logic (frame_now f) s2 else Some s2)
    = Some s3).
  { destruct (autoplay s2).
    - destruct (autoflap_frame (frame_now f) s2) as (s3 & E3 & _).
      exists s3. exact E3.
    - exists s2. reflexivity. }
  destruct H3 as (s3 & E3).
  apply Qleb_false in H1. apply Qleb_false in H2.
  exists s2, s3. split; [exact E2|]. split; [exact E3|].
  rewrite U, H1, H2, E2. cbn [bind]. rewrite E3. reflexivity.
Qed.

(** C1.  In a tick of a running game the code goes in this order:
    difficulty and the agent's step; then the floor and the ceiling, either
    of which ends the run on the spot, before any obstacle has moved; then
    the obstacles advance and one may spawn; then the autopilot, when on;
    and last the loop over the obstacles in spawn order, which tests the
    overlap and then the score for each.  On the states the game reaches, a
    tick that ends the run leaves the score as it was. *)
Theorem update_order :
  forall (f : Frame) (s : Game),
    wf s -> running s = true -> game_over s = false ->
    let dt := frame_dt f in
    let s1 := after_physics dt s in
    (Bird.y (bird s1) <= 0 ->
       _update f s = Some (end_game (set_bird (Bird.set_y 0 (bird s1)) s1))) /\
    (0 < Bird.y (bird s1) -> inject_Z WINDOW_HEIGHT <= Bird.top (bird s1) ->
       _update f s =
       Some (end_game
               (set_bird (Bird.set_y (inject_Z WINDOW_HEIGHT
                                      - Bird.height (bird s1)) (bird s1)) s1))) /\
    (0 < Bird.y (bird s1) -> Bird.top (bird s1) < inject_Z WINDOW_HEIGHT ->
       exists s2 s3,
         maybe_spawn dt (frame_rand f) (advanced dt s1) = Some s2 /\
         (if autoplay s2 then _autoflap_logic (frame_now f) s2 else Some s2)
         = Some s3 /\
         _update f s = Some (collide_and_score s3)) /\
    (forall s', _update f s = Some s' -> game_over s' = true ->
       score s' = score s).
Proof.
  intros f s [G P] Hr Hg dt s1.
  pose proof (update_unfold f s Hr Hg) as U. cbv zeta in U.
  fold dt in U. fold s1 in U.
  pose proof (geom_after_physics dt s G) as G1. fold s1 in G1.
  destruct (after_physics_fields dt s) as (_ & _ & _ & Esc & _ & Eg & _).
  fold s1 in Esc, Eg.
  pose proof (geom_advance (- current_pipe_speed s1 * dt) s1 G1) as G2.
  fold (advanced dt s1) in G2.
  destruct (maybe_spawn_geom dt (frame_rand f) _ G2)
    as (s2 & E2 & G3 & _ & Sc2 & _ & Go2 & _).
  assert (H3 : exists s3,
    (if autoplay s2 then _autoflap_logic (frame_now f) s2 else Some s2)
    = Some s3 /\ geom s3 /\ score s3 = score s2 /\ game_over s3 = game_over s2).
  { destruct (autoplay s2).
    - destruct (autoflap_frame (frame_now f) s2) as (s3 & E3 & _).
      exists s3. split; [exact E3|].
      destruct (autoflap_fields _ _ _ E3)
        as (A1 & A2 & _ & A3 & A6 & _ & A7 & _ & A4 & A5).
      split; [|split; assumption].
      eapply geom_ext; [..|exact G3]; assumption.
    - exists s2. split; [reflexivity|]. split; [exact G3|]. split; reflexivity. }
  destruct H3 as (s3 & E3 & G4 & Sc3 & Go3).
  split; [|split; [|split]].
  - intro H. apply Qleb_true in H. rewrite U, H. reflexivity.
  - intros H1 H2. apply Qleb_false in H1. apply Qleb_true in H2.
    rewrite U, H1, H2. reflexivity.
  - intros H1 H2. apply Qleb_false in H1. apply Qleb_false in H2.
    exists s2, s3. split; [exact E2|]. split; [exact E3|].
    rewrite U, H1, H2, E2. cbn [bind]. rewrite E3. reflexivity.
  - intros s' Hs' Hover. rewrite U in Hs'.
    destruct (Qleb (Bird.y (bird s1)) 0);
      [|destruct (Qleb (inject_Z WINDOW_HEIGHT) (Bird.top (bird s1)))].
    + inversion Hs'; subst s'. exact Esc.
    + inversion Hs'; subst s'. exact Esc.
    + rewrite E2 in Hs'. cbn [bind] in Hs'. rewrite E3 in Hs'.
      cbn [bind] in Hs'. inversion Hs'; subst s'.
      assert (Hg3 : game_over s3 = false).
      { rewrite Go3, Go2. unfold advanced. cbn [set_pipes game_over].
        rewrite Eg. exact Hg. }
      destruct (collide_and_score_hit s3 G4 Hg3 Hover) as [Hsc _].
      rewrite Hsc, Sc3, Sc2. unfold advanced. cbn [set_pipes score].
      exact Esc.
Qed.

Lemma update_order_witness :
  match _update crash_frame crash_state with
  | Some s' => game_over s' = true /\ score s' = score crash_state
  | None => False
  end.
Proof.
  pose proof (update_order crash_frame crash_state crash_state_wf
                eq_refl eq_refl) as (_ & _ & _ & Hsc).
  destruct (_update crash_frame crash_state) as [s'|] eqn:E.
  - assert (Ho : game_over s' = true).
    { vm_compute in E. inversion E. reflexivity. }
    split; [exact Ho | apply Hsc; [reflexivity | exact Ho]].
  - vm_compute in E. discriminate E.
Defined.

(** ** The spawn step of a tick *)

Lemma maybe_spawn_due dt u s :
  (current_pipe_gap s <= 500)%Z ->
  current_spawn_interval s <= _time_since_last_spawn s + dt ->
  exists gy,
    (70 <= gy <= 570 - current_pipe_gap s)%Z /\
    exists s', maybe_spawn dt u s = Some s' /\
      pipes s' =
        pipes s ++ [PipePair.init (next_pid s) (spawn_x_of (pipes s))
                      (inject_Z gy) (inject_Z (current_pipe_gap s))
                      pipe_width (inject_Z WINDOW_HEIGHT)] /\
      _time_since_last_spawn s' = 0.
Proof.
  intros Hg Hd. unfold maybe_spawn.
  set (s1 := set_time_since_last_spawn (_time_since_last_spawn s + dt) s).
  assert (E : Qleb (current_spawn_interval s1) (_time_since_last_spawn s1)
              = true) by (apply Qleb_true; exact Hd).
  rewrite E. destruct (spawn_pipe_some u s1 Hg) as (gy & R & Es).
  exists gy. split; [exact R|]. eexists. split; [exact Es|].
  split; reflexivity.
Qed.

Lemma maybe_spawn_not_due dt u s :
  _time_since_last_spawn s + dt < current_spawn_interval s ->
  maybe_spawn dt u s =
  Some (set_time_since_last_spawn (_time_since_last_spawn s + dt) s).
Proof.
  intro Hd. unfold maybe_spawn.
  set (s1 := set_time_since_last_spawn (_time_since_last_spawn s + dt) s).
  assert (E : Qleb (current_spawn_interval s1) (_time_since_last_spawn s1)
              = false) by (apply Qleb_false; exact Hd).
  rewrite E. reflexivity.
Qed.

Lemma collide_and_score_fields s :
  Forall2 (marked (Bird.x (bird s))) (pipes s) (pipes (collide_and_score s)) /\
  _time_since_last_spawn (collide_and_score s) = _time_since_last_spawn s /\
  next_pid (collide_and_score s) = next_pid s /\
  bird (collide_and_score s) = bird s /\
  score (collide_and_score s)
  = (score s + flips (pipes s) (pipes (collide_and_score s)))%Z.
Proof.
  destruct (check_pipes (bird s) (pipes s) (score s)) as [[ps sc] hit] eqn:E.
  rewrite (collide_and_score_unfold s ps sc hit E).
  destruct (check_pipes_marks _ _ _ _ _ _ E) as [M S].
  destruct hit; repeat split; assumption.
Qed.

(** C9.  In a running tick that gets past the floor and ceiling checks,
    the accumulator takes the frame time; when it has then reached the
    spawn interval, exactly one obstacle is appended, at
    [max(width + 20, rightmost x + 0.7 * width)] where the rightmost x is
    the largest abscissa in the list (0 for an empty list), with a gap
    position of the range 70 .. 570 - gap, every value of which can come
    out, so that the gap band lies between the margins 70 below and 30
    above, and the accumulator is 0 again; when it has not, nothing is
    appended and the accumulator keeps the sum.  The rest of the tick
    changes at most the flags of the list. *)
Theorem tick_spawn :
  forall (f : Frame) (g : Game),
    wf g -> running g = true -> game_over g = false ->
    let dt := frame_dt f in
    let s := advanced dt (after_physics dt g) in
    0 < Bird.y (bird s) -> Bird.top (bird s) < inject_Z WINDOW_HEIGHT ->
    exists s2 s',
      maybe_spawn dt (frame_rand f) s = Some s2 /\
      _update f g = Some s' /\
      Forall2 (marked (Bird.x (bird g))) (pipes s2) (pipes s') /\
      _time_since_last_spawn s' = _time_since_last_spawn s2 /\
      (current_spawn_interval s <= _time_since_last_spawn g + dt ->
         exists gy p,
           p = PipePair.init (next_pid s) (spawn_x_of (pipes s))
                 (inject_Z gy) (inject_Z (current_pipe_gap s))
                 pipe_width (inject_Z WINDOW_HEIGHT) /\
           pipes s2 = pipes s ++ [p] /\
           _time_since_last_spawn s2 = 0 /\
           PipePair.x p
           == Qmax (inject_Z WINDOW_WIDTH + 20)
                   (rightmost_of (pipes s) + (7 # 10) * inject_Z WINDOW_WIDTH) /\
           Forall (fun q => PipePair.x q <= rightmost_of (pipes s)) (pipes s) /\
           (pipes s = [] -> rightmost_of (pipes s) = 0) /\
           (pipes s <> [] ->
              exists q, In q (pipes s) /\ PipePair.x q = rightmost_of (pipes s)) /\
           (70 <= gy)%Z /\ (gy + current_pipe_gap s <= 600 - 30)%Z /\
           PipePair.gap_y p = inject_Z gy /\
           PipePair.top_pos p = inject_Z gy + inject_Z (current_pipe_gap s)) /\
      (_time_since_last_spawn g + dt < current_spawn_interval s ->
         pipes s2 = pipes s /\
         _time_since_last_spawn s2 = _time_since_last_spawn g + dt) /\
      (forall gy, (70 <= gy <= 570 - current_pipe_gap s)%Z ->
         randint (PIPE_MIN_GAP_Y + 10)
                 (WINDOW_HEIGHT - current_pipe_gap s - 30) (gy - 70)
         = Some gy).
Proof.
  intros f g W Hr Hg dt s Hy Ht.
  destruct (update_past_bounds f g W Hr Hg Hy Ht) as (s2 & s3 & E2 & E3 & EU).
  fold dt in E2. fold s in E2.
  destruct W as [G _].
  pose proof (geom_after_physics dt g G) as G1.
  pose proof (geom_advance (- current_pipe_speed (after_physics dt g) * dt)
                _ G1) as G2.
  fold (advanced dt (after_physics dt g)) in G2. fold s in G2.
  assert (Hgap : (current_pipe_gap s <= 500)%Z) by (destruct G2; lia).
  assert (Hacc : _time_since_last_spawn s = _time_since_last_spawn g).
  { unfold s, advanced. cbn [set_pipes _time_since_last_spawn].
    apply after_physics_fields. }
  assert (Hbx : Bird.x (bird s) = Bird.x (bird g)).
  { unfold s, advanced. cbn [set_pipes bird]. apply after_physics_fields. }
  assert (F3 : pipes s3 = pipes s2 /\
               _time_since_last_spawn s3 = _time_since_last_spawn s2 /\
               Bird.x (bird s3) = Bird.x (bird s2)).
  { destruct (autoplay s2).
    - destruct (autoflap_fields _ _ _ E3)
        as (A1 & A2 & _ & _ & _ & _ & _ & A3 & _). tauto.
    - inversion E3. tauto. }
  destruct F3 as (P3 & T3 & X3).
  destruct (maybe_spawn_geom dt (frame_rand f) s G2)
    as (s2' & E2' & _ & B2 & _).
  rewrite E2 in E2'. inversion E2'; subst s2'. clear E2'.
  destruct (collide_and_score_fields s3) as (M & T & _).
  exists s2, (collide_and_score s3).
  split; [exact E2|]. split; [exact EU|].
  split; [rewrite <- P3, <- Hbx, <- B2, <- X3; exact M|].
  split; [rewrite T; exact T3|].
  split; [|split].
  - intro Hd. rewrite <- Hacc in Hd.
    destruct (maybe_spawn_due dt (frame_rand f) s Hgap Hd)
      as (gy & R & s2' & E & Ep & Et).
    rewrite E2 in E. inversion E; subst s2'. clear E.
    exists gy. eexists. split; [reflexivity|].
    split; [exact Ep|]. split; [exact Et|].
    split; [apply spawn_x_of_spec|].
    split; [apply rightmost_of_ge|].
    split; [intros ->; reflexivity|].
    split.
    { intro Hne. destruct (pipes s) as [|q qs]; [congruence|].
      apply rightmost_of_in. }
    repeat split; lia.
  - intro Hd. rewrite <- Hacc in Hd.
    rewrite (maybe_spawn_not_due dt (frame_rand f) s Hd) in E2.
    assert (Es : s2 = set_time_since_last_spawn
                        (_time_since_last_spawn s + dt) s) by congruence.
    rewrite Es. split; [reflexivity|].
    change (_time_since_last_spawn s + dt = _time_since_last_spawn g + dt).
    rewrite Hacc. reflexivity.
  - intros gy R.
    replace (gy - 70)%Z with (gy - (PIPE_MIN_GAP_Y + 10))%Z
      by (unfold PIPE_MIN_GAP_Y; lia).
    apply randint_onto. unfold PIPE_MIN_GAP_Y, WINDOW_HEIGHT. lia.
Qed.

Lemma tick_spawn_witness :
  let g := mkGame 0 false true (Bird.mk 100 268 0)
             [PipePair.init 0 300 150 300 pipe_width 600] (15 # 4) 0
             80 300 4 (13 # 10) false 1 in
  exists s', _update (mkFrame (1 # 2) 1000 80) g = Some s' /\
             _time_since_last_spawn s' = 0.
Proof.
  intro g.
  assert (W : wf g).
  { split.
    - constructor; cbn; repeat constructor; try lia. discriminate.
    - repeat constructor. unfold passed_scored. cbn. intro H. discriminate H. }
  destruct (tick_spawn (mkFrame (1 # 2) 1000 80) g W eq_refl eq_refl)
    as (s2 & s' & _ & EU & _ & T & Hdue & _); [reflexivity | reflexivity |].
  destruct Hdue as (gy & p & _ & _ & T0 & _); [vm_compute; discriminate|].
  exists s'. split; [exact EU | rewrite T; exact T0].
Defined.

(** ** Start and restart *)

Lemma prespawn_result spacing i u s g :
  randint (PIPE_MIN_GAP_Y + 20) (WINDOW_HEIGHT - current_pipe_gap s - 40) u
  = Some g ->
  prespawn spacing i u s =
  Some (set_next_pid (S (next_pid s))
          (set_pipes
             (pipes s ++
              [PipePair.init (next_pid s)
                 (inject_Z (WINDOW_WIDTH + i * spacing)) (inject_Z g)
                 (inject_Z (current_pipe_gap s)) pipe_width
                 (inject_Z WINDOW_HEIGHT)]) s)).
Proof. intro H. unfold prespawn. rewrite H. reflexivity. Qed.

Lemma start_game_result u0 u1 s :
  (current_pipe_gap s <= 480)%Z ->
  exists g0 g1,
    (80 <= g0 <= 560 - current_pipe_gap s)%Z /\
    (80 <= g1 <= 560 - current_pipe_gap s)%Z /\
    start_game u0 u1 s =
    Some (mkGame 0 false true (Bird.mk launch_x launch_y 0)
            [PipePair.init (next_pid s) (inject_Z WINDOW_WIDTH)
               (inject_Z g0) (inject_Z (current_pipe_gap s)) pipe_width
               (inject_Z WINDOW_HEIGHT);
             PipePair.init (S (next_pid s))
               (inject_Z (WINDOW_WIDTH + 1 *
                  py_int (inject_Z WINDOW_WIDTH * initial_spacing_mult s)))
               (inject_Z g1) (inject_Z (current_pipe_gap s)) pipe_width
               (inject_Z WINDOW_HEIGHT)]
            0 (_last_flap_time s) (current_pipe_speed s)
            (current_pipe_gap s) (current_spawn_interval s)
            (initial_spacing_mult s) (autoplay s) (S (S (next_pid s)))).
Proof.
  intro H.
  destruct (randint_range (PIPE_MIN_GAP_Y + 20)
              (WINDOW_HEIGHT - current_pipe_gap s - 40) u0) as (g0 & E0 & R0).
  { unfold PIPE_MIN_GAP_Y, WINDOW_HEIGHT. lia. }
  destruct (randint_range (PIPE_MIN_GAP_Y + 20)
              (WINDOW_HEIGHT - current_pipe_gap s - 40) u1) as (g1 & E1 & R1).
  { unfold PIPE_MIN_GAP_Y, WINDOW_HEIGHT. lia. }
  exists g0, g1.
  split; [unfold PIPE_MIN_GAP_Y, WINDOW_HEIGHT in R0; lia|].
  split; [unfold PIPE_MIN_GAP_Y, WINDOW_HEIGHT in R1; lia|].
  set (s0 := set_bird (Bird.mk launch_x launch_y 0)
               (set_time_since_last_spawn 0
                  (set_phase false true (set_score 0 (clear_pipes s))))).
  set (spacing := py_int (inject_Z WINDOW_WIDTH * initial_spacing_mult s)).
  change (start_game u0 u1 s)
    with (bind (prespawn spacing 0 u0 s0)
               (fun s1 => prespawn spacing 1 u1 s1)).
  rewrite (prespawn_result spacing 0 u0 s0 g0 E0). cbn [bind].
  erewrite prespawn_result; [reflexivity | exact E1].
Qed.

Lemma second_prespawn_x mult :
  mult = INITIAL_SPACING_MULT EASY \/ mult = INITIAL_SPACING_MULT HARD ->
  680 <= inject_Z (WINDOW_WIDTH + 1 * py_int (inject_Z WINDOW_WIDTH * mult)).
Proof. intros [-> | ->]; vm_compute; discriminate. Qed.

Lemma start_game_wf u0 u1 s :
  wf s -> exists s', start_game u0 u1 s = Some s' /\ wf s' /\
                     running s' = true /\ game_over s' = false.
Proof.
  intros [[G1 G2 G3 G4 G5 G6 G7] _].
  destruct (start_game_result u0 u1 s) as (g0 & g1 & _ & _ & E); [lia|].
  rewrite E. eexists. split; [reflexivity|].
  pose proof (second_prespawn_x _ G7) as Hx2. revert Hx2.
  generalize (inject_Z (WINDOW_WIDTH + 1 *
                py_int (inject_Z WINDOW_WIDTH * initial_spacing_mult s))).
  intros x2 Hx2.
  split; [|split; reflexivity].
  split.
  - constructor; cbn [bird pipes next_pid current_pipe_gap
      initial_spacing_mult Bird.x]; try assumption; try reflexivity.
    + repeat constructor.
    + repeat constructor; cbn [PipePair.init PipePair.x PipePair.pid].
      change (inject_Z WINDOW_WIDTH) with 400. lra.
    + repeat constructor.
    + repeat constructor; unfold PipePair.right;
        cbn [PipePair.init PipePair.x PipePair.width_pipe];
        rewrite pipe_width_48;
        change (inject_Z WINDOW_WIDTH) with 400; lra.
  - cbn [bird pipes Bird.x].
    repeat constructor; unfold passed_scored, PipePair.right, launch_x;
      cbn [PipePair.init PipePair.x PipePair.width_pipe];
      rewrite pipe_width_48; change (inject_Z WINDOW_WIDTH) with 400;
      intro Hp; exfalso; lra.
Qed.

Lemma wf_ext s s' :
  Bird.x (bird s') = Bird.x (bird s) -> pipes s' = pipes s ->
  next_pid s' = next_pid s -> current_pipe_gap s' = current_pipe_gap s ->
  initial_spacing_mult s' = initial_spacing_mult s ->
  wf s -> wf s'.
Proof.
  intros Hx Hp Hn Hg Hm [G P]. split.
  - apply (geom_ext s s'); assumption.
  - rewrite Hx, Hp. exact P.
Qed.

Lemma init_game_wf : wf init_game.
Proof.
  split.
  - constructor.
    + reflexivity.
    + constructor.
    + constructor.
    + constructor.
    + constructor.
    + cbn. lia.
    + left. reflexivity.
  - constructor.
Qed.

Lemma flap_wf now s : wf s -> wf (_flap now s).
Proof.
  intro W. destruct (flap_frame now s) as (v & t & ->).
  apply (wf_ext s); try reflexivity. exact W.
Qed.

(** Every input leaves a well-formed state well-formed, and none raises. *)
Lemma step_wf i s : wf s -> exists s', step i s = Some s' /\ wf s'.
Proof.
  intro W. destruct i as [f | now u0 u1 | u0 u1 | u0 u1]; cbn [step].
  - apply update_wf. exact W.
  - destruct (negb (running s) && negb (game_over s)).
    + destruct (start_game_wf u0 u1 s W) as (s' & E & W' & _).
      exists s'. split; assumption.
    + destruct (running s); eexists; (split; [reflexivity|]);
        [apply flap_wf; exact W | exact W].
  - assert (W1 : wf (set_autoplay (negb (autoplay s)) s))
      by (apply (wf_ext s); try reflexivity; exact W).
    destruct (autoplay _ && negb (running _) && negb (game_over _)).
    + destruct (start_game_wf u0 u1 _ W1) as (s' & E & W' & _).
      exists s'. split; assumption.
    + eexists. split; [reflexivity | exact W1].
  - destruct (running s).
    + exists s. split; [reflexivity | exact W].
    + destruct (start_game_wf u0 u1 s W) as (s' & E & W' & _).
      exists s'. split; assumption.
Qed.

Lemma run_wf ins : forall s, wf s -> exists s', run ins s = Some s' /\ wf s'.
Proof.
  induction ins as [|i ins IH]; intros s W; cbn [run].
  - exists s. split; [reflexivity | exact W].
  - destruct (step_wf i s W) as (s1 & E & W1). rewrite E. cbn [bind].
    apply IH. exact W1.
Qed.

(** ** The shape of a tick *)

Lemma randint_some lo hi u v :
  randint lo hi u = Some v -> (lo <= v <= hi)%Z.
Proof.
  unfold randint. destruct (lo <=? hi)%Z eqn:E; [|discriminate].
  apply Z.leb_le in E. intro H. inversion H.
  pose proof (Z.mod_pos_bound u (hi - lo + 1)). lia.
Qed.

Lemma maybe_spawn_fields dt u s s2 :
  maybe_spawn dt u s = Some s2 ->
  bird s2 = bird s /\ score s2 = score s /\ running s2 = running s /\
  game_over s2 = game_over s /\ autoplay s2 = autoplay s /\
  _last_flap_time s2 = _last_flap_time s /\
  current_pipe_gap s2 = current_pipe_gap s /\
  (pipes s2 = pipes s \/
   exists gy, (70 <= gy <= 570 - current_pipe_gap s)%Z /\
     pipes s2 =
     pipes s ++ [PipePair.init (next_pid s) (spawn_x_of (pipes s))
                   (inject_Z gy) (inject_Z (current_pipe_gap s))
                   pipe_width (inject_Z WINDOW_HEIGHT)]).
Proof.
  unfold maybe_spawn.
  set (s1 := set_time_since_last_spawn (_time_since_last_spawn s + dt) s).
  destruct (Qleb (current_spawn_interval s1) (_time_since_last_spawn s1)).
  - unfold spawn_pipe.
    destruct (randint (PIPE_MIN_GAP_Y + 10)
                (WINDOW_HEIGHT - current_pipe_gap s1 - 30) u) as [gy|] eqn:E;
      cbn [bind]; [|discriminate].
    intro H. inversion H. clear H.
    do 7 (split; [reflexivity|]). right. exists gy. split; [|reflexivity].
    apply randint_some in E. unfold PIPE_MIN_GAP_Y, WINDOW_HEIGHT in E.
    change (current_pipe_gap s1) with (current_pipe_gap s) in E. lia.
  - intro H. inversion H. do 7 (split; [reflexivity|]). left. reflexivity.
Qed.

Lemma check_pipes_hit b ps : forall sc,
  snd (check_pipes b ps sc) =
  existsb (fun p => PipePair.collides_with p (Bird.x b) (Bird.y b)
                      (Bird.width b) (Bird.height b)) ps.
Proof.
  induction ps as [|p ps IH]; intro sc; cbn [check_pipes existsb];
    [reflexivity|].
  destruct (PipePair.collides_with p _ _ _ _); [reflexivity|].
  cbn [orb].
  destruct (negb (PipePair.scored p) && Qltb _ _).
  - specialize (IH (sc + 1)%Z).
    destruct (check_pipes b ps (sc + 1)) as [[r s0] h]. exact IH.
  - specialize (IH sc).
    destruct (check_pipes b ps sc) as [[r s0] h]. exact IH.
Qed.

Lemma collide_and_score_phase s :
  let hit := existsb (fun p => PipePair.collides_with p (Bird.x (bird s))
                         (Bird.y (bird s)) (Bird.width (bird s))
                         (Bird.height (bird s))) (pipes s) in
  game_over (collide_and_score s) = hit || game_over s /\
  running (collide_and_score s) = negb hit && running s /\
  _last_flap_time (collide_and_score s) = _last_flap_time s /\
  autoplay (collide_and_score s) = autoplay s.
Proof.
  intro hit. unfold hit. rewrite <- (check_pipes_hit (bird s) (pipes s) (score s)).
  destruct (check_pipes (bird s) (pipes s) (score s)) as [[ps sc] h] eqn:E.
  rewrite (collide_and_score_unfold s ps sc h E).
  destruct h; repeat split.
Qed.

Lemma update_shape f s s' :
  running s = true -> game_over s = false -> _update f s = Some s' ->
  let s1 := after_physics (frame_dt f) s in
  (Bird.y (bird s1) <= 0 /\
   s' = end_game (set_bird (Bird.set_y 0 (bird s1)) s1)) \/
  (0 < Bird.y (bird s1) /\ inject_Z WINDOW_HEIGHT <= Bird.top (bird s1) /\
   s' = end_game (set_bird (Bird.set_y (inject_Z WINDOW_HEIGHT
                                        - Bird.height (bird s1)) (bird s1)) s1)) \/
  (0 < Bird.y (bird s1) /\ Bird.top (bird s1) < inject_Z WINDOW_HEIGHT /\
   exists s2 s3,
     maybe_spawn (frame_dt f) (frame_rand f) (advanced (frame_dt f) s1)
     = Some s2 /\
     (if autoplay s2 then _autoflap_logic (frame_now f) s2 else Some s2)
     = Some s3 /\
     s' = collide_and_score s3).
Proof.
  intros Hr Hg H s1. rewrite (update_unfold f s Hr Hg) in H. cbv zeta in H.
  fold s1 in H.
  destruct (Qleb (Bird.y (bird s1)) 0) eqn:E1.
  - left. apply Qleb_true in E1. inversion H. split; [exact E1 | reflexivity].
  - apply Qleb_false in E1. right.
    destruct (Qleb (inject_Z WINDOW_HEIGHT) (Bird.top (bird s1))) eqn:E2.
    + left. apply Qleb_true in E2. inversion H.
      split; [exact E1|]. split; [exact E2 | reflexivity].
    + right. apply Qleb_false in E2.
      split; [exact E1|]. split; [exact E2|].
      destruct (maybe_spawn _ _ _) as [s2|] eqn:M; [|discriminate H].
      cbn [bind] in H.
      destruct (if autoplay s2 then _ else _) as [s3|] eqn:A;
        [|discriminate H].
      cbn [bind] in H. inversion H. exists s2, s3.
      split; [reflexivity|]. split; [exact A | reflexivity].
Qed.

(** What the states of a tick past the bounds checks keep from the state
    before it. *)
Lemma tick_states f s s2 s3 :
  running s = true -> game_over s = false ->
  let s1 := after_physics (frame_dt f) s in
  maybe_spawn (frame_dt f) (frame_rand f) (advanced (frame_dt f) s1) = Some s2 ->
  (if autoplay s2 then _autoflap_logic (frame_now f) s2 else Some s2)
  = Some s3 ->
  running s3 = true /\ game_over s3 = false /\ score s3 = score s /\
  Bird.x (bird s3) = Bird.x (bird s) /\ Bird.y (bird s3) = Bird.y (bird s1) /\
  pipes s3 = pipes s2 /\ bird s2 = bird s1 /\
  _last_flap_time s2 = _last_flap_time s /\
  (s3 = s2 \/ s3 = _flap (frame_now f) s2).
Proof.
  intros Hr Hg s1 E2 E3.
  destruct (after_physics_fields (frame_dt f) s)
    as (Ex & _ & _ & Esc & Er & Eg & _ & El & _).
  fold s1 in Ex, Esc, Er, Eg, El.
  destruct (maybe_spawn_fields _ _ _ _ E2)
    as (B2 & Sc2 & R2 & G2 & _ & L2 & _).
  unfold advanced in B2, Sc2, R2, G2, L2.
  cbn [set_pipes bird score running game_over _last_flap_time] in *.
  assert (D : s3 = s2 \/ s3 = _flap (frame_now f) s2).
  { destruct (autoplay s2).
    - destruct (autoflap_frame (frame_now f) s2) as (s3' & E & D).
      rewrite E in E3. inversion E3; subst s3'. exact D.
    - inversion E3. left. reflexivity. }
  assert (F : pipes s3 = pipes s2 /\ Bird.x (bird s3) = Bird.x (bird s2) /\
              Bird.y (bird s3) = Bird.y (bird s2) /\ score s3 = score s2 /\
              running s3 = running s2 /\ game_over s3 = game_over s2).
  { destruct D as [-> | ->]; [repeat split|].
    destruct (flap_frame (frame_now f) s2) as (v & t & ->). repeat split. }
  destruct F as (F1 & F2 & F3 & F4 & F5 & F6).
  rewrite F2, F3, F4, F5, F6, B2, Sc2, R2, G2, L2, Ex, Esc, Er, Eg, El.
  repeat split; assumption.
Qed.

Lemma tick_geom f s s2 s3 :
  geom s ->
  let s1 := after_physics (frame_dt f) s in
  maybe_spawn (frame_dt f) (frame_rand f) (advanced (frame_dt f) s1) = Some s2 ->
  (if autoplay s2 then _autoflap_logic (frame_now f) s2 else Some s2)
  = Some s3 ->
  geom s3.
Proof.
  intros G s1 E2 E3.
  pose proof (geom_after_physics (frame_dt f) s G) as G1. fold s1 in G1.
  assert (G2 : geom (advanced (frame_dt f) s1))
    by (apply geom_advance; exact G1).
  destruct (maybe_spawn_geom (frame_dt f) (frame_rand f) _ G2)
    as (s2' & E2' & G3 & _).
  rewrite E2 in E2'. inversion E2'; subst s2'.
  destruct (autoplay s2).
  - destruct (autoflap_fields _ _ _ E3)
      as (A1 & A2 & _ & A3 & _ & _ & _ & _ & A4 & A5).
    eapply geom_ext; [..|exact G3]; assumption.
  - inversion E3; subst s3. exact G3.
Qed.

Lemma start_game_fields u0 u1 s s' :
  start_game u0 u1 s = Some s' ->
  running s' = true /\ game_over s' = false /\ score s' = 0%Z /\
  bird s' = Bird.mk launch_x launch_y 0 /\
  _last_flap_time s' = _last_flap_time s /\ autoplay s' = autoplay s /\
  current_pipe_gap s' = current_pipe_gap s /\
  exists g0 g1,
    (80 <= g0 <= 560 - current_pipe_gap s)%Z /\
    (80 <= g1 <= 560 - current_pipe_gap s)%Z /\
    pipes s' =
    [PipePair.init (next_pid s) (inject_Z WINDOW_WIDTH)
       (inject_Z g0) (inject_Z (current_pipe_gap s)) pipe_width
       (inject_Z WINDOW_HEIGHT);
     PipePair.init (S (next_pid s))
       (inject_Z (WINDOW_WIDTH + 1 *
          py_int (inject_Z WINDOW_WIDTH * initial_spacing_mult s)))
       (inject_Z g1) (inject_Z (current_pipe_gap s)) pipe_width
       (inject_Z WINDOW_HEIGHT)].
Proof.
  intro H.
  destruct (Z_le_gt_dec (current_pipe_gap s) 480) as [L | L].
  - destruct (start_game_result u0 u1 s L) as (g0 & g1 & R0 & R1 & E).
    rewrite E in H. inversion H.
    do 7 (split; [reflexivity|]). exists g0, g1. repeat split; lia.
  - exfalso. unfold start_game, prespawn in H.
    cbn [clear_pipes set_pipes set_score set_phase set_time_since_last_spawn
         set_bird current_pipe_gap] in H.
    assert (E : randint (PIPE_MIN_GAP_Y + 20)
                  (WINDOW_HEIGHT - current_pipe_gap s - 40) u0 = None).
    { unfold randint, PIPE_MIN_GAP_Y, WINDOW_HEIGHT.
      assert (F : (60 + 20 <=? 600 - current_pipe_gap s - 40)%Z = false)
        by (apply Z.leb_gt; lia).
      rewrite F. reflexivity. }
    rewrite E in H. discriminate H.
Qed.

(** ** Identities of obstacles *)

Lemma present_in_iff id ps :
  present_in id ps = true <-> exists p, In p ps /\ PipePair.pid p = id.
Proof.
  unfold present_in. rewrite existsb_exists. unfold has_pid.
  split; intros (p & H1 & H2); exists p; split; try assumption;
    apply Nat.eqb_eq; assumption.
Qed.

Lemma flag_in_iff id ps :
  flag_in id ps = true <->
  exists p, In p ps /\ PipePair.pid p = id /\ PipePair.scored p = true.
Proof.
  unfold flag_in. rewrite existsb_exists. unfold has_pid.
  split.
  - intros (p & H1 & H2). apply andb_true_iff in H2. destruct H2 as [H2 H3].
    apply Nat.eqb_eq in H2. exists p. tauto.
  - intros (p & H1 & H2 & H3). exists p. split; [exact H1|].
    apply andb_true_iff. split; [apply Nat.eqb_eq; exact H2 | exact H3].
Qed.

Lemma apart_unique ps p q :
  StronglySorted apart ps -> In p ps -> In q ps ->
  PipePair.pid p = PipePair.pid q -> p = q.
Proof.
  induction 1 as [|a l Hs IH Ha]; intros Hp Hq E; [destruct Hp|].
  rewrite Forall_forall in Ha.
  destruct Hp as [-> | Hp], Hq as [-> | Hq].
  - reflexivity.
  - destruct (Ha q Hq) as [_ L]. rewrite E in L.
    exfalso. apply (Nat.lt_irrefl _ L).
  - destruct (Ha p Hp) as [_ L]. rewrite E in L.
    exfalso. apply (Nat.lt_irrefl _ L).
  - apply IH; assumption.
Qed.

Lemma flag_in_member ps p :
  StronglySorted apart ps -> In p ps ->
  flag_in (PipePair.pid p) ps = PipePair.scored p.
Proof.
  intros Hs Hp. destruct (PipePair.scored p) eqn:E.
  - apply flag_in_iff. exists p. tauto.
  - destruct (flag_in (PipePair.pid p) ps) eqn:F; [|reflexivity].
    apply flag_in_iff in F. destruct F as (q & Hq & Eq & Sq).
    rewrite (apart_unique ps p q Hs Hp Hq (eq_sym Eq)) in E. congruence.
Qed.

Lemma flag_in_present id ps : flag_in id ps = true -> present_in id ps = true.
Proof.
  intro H. apply flag_in_iff in H. destruct H as (p & H1 & H2 & _).
  apply present_in_iff. exists p. tauto.
Qed.

Lemma Forall2_In_l {A B : Type} (R : A -> B -> Prop) l l' a :
  Forall2 R l l' -> In a l -> exists b, In b l' /\ R a b.
Proof.
  induction 1 as [|x y l l' Hxy _ IH]; intro H; [destruct H|].
  destruct H as [-> | H].
  - exists y. split; [left; reflexivity | exact Hxy].
  - destruct (IH H) as (b & Hb & Rb). exists b. split; [right|]; assumption.
Qed.

Lemma Forall2_In_r {A B : Type} (R : A -> B -> Prop) l l' b :
  Forall2 R l l' -> In b l' -> exists a, In a l /\ R a b.
Proof.
  induction 1 as [|x y l l' Hxy _ IH]; intro H; [destruct H|].
  destruct H as [-> | H].
  - exists x. split; [left; reflexivity | exact Hxy].
  - destruct (IH H) as (a & Ha & Ra). exists a. split; [right|]; assumption.
Qed.

Lemma Forall2_with_In {A B : Type} (R : A -> B -> Prop) l l' :
  Forall2 R l l' ->
  Forall2 (fun a b => R a b /\ In a l /\ In b l') l l'.
Proof.
  induction 1 as [|x y l l' Hxy _ IH]; constructor.
  - split; [exact Hxy|]. split; left; reflexivity.
  - eapply Forall2_impl; [|exact IH]. intros a b (H1 & H2 & H3).
    split; [exact H1|]. split; right; assumption.
Qed.

Lemma sum_flips (c : PipePair.t -> Z) l l' :
  Forall2 (fun q q' =>
             c q' = if PipePair.scored q' && negb (PipePair.scored q)
                    then 1%Z else 0%Z) l l' ->
  fold_right Z.add 0%Z (map c l') = flips l l'.
Proof.
  induction 1 as [|q q' l l' Hq _ IH]; cbn [map fold_right flips];
    [reflexivity|].
  rewrite Hq, IH. reflexivity.
Qed.

(** ** What a step does to the obstacle list *)

Lemma maybe_spawn_pipes dt u s :
  (current_pipe_gap s <= 500)%Z ->
  exists s2, maybe_spawn dt u s = Some s2 /\
    score s2 = score s /\ bird s2 = bird s /\
    ((pipes s2 = pipes s /\ next_pid s2 = next_pid s) \/
     (exists p, pipes s2 = pipes s ++ [p] /\
                PipePair.pid p = next_pid s /\ PipePair.scored p = false /\
                next_pid s2 = S (next_pid s))).
Proof.
  intro H. unfold maybe_spawn.
  set (s1 := set_time_since_last_spawn (_time_since_last_spawn s + dt) s).
  destruct (Qleb (current_spawn_interval s1) (_time_since_last_spawn s1)).
  - destruct (spawn_pipe_some u s1 H) as (gy & _ & E). rewrite E.
    eexists. split; [reflexivity|]. split; [reflexivity|].
    split; [reflexivity|]. right. eexists. repeat split.
  - exists s1. split; [reflexivity|]. split; [reflexivity|].
    split; [reflexivity|]. left. split; reflexivity.
Qed.

Lemma update_pipes f s s' :
  wf s -> _update f s = Some s' -> same_pipes s s' \/ ticked s s'.
Proof.
  intros [G _] H.
  destruct (running s) eqn:Hr; [destruct (game_over s) eqn:Hg|].
  - unfold _update in H. rewrite Hr, Hg in H. inversion H.
    left. repeat split.
  - rewrite (update_unfold f s Hr Hg) in H. cbv zeta in H.
    set (dt := frame_dt f) in *. set (s1 := after_physics dt s) in *.
    destruct (after_physics_fields dt s) as (Ex & Ep & En & Es & _).
    fold s1 in Ex, Ep, En, Es.
    pose proof (geom_after_physics dt s G) as G1. fold s1 in G1.
    destruct (Qleb (Bird.y (bird s1)) 0);
      [|destruct (Qleb (inject_Z WINDOW_HEIGHT) (Bird.top (bird s1)))].
    + inversion H. left. repeat split; assumption.
    + inversion H. left. repeat split; assumption.
    + assert (Hgap : (current_pipe_gap (advanced dt s1) <= 500)%Z).
      { unfold advanced. cbn [set_pipes current_pipe_gap]. destruct G1. lia. }
      destruct (maybe_spawn_pipes dt (frame_rand f) _ Hgap)
        as (s2 & E2 & Sc2 & B2 & N2).
      rewrite E2 in H. cbn [bind] in H.
      assert (H3 : exists s3,
        (if autoplay s2 then _autoflap_logic (frame_now f) s2 else Some s2)
        = Some s3 /\ pipes s3 = pipes s2 /\ score s3 = score s2 /\
        next_pid s3 = next_pid s2 /\ Bird.x (bird s3) = Bird.x (bird s2)).
      { destruct (autoplay s2).
        - destruct (autoflap_frame (frame_now f) s2) as (s3 & E3 & _).
          exists s3. split; [exact E3|].
          destruct (autoflap_fields _ _ _ E3)
            as (A1 & A2 & _ & A3 & A4 & _). tauto.
        - exists s2. repeat split. }
      destruct H3 as (s3 & E3 & P3 & Sc3 & N3 & X3).
      rewrite E3 in H. cbn [bind] in H. inversion H. clear H.
      destruct (collide_and_score_fields s3) as (M & _ & Nc & _ & Sc).
      right. exists (- current_pipe_speed s1 * dt).
      unfold advanced in N2, Sc2, B2.
      cbn [set_pipes pipes next_pid score bird] in N2, Sc2, B2.
      rewrite Ep, En in N2.
      destruct N2 as [[Pn Nn] | (p & Pn & Ip & Sp & Nn)].
      * exists []. rewrite app_nil_r. split; [|split].
        -- left. split; [reflexivity|]. rewrite Nc, N3. exact Nn.
        -- rewrite <- Pn, <- P3, <- Ex, <- B2, <- X3. exact M.
        -- rewrite Sc, Sc3, Sc2, Es, P3, Pn. reflexivity.
      * exists [p]. split; [|split].
        -- right. exists p. repeat split; try assumption.
           rewrite Nc, N3. exact Nn.
        -- rewrite <- Pn, <- P3, <- Ex, <- B2, <- X3. exact M.
        -- rewrite Sc, Sc3, Sc2, Es, P3, Pn. reflexivity.
  - unfold _update in H. rewrite Hr in H. inversion H.
    left. repeat split.
Qed.

Lemma step_pipes i s s' :
  wf s -> in_run i = true -> started s = true ->
  step i s = Some s' ->
  (same_pipes s s' \/ ticked s s') /\ started s' = true.
Proof.
  intros W Hi Hs H. unfold started in Hs.
  destruct i as [f | now u0 u1 | u0 u1 | u0 u1]; cbn [step] in H;
    [| | |discriminate Hi].
  - split; [apply (update_pipes f); assumption|].
    destruct (running s) eqn:Hr; [destruct (game_over s) eqn:Hg|].
    + unfold _update in H. rewrite Hr, Hg in H. inversion H; subst s'.
      unfold started. rewrite Hr. reflexivity.
    + destruct (update_wf f s W) as (s'' & E & _). clear E.
      rewrite (update_unfold f s Hr Hg) in H. cbv zeta in H.
      destruct (after_physics_fields (frame_dt f) s)
        as (_ & _ & _ & _ & R1 & _).
      destruct (Qleb _ 0);
        [|destruct (Qleb (inject_Z WINDOW_HEIGHT) _)];
        try (inversion H; reflexivity).
      destruct (maybe_spawn _ _ _) as [s2|] eqn:E2; [|discriminate H].
      cbn [bind] in H.
      destruct (if autoplay s2 then _ else _) as [s3|] eqn:E3;
        [|discriminate H].
      cbn [bind] in H. inversion H.
      assert (R3 : running s3 = true).
      { assert (R2 : running s2 = true).
        { destruct (maybe_spawn_geom (frame_dt f) (frame_rand f)
                      (advanced (frame_dt f) (after_physics (frame_dt f) s)))
            as (s2' & E2' & _ & _ & _ & Rr & _).
          - apply geom_advance. apply geom_after_physics. apply W.
          - rewrite E2 in E2'. inversion E2'; subst s2'. rewrite Rr.
            unfold advanced. cbn [set_pipes running]. rewrite R1. exact Hr. }
        destruct (autoplay s2).
        - destruct (autoflap_fields _ _ _ E3)
            as (_ & _ & _ & _ & _ & A & _). rewrite A. exact R2.
        - inversion E3; subst s3. exact R2. }
      unfold started, collide_and_score.
      destruct (check_pipes _ _ _) as [[ps sc] hit].
      destruct hit; cbn; rewrite ?R3; reflexivity.
    + unfold _update in H. rewrite Hr in H. inversion H; subst s'.
      unfold started. rewrite Hr. exact Hs.
  - destruct (running s) eqn:Hr.
    + cbn in H. inversion H. split.
      * left. destruct (flap_frame now s) as (v & t & ->). repeat split.
      * unfold started. destruct (flap_frame now s) as (v & t & ->).
        cbn. rewrite Hr. reflexivity.
    + cbn in Hs. rewrite Hs in H. cbn in H. inversion H; subst s'. split.
      * left. repeat split.
      * unfold started. rewrite Hr. exact Hs.
  - assert (E : autoplay (set_autoplay (negb (autoplay s)) s)
                && negb (running (set_autoplay (negb (autoplay s)) s))
                && negb (game_over (set_autoplay (negb (autoplay s)) s))
                = false).
    { cbn [set_autoplay autoplay running game_over].
      destruct (running s); [apply andb_false_iff; left; apply andb_false_r|].
      cbn in Hs. rewrite Hs. apply andb_false_r. }
    rewrite E in H. inversion H. split.
    + left. repeat split.
    + exact Hs.
Qed.

(** ** One step, one obstacle *)

Lemma ticked_origin s s' q' :
  ticked s s' -> In q' (pipes s') ->
  exists q, marked (Bird.x (bird s)) q q' /\ origin s q.
Proof.
  intros (dx & new & Hnew & M & _) Hq'.
  destruct (Forall2_In_r _ _ _ _ M Hq') as (q & Hq & Mq).
  exists q. split; [exact Mq|].
  apply in_app_or in Hq. destruct Hq as [Hq | Hq].
  - destruct (advance_pipes_In _ _ _ Hq) as (p & Hp & -> & _).
    left. exists p, dx. split; [exact Hp | reflexivity].
  - destruct Hnew as [[-> _] | (p & -> & Ip & Sp & _)]; [destruct Hq|].
    destruct Hq as [<- | []]. right. split; assumption.
Qed.

Lemma ticked_next_pid s s' :
  ticked s s' -> (next_pid s <= next_pid s')%nat.
Proof.
  intros (dx & new & [[_ E] | (p & _ & _ & _ & E)] & _); rewrite E.
  - apply Nat.le_refl.
  - apply Nat.le_succ_diag_r.
Qed.

Lemma origin_flag s q :
  wf s -> origin s q -> flag_in (PipePair.pid q) (pipes s) = PipePair.scored q.
Proof.
  intros [G _] [(p & dx & Hp & ->) | [Ip Sp]].
  - cbn [PipePair.move PipePair.set_x PipePair.pid PipePair.scored].
    apply flag_in_member; [apply G | exact Hp].
  - rewrite Sp. destruct (flag_in _ _) eqn:F; [|reflexivity].
    apply flag_in_iff in F. destruct F as (p & Hp & Ep & _).
    pose proof (g_fresh s G) as Fr. rewrite Forall_forall in Fr.
    pose proof (Fr p Hp) as L. rewrite Ep, Ip in L.
    exfalso. apply (Nat.lt_irrefl _ L).
Qed.

Lemma origin_present s q :
  origin s q ->
  present_in (PipePair.pid q) (pipes s) = true \/
  PipePair.pid q = next_pid s.
Proof.
  intros [(p & dx & Hp & ->) | [Ip _]]; [left | right; exact Ip].
  apply present_in_iff. exists p. split; [exact Hp | reflexivity].
Qed.

(** The score of a step is the sum of the credits of the obstacles left
    in the list. *)
Lemma step_accounting s s' :
  wf s -> wf s' -> same_pipes s s' \/ ticked s s' ->
  score s' = (score s + credits s s')%Z.
Proof.
  intros W W' [(Ep & Es & _) | T].
  - rewrite Es. unfold credits.
    assert (Z0 : forall l, fold_right Z.add 0%Z
                   (map (fun p => credit (PipePair.pid p) s s') l) = 0%Z).
    { induction l as [|a l IH]; cbn [map fold_right]; [reflexivity|].
      rewrite IH. unfold credit, flag. rewrite Ep.
      destruct (flag_in _ _); reflexivity. }
    rewrite Z0. lia.
  - pose proof T as (dx & new & Hnew & M & Sc). rewrite Sc. f_equal.
    unfold credits. symmetry. apply sum_flips.
    eapply Forall2_impl; [|apply (Forall2_with_In _ _ _ M)].
    intros q q' (Mq & Hq & Hq'). cbv beta.
    destruct (ticked_origin s s' q' T Hq') as (q0 & Mq0 & O0).
    destruct (marked_fields _ _ _ Mq) as (Ipq & _).
    destruct (marked_fields _ _ _ Mq0) as (Ipq0 & _ & _ & _ & _).
    assert (O : origin s q).
    { apply in_app_or in Hq. destruct Hq as [Hq | Hq].
      - destruct (advance_pipes_In _ _ _ Hq) as (p & Hp & -> & _).
        left. exists p, dx. split; [exact Hp | reflexivity].
      - destruct Hnew as [[-> _] | (p & -> & Ip & Sp & _)]; [destruct Hq|].
        destruct Hq as [<- | []]. right. split; assumption. }
    unfold credit, flag.
    rewrite (flag_in_member (pipes s') q' (g_apart s' (proj1 W')) Hq').
    rewrite Ipq, (origin_flag s q W O). reflexivity.
Qed.

Lemma step_flag_kept id s s' :
  wf s -> wf s' -> same_pipes s s' \/ ticked s s' ->
  flag id s = true -> present id s' = true -> flag id s' = true.
Proof.
  intros W W' [(Ep & _) | T] F P.
  - unfold flag. rewrite Ep. exact F.
  - apply present_in_iff in P. destruct P as (q' & Hq' & Iq').
    destruct (ticked_origin s s' q' T Hq') as (q & Mq & O).
    destruct (marked_fields _ _ _ Mq) as (Ipq & _ & _ & _ & Keep).
    apply flag_in_iff. exists q'. split; [exact Hq'|]. split; [exact Iq'|].
    apply Keep. rewrite <- (origin_flag s q W O), <- Ipq, Iq'. exact F.
Qed.

Lemma step_absent_kept id s s' :
  wf s -> same_pipes s s' \/ ticked s s' ->
  present id s = false -> (id < next_pid s)%nat ->
  present id s' = false /\ (id < next_pid s')%nat.
Proof.
  intros W [(Ep & _ & En) | T] P L.
  - unfold present. rewrite Ep, En. split; assumption.
  - split; [|eapply Nat.lt_le_trans; [exact L | apply ticked_next_pid; exact T]].
    destruct (present id s') eqn:P'; [|reflexivity].
    apply present_in_iff in P'. destruct P' as (q' & Hq' & Iq').
    destruct (ticked_origin s s' q' T Hq') as (q & Mq & O).
    destruct (marked_fields _ _ _ Mq) as (Ipq & _).
    destruct (origin_present s q O) as [Pq | Nq].
    + rewrite <- Ipq, Iq' in Pq. unfold present in P. congruence.
    + rewrite <- Ipq, Iq' in Nq. rewrite Nq in L.
      exfalso. apply (Nat.lt_irrefl _ L).
Qed.

Lemma step_present_origin id s s' :
  same_pipes s s' \/ ticked s s' ->
  present id s' = true -> present id s = true \/ (next_pid s <= id)%nat.
Proof.
  intros [(Ep & _) | T] P.
  - left. unfold present in *. rewrite <- Ep. exact P.
  - apply present_in_iff in P. destruct P as (q' & Hq' & Iq').
    destruct (ticked_origin s s' q' T Hq') as (q & Mq & O).
    destruct (marked_fields _ _ _ Mq) as (Ipq & _).
    destruct (origin_present s q O) as [Pq | Nq].
    + left. rewrite <- Ipq, Iq' in Pq. exact Pq.
    + right. rewrite <- Ipq, Iq' in Nq. rewrite Nq. apply Nat.le_refl.
Qed.

Lemma flag_allocated id s :
  wf s -> present id s = true -> (id < next_pid s)%nat.
Proof.
  intros [G _] P. apply present_in_iff in P. destruct P as (p & Hp & <-).
  pose proof (g_fresh s G) as Fr. rewrite Forall_forall in Fr.
  apply Fr. exact Hp.
Qed.

Lemma step_next_pid s s' :
  same_pipes s s' \/ ticked s s' -> (next_pid s <= next_pid s')%nat.
Proof.
  intros [(_ & _ & ->) | T]; [apply Nat.le_refl | apply ticked_next_pid; exact T].
Qed.

(** A step pays the credit of an obstacle out of what remained for it. *)
Lemma step_potential id s s' :
  wf s -> wf s' -> same_pipes s s' \/ ticked s s' ->
  (0 <= credit id s s')%Z /\
  (credit id s s' + remaining id s' <= remaining id s)%Z.
Proof.
  intros W W' T.
  pose proof (flag_in_present id (pipes s')) as F1.
  pose proof (flag_in_present id (pipes s)) as F2.
  pose proof (flag_allocated id s' W') as A1.
  pose proof (flag_allocated id s W) as A2.
  pose proof (step_present_origin id s s' T) as O.
  pose proof (step_flag_kept id s s' W W' T) as K.
  pose proof (step_next_pid s s' T) as N.
  clear W W' T.
  unfold credit, remaining, flag, present in *.
  assert (Tt : true = true) by reflexivity.
  destruct (flag_in id (pipes s')), (flag_in id (pipes s)),
    (present_in id (pipes s')), (present_in id (pipes s));
    destruct (next_pid s' <=? id)%nat eqn:n';
    destruct (next_pid s <=? id)%nat eqn:n;
    rewrite ?Nat.leb_le, ?Nat.leb_gt in *; cbn;
    try (split; lia); exfalso;
    repeat match goal with
           | H : true = true -> _ |- _ => specialize (H Tt)
           end;
    try discriminate; intuition (try discriminate; try lia).
Qed.

Lemma step_credit_flag id s s' :
  wf s -> wf s' -> same_pipes s s' \/ ticked s s' ->
  present id s' = true ->
  credit id s s' = (flagZ id s' - flagZ id s)%Z.
Proof.
  intros W W' T P. pose proof (step_flag_kept id s s' W W' T) as K.
  unfold credit, flagZ in *.
  destruct (flag id s'), (flag id s); cbn; try reflexivity.
  specialize (K eq_refl P). discriminate K.
Qed.

(** ** A whole run, one obstacle *)

Lemma run_credit_bound id ins : forall s,
  wf s -> started s = true -> forallb in_run ins = true ->
  (0 <= total_credit id ins s <= remaining id s)%Z.
Proof.
  induction ins as [|i ins IH]; intros s W St Hin; cbn [total_credit].
  - unfold remaining. destruct (_ || _); lia.
  - cbn [forallb] in Hin. apply andb_true_iff in Hin. destruct Hin as [Hi Hin].
    destruct (step_wf i s W) as (s1 & E & W1). rewrite E.
    destruct (step_pipes i s s1 W Hi St E) as [T St1].
    destruct (step_potential id s s1 W W1 T) as [C0 C1].
    specialize (IH s1 W1 St1 Hin). lia.
Qed.

Lemma run_absent id ins : forall s sf,
  wf s -> started s = true -> forallb in_run ins = true ->
  present id s = false -> (id < next_pid s)%nat ->
  run ins s = Some sf -> present id sf = false.
Proof.
  induction ins as [|i ins IH]; intros s sf W St Hin P L R; cbn [run] in R.
  - inversion R; subst sf. exact P.
  - cbn [forallb] in Hin. apply andb_true_iff in Hin. destruct Hin as [Hi Hin].
    destruct (step_wf i s W) as (s1 & E & W1). rewrite E in R. cbn [bind] in R.
    destruct (step_pipes i s s1 W Hi St E) as [T St1].
    destruct (step_absent_kept id s s1 W T P L) as [P1 L1].
    apply (IH s1 sf W1 St1 Hin P1 L1 R).
Qed.

Lemma run_credit_flag id ins : forall s sf,
  wf s -> started s = true -> forallb in_run ins = true ->
  run ins s = Some sf -> present id sf = true ->
  total_credit id ins s = (flagZ id sf - flagZ id s)%Z.
Proof.
  induction ins as [|i ins IH]; intros s sf W St Hin R P;
    cbn [run] in R; cbn [total_credit].
  - inversion R; subst sf. lia.
  - cbn [forallb] in Hin. apply andb_true_iff in Hin. destruct Hin as [Hi Hin].
    destruct (step_wf i s W) as (s1 & E & W1). rewrite E in *. cbn [bind] in R.
    destruct (step_pipes i s s1 W Hi St E) as [T St1].
    rewrite (IH s1 sf W1 St1 Hin R P).
    destruct (present id s1) eqn:P1.
    + rewrite (step_credit_flag id s s1 W W1 T P1). lia.
    + assert (F1 : flag id s1 = false).
      { destruct (flag id s1) eqn:F; [|reflexivity].
        apply flag_in_present in F. unfold present in P1. congruence. }
      assert (F0 : flag id s = false).
      { destruct (flag id s) eqn:F; [|reflexivity]. exfalso.
        pose proof (flag_in_present _ _ F) as P0.
        pose proof (flag_allocated id s W P0) as L0.
        pose proof (step_next_pid s s1 T) as N.
        assert (L1 : (id < next_pid s1)%nat)
          by (eapply Nat.lt_le_trans; eassumption).
        pose proof (run_absent id ins s1 sf W1 St1 Hin P1 L1 R) as Pf.
        congruence. }
      unfold credit, flagZ. rewrite F1, F0. cbn. lia.
Qed.

Lemma run_accounting ins : forall s sf,
  wf s -> started s = true -> forallb in_run ins = true ->
  run ins s = Some sf -> score sf = (score s + run_credits ins s)%Z.
Proof.
  induction ins as [|i ins IH]; intros s sf W St Hin R;
    cbn [run] in R; cbn [run_credits].
  - inversion R; subst sf. lia.
  - cbn [forallb] in Hin. apply andb_true_iff in Hin. destruct Hin as [Hi Hin].
    destruct (step_wf i s W) as (s1 & E & W1). rewrite E in *. cbn [bind] in R.
    destruct (step_pipes i s s1 W Hi St E) as [T St1].
    rewrite (IH s1 sf W1 St1 Hin R), (step_accounting s s1 W W1 T). lia.
Qed.

Lemma advance_pipes_keeps dx ps p :
  In p ps -> -50 <= PipePair.right p + dx ->
  In (PipePair.move dx p) (advance_pipes dx ps).
Proof.
  intros Hp Hl. induction ps as [|a ps IH]; [destruct Hp|].
  cbn [advance_pipes].
  destruct Hp as [-> | Hp].
  - assert (E : Qltb (PipePair.right (PipePair.move dx p)) (-50) = false).
    { apply Qltb_false. unfold PipePair.right in *.
      cbn [PipePair.move PipePair.set_x PipePair.x PipePair.width_pipe]. lra. }
    rewrite E. left. reflexivity.
  - destruct (Qltb (PipePair.right (PipePair.move dx a)) (-50));
      [|right]; apply IH; exact Hp.
Qed.

(** The tick in which an unscored obstacle gets past the agent, and is
    not thrown past the culling line by the same frame, pays its credit. *)
Lemma first_passage_credit f s s1 p :
  wf s -> running s = true -> game_over s = false ->
  In p (pipes s) -> PipePair.scored p = false ->
  let g := after_physics (frame_dt f) s in
  let dx := - current_pipe_speed g * frame_dt f in
  0 < Bird.y (bird g) -> Bird.top (bird g) < inject_Z WINDOW_HEIGHT ->
  -50 <= PipePair.right p + dx -> PipePair.right p + dx < Bird.x (bird s) ->
  _update f s = Some s1 -> credit (PipePair.pid p) s s1 = 1%Z.
Proof.
  intros W Hr Hg Hp Sp g dx Hy Ht Hl Hpass U.
  destruct (update_past_bounds f s W Hr Hg Hy Ht) as (s2 & s3 & E2 & E3 & EU).
  fold g in E2. rewrite U in EU. inversion EU; subst s1. clear EU.
  destruct (after_physics_fields (frame_dt f) s) as (Ex & Ep & _).
  fold g in Ex, Ep.
  pose proof (geom_after_physics (frame_dt f) s (proj1 W)) as G1. fold g in G1.
  assert (G2 : geom (advanced (frame_dt f) g))
    by (apply geom_advance; exact G1).
  destruct (maybe_spawn_geom (frame_dt f) (frame_rand f) _ G2)
    as (s2' & E2' & G3 & B2 & _).
  rewrite E2 in E2'. inversion E2'; subst s2'. clear E2'.
  destruct (maybe_spawn_pipes (frame_dt f) (frame_rand f)
              (advanced (frame_dt f) g)) as (s2' & E2' & _ & _ & N2).
  { destruct G2. lia. }
  rewrite E2 in E2'. inversion E2'; subst s2'. clear E2'.
  assert (F3 : pipes s3 = pipes s2 /\ Bird.x (bird s3) = Bird.x (bird s2) /\
               geom s3).
  { destruct (autoplay s2).
    - destruct (autoflap_fields _ _ _ E3)
        as (A1 & A2 & _ & A3 & _ & _ & _ & _ & A4 & A5).
      split; [exact A1|]. split; [exact A2|].
      eapply geom_ext; [..|exact G3]; assumption.
    - inversion E3; subst s3. tauto. }
  destruct F3 as (P3 & X3 & G4).
  assert (Hin : In (PipePair.move dx p) (pipes s3)).
  { rewrite P3. unfold advanced in N2. cbn [set_pipes pipes] in N2.
    rewrite Ep in N2.
    destruct N2 as [[-> _] | (q & -> & _)]; [|apply in_or_app; left];
      apply advance_pipes_keeps; assumption. }
  destruct (collide_and_score_fields s3) as (M & _ & _ & Bc & _).
  destruct (Forall2_In_l _ _ _ _ M Hin) as (p' & Hp' & Mp).
  destruct (marked_fields _ _ _ Mp) as (Ip & _ & _ & Rp & _).
  destruct (collide_and_score_wf s3 G4) as [Gc Pc].
  rewrite Forall_forall in Pc.
  assert (Hlt : PipePair.right (PipePair.move dx p) < Bird.x (bird s)).
  { clear - Hpass. clearbody dx. unfold PipePair.right in *.
    cbn [PipePair.move PipePair.set_x PipePair.x PipePair.width_pipe]. lra. }
  assert (Sc : PipePair.scored p' = true).
  { apply (Pc p' Hp'). rewrite Rp, Bc, X3, B2. unfold advanced.
    cbn [set_pipes bird]. rewrite Ex. exact Hlt. }
  unfold credit, flag.
  assert (F1 : flag_in (PipePair.pid p) (pipes (collide_and_score s3)) = true).
  { apply flag_in_iff. exists p'. split; [exact Hp'|]. split; [exact Ip | exact Sc]. }
  rewrite F1, (flag_in_member (pipes s) p (g_apart s (proj1 W)) Hp), Sp.
  reflexivity.
Qed.

(** What a tick past the bounds checks does to one obstacle of the list:
    whatever carries its identity afterwards is its moved copy, flag set or
    not, and the copy is there unless the move took it past the culling
    line. *)
Lemma tick_obstacle_fate f s s1 p :
  wf s -> running s = true -> game_over s = false ->
  In p (pipes s) ->
  let g := after_physics (frame_dt f) s in
  let dx := - current_pipe_speed g * frame_dt f in
  0 < Bird.y (bird g) -> Bird.top (bird g) < inject_Z WINDOW_HEIGHT ->
  _update f s = Some s1 ->
  Bird.x (bird s1) = Bird.x (bird s) /\
  (forall p', In p' (pipes s1) -> PipePair.pid p' = PipePair.pid p ->
     marked (Bird.x (bird s)) (PipePair.move dx p) p' /\
     -50 <= PipePair.right p + dx) /\
  (-50 <= PipePair.right p + dx ->
   exists p', In p' (pipes s1) /\
              marked (Bird.x (bird s)) (PipePair.move dx p) p').
Proof.
  intros W Hr Hg Hp g dx Hy Ht U. unfold g in Hy, Ht.
  destruct (update_shape f s s1 Hr Hg U)
    as [(Y & _) | [(_ & T & _) | (_ & _ & s2 & s3 & E2 & E3 & ->)]];
    [lra | lra |].
  destruct (after_physics_fields (frame_dt f) s) as (Ex & Ep & En & _).
  fold g in Ex, Ep, En.
  destruct (tick_states f s s2 s3 Hr Hg E2 E3)
    as (_ & _ & _ & X3 & _ & P3 & _).
  destruct (collide_and_score_fields s3) as (M & _ & _ & Bc & _).
  rewrite X3 in M.
  assert (Hmove : forall q, PipePair.right (PipePair.move dx q)
                            == PipePair.right q + dx).
  { intro q. unfold PipePair.right.
    cbn [PipePair.move PipePair.set_x PipePair.x PipePair.width_pipe]. ring. }
  split; [rewrite Bc; exact X3|]. split.
  - intros p' Hp' Ip'.
    destruct (Forall2_In_r _ _ _ _ M Hp') as (q & Hq & Mq).
    destruct (marked_fields _ _ _ Mq) as (Iq & _).
    rewrite P3 in Hq.
    assert (Hq' : In q (advance_pipes dx (pipes s))).
    { destruct (maybe_spawn_fields _ _ _ _ E2)
        as (_ & _ & _ & _ & _ & _ & _ & [Es | (gy & _ & Es)]);
        rewrite Es in Hq; unfold advanced in Hq; cbn [set_pipes pipes] in Hq;
        fold g in Hq; fold dx in Hq; rewrite Ep in Hq; [exact Hq|].
      apply in_app_or in Hq. destruct Hq as [Hq | [<- | []]]; [exact Hq|].
      exfalso. cbn [PipePair.init PipePair.pid set_pipes next_pid] in Iq.
      pose proof (g_fresh s (proj1 W)) as Fr. rewrite Forall_forall in Fr.
      pose proof (Fr p Hp) as L. rewrite <- Ip', Iq, En in L.
      apply (Nat.lt_irrefl _ L). }
    destruct (advance_pipes_In _ _ _ Hq') as (p0 & Hp0 & -> & Hl).
    assert (E0 : p0 = p).
    { apply (apart_unique (pipes s)); try assumption;
        [apply (g_apart s (proj1 W))|].
      rewrite <- Ip', Iq. reflexivity. }
    subst p0. split; [exact Mq|]. rewrite <- Hmove. exact Hl.
  - intro Hl.
    assert (K : In (PipePair.move dx p) (pipes s3)).
    { rewrite P3.
      destruct (maybe_spawn_fields _ _ _ _ E2)
        as (_ & _ & _ & _ & _ & _ & _ & [-> | (gy & _ & ->)]);
        unfold advanced; cbn [set_pipes pipes]; fold g; fold dx; rewrite Ep;
        [|apply in_or_app; left]; apply advance_pipes_keeps; assumption. }
    destruct (Forall2_In_l _ _ _ _ M K) as (p' & Hp' & Mp).
    exists p'. split; assumption.
Qed.

(** The tick that leaves an unscored obstacle with its trailing edge at or
    ahead of the agent pays nothing on its account. *)
Lemma no_credit_before_passage f s s1 p :
  wf s -> running s = true -> game_over s = false ->
  In p (pipes s) -> PipePair.scored p = false ->
  let g := after_physics (frame_dt f) s in
  let dx := - current_pipe_speed g * frame_dt f in
  0 < Bird.y (bird g) -> Bird.top (bird g) < inject_Z WINDOW_HEIGHT ->
  Bird.x (bird s) <= PipePair.right p + dx ->
  _update f s = Some s1 -> credit (PipePair.pid p) s s1 = 0%Z.
Proof.
  intros W Hr Hg Hp Sp g dx Hy Ht Hpass U.
  destruct (tick_obstacle_fate f s s1 p W Hr Hg Hp Hy Ht U) as (_ & Fate & _).
  fold g in Fate. fold dx in Fate.
  unfold credit.
  destruct (flag (PipePair.pid p) s1) eqn:F; [|reflexivity]. exfalso.
  apply flag_in_iff in F. destruct F as (p' & Hp' & Ip' & Sp').
  destruct (Fate p' Hp' Ip') as [[-> | (_ & Hlt & _)] _].
  - cbn [PipePair.move PipePair.set_x PipePair.scored] in Sp'. congruence.
  - unfold PipePair.right in *.
    cbn [PipePair.move PipePair.set_x PipePair.x PipePair.width_pipe] in Hlt.
    clear - Hlt Hpass. clearbody dx. lra.
Qed.

(** An unscored obstacle that a frame throws from before the agent past
    the culling line is removed before the closing loop sees it: it pays
    nothing in that tick, and nothing afterwards. *)
Lemma thrown_past_culling_line f rest s p :
  wf s -> running s = true -> game_over s = false ->
  In p (pipes s) -> PipePair.scored p = false ->
  let g := after_physics (frame_dt f) s in
  let dx := - current_pipe_speed g * frame_dt f in
  0 < Bird.y (bird g) -> Bird.top (bird g) < inject_Z WINDOW_HEIGHT ->
  PipePair.right p + dx < -50 ->
  forallb in_run rest = true ->
  total_credit (PipePair.pid p) (Tick f :: rest) s = 0%Z.
Proof.
  intros W Hr Hg Hp Sp g dx Hy Ht Hcull Hin.
  assert (St : started s = true) by (unfold started; rewrite Hr; reflexivity).
  destruct (step_wf (Tick f) s W) as (s1 & E & W1).
  destruct (step_pipes (Tick f) s s1 W eq_refl St E) as [T St1].
  cbn [total_credit]. rewrite E. cbn [step] in E.
  destruct (tick_obstacle_fate f s s1 p W Hr Hg Hp Hy Ht E) as (_ & Fate & _).
  fold g in Fate. fold dx in Fate.
  assert (P1 : present (PipePair.pid p) s1 = false).
  { destruct (present (PipePair.pid p) s1) eqn:P; [|reflexivity]. exfalso.
    apply present_in_iff in P. destruct P as (p' & Hp' & Ip').
    destruct (Fate p' Hp' Ip') as [_ Hl]. clear - Hl Hcull. clearbody dx. lra. }
  assert (F1 : flag (PipePair.pid p) s1 = false).
  { destruct (flag (PipePair.pid p) s1) eqn:F; [|reflexivity].
    apply flag_in_present in F. unfold present in P1. congruence. }
  assert (L1 : (PipePair.pid p < next_pid s1)%nat).
  { eapply Nat.lt_le_trans; [|apply (step_next_pid s s1 T)].
    pose proof (g_fresh s (proj1 W)) as Fr. rewrite Forall_forall in Fr.
    apply Fr. exact Hp. }
  pose proof (run_credit_bound (PipePair.pid p) rest s1 W1 St1 Hin) as B.
  assert (R0 : remaining (PipePair.pid p) s1 = 0%Z).
  { unfold remaining. rewrite P1. cbn [andb orb].
    apply Nat.leb_gt in L1. rewrite L1. reflexivity. }
  unfold credit. rewrite F1. cbn [andb]. lia.
Qed.

Lemma step_keeps_pipes i s s1 :
  wf s -> started s = true -> in_run i = true -> is_tick i = false ->
  step i s = Some s1 -> pipes s1 = pipes s.
Proof.
  intros W St Hi Ht H. unfold started in St.
  destruct i as [f | now u0 u1 | u0 u1 | u0 u1]; cbn [step is_tick] in *;
    [discriminate Ht | | | discriminate Hi].
  - destruct (running s) eqn:Hr.
    + cbn in H. inversion H. destruct (flap_frame now s) as (v & t & ->).
      reflexivity.
    + cbn in St. rewrite St in H. cbn in H. inversion H. reflexivity.
  - cbn [set_autoplay autoplay running game_over] in H.
    assert (E : negb (autoplay s) && negb (running s) && negb (game_over s)
                = false).
    { destruct (running s); [apply andb_false_iff; left; apply andb_false_r|].
      cbn in St. rewrite St. apply andb_false_r. }
    rewrite E in H. inversion H. reflexivity.
Qed.

(** A credit is paid by a tick only, on an obstacle that was not behind
    the agent before the tick and is behind it at its end. *)
Lemma credit_only_at_passage id i s s1 :
  wf s -> started s = true -> in_run i = true -> step i s = Some s1 ->
  credit id s s1 = 1%Z ->
  (exists f, i = Tick f) /\
  (forall p, In p (pipes s) -> PipePair.pid p = id ->
     PipePair.scored p = false /\ Bird.x (bird s) <= PipePair.right p) /\
  exists p', In p' (pipes s1) /\ PipePair.pid p' = id /\
             PipePair.scored p' = true /\
             PipePair.right p' < Bird.x (bird s1).
Proof.
  intros W St Hi H C. unfold credit in C.
  destruct (flag id s1) eqn:F1; [|discriminate C].
  destruct (flag id s) eqn:F0; [discriminate C|]. clear C.
  assert (Hbefore : forall p, In p (pipes s) -> PipePair.pid p = id ->
            PipePair.scored p = false /\ Bird.x (bird s) <= PipePair.right p).
  { intros p Hp Ip.
    assert (Sp : PipePair.scored p = false).
    { destruct (PipePair.scored p) eqn:Sp; [|reflexivity].
      assert (F : flag id s = true) by (apply flag_in_iff; exists p; tauto).
      congruence. }
    split; [exact Sp|]. destruct W as [_ P]. rewrite Forall_forall in P.
    apply Qnot_lt_le. intro Hlt. rewrite (P p Hp Hlt) in Sp. discriminate Sp. }
  destruct (is_tick i) eqn:Ti.
  - destruct i as [f | | | ]; try discriminate Ti. cbn [step] in H.
    split; [exists f; reflexivity|]. split; [exact Hbefore|].
    destruct (running s) eqn:Hr; [destruct (game_over s) eqn:Hg|];
      [unfold _update in H; rewrite Hr, Hg in H; inversion H; subst s1;
       congruence
      | | unfold _update in H; rewrite Hr in H; inversion H; subst s1;
          congruence].
    destruct (after_physics_fields (frame_dt f) s) as (Ex & Ep & En & _).
    destruct (update_shape f s s1 Hr Hg H)
      as [(_ & ->) | [(_ & _ & ->) | (_ & _ & s2 & s3 & E2 & E3 & ->)]];
      try (unfold flag in F1; cbn [end_game set_phase set_bird pipes] in F1;
           rewrite Ep in F1; unfold flag in F0; congruence).
    destruct (tick_states f s s2 s3 Hr Hg E2 E3)
      as (_ & _ & _ & X3 & _ & P3 & _).
    destruct (collide_and_score_fields s3) as (M & _ & _ & Bc & _).
    apply flag_in_iff in F1. destruct F1 as (p' & Hp' & Ip' & Sp').
    exists p'. split; [exact Hp'|]. split; [exact Ip'|]. split; [exact Sp'|].
    destruct (Forall2_In_r _ _ _ _ M Hp') as (q & Hq & Mq).
    destruct (marked_fields _ _ _ Mq) as (Iq & _ & _ & Rq & _).
    rewrite Bc, Rq.
    destruct Mq as [-> | (_ & Hlt & _)]; [|exact Hlt].
    exfalso. rewrite P3 in Hq.
    destruct (maybe_spawn_fields _ _ _ _ E2)
      as (_ & _ & _ & _ & _ & _ & _ & [Es | (gy & _ & Es)]);
      rewrite Es in Hq; unfold advanced in Hq; cbn [set_pipes pipes] in Hq;
      rewrite Ep in Hq; try (apply in_app_or in Hq; destruct Hq as [Hq | Hq]).
    + destruct (advance_pipes_In _ _ _ Hq) as (p0 & Hp0 & -> & _).
      destruct (Hbefore p0 Hp0 Ip') as [S0 _].
      cbn [PipePair.move PipePair.set_x PipePair.scored] in Sp'. congruence.
    + destruct (advance_pipes_In _ _ _ Hq) as (p0 & Hp0 & -> & _).
      destruct (Hbefore p0 Hp0 Ip') as [S0 _].
      cbn [PipePair.move PipePair.set_x PipePair.scored] in Sp'. congruence.
    + destruct Hq as [<- | []]. cbn [PipePair.init PipePair.scored] in Sp'.
      discriminate Sp'.
  - exfalso. pose proof (step_keeps_pipes i s s1 W St Hi Ti H) as Ep.
    unfold flag in F1, F0. rewrite Ep in F1. congruence.
Qed.

(** C7.  Within one run (any inputs but the start button, from any state
    the game reaches), for every obstacle: what the score receives on its
    account is 0 or 1 in total, never more; once its flag is set nothing
    more is received however many steps follow, and the flag stays set as
    long as the obstacle is in the list.  A credit is paid by a tick only,
    and only on an obstacle that was not behind the agent before the tick
    and whose trailing edge is behind the agent's abscissa at its end:
    never before the passage.  For an unscored obstacle and a tick that
    gets past the floor and ceiling checks there are three cases, by where
    the frame leaves the trailing edge: at or ahead of the agent, nothing
    is paid; behind the agent and not beyond the culling line at -50, the
    tick pays one, so the first tick at whose end the obstacle has passed
    is the one that pays; beyond the culling line, the obstacle is removed
    before the closing loop and is never paid, in this tick or later.  An
    obstacle found behind the agent in the list has been paid exactly
    once.  The score at the end is the score at the beginning plus the
    credits of the steps. *)
Theorem scored_once_at_passage :
  forall (id : nat) (ins : list Input) (s sf : Game),
    wf s -> started s = true -> forallb in_run ins = true ->
    run ins s = Some sf ->
    (0 <= total_credit id ins s <= 1)%Z /\
    (flag id s = true -> total_credit id ins s = 0%Z) /\
    (flag id s = true -> present id sf = true -> flag id sf = true) /\
    (flag id s = false ->
     (exists p, In p (pipes sf) /\ PipePair.pid p = id /\
                PipePair.right p < Bird.x (bird sf)) ->
     flag id sf = true /\ total_credit id ins s = 1%Z) /\
    (forall (i : Input) (s1 : Game),
       in_run i = true -> step i s = Some s1 -> credit id s s1 = 1%Z ->
       (exists f, i = Tick f) /\
       (forall p, In p (pipes s) -> PipePair.pid p = id ->
          PipePair.scored p = false /\ Bird.x (bird s) <= PipePair.right p) /\
       exists p', In p' (pipes s1) /\ PipePair.pid p' = id /\
                  PipePair.scored p' = true /\
                  PipePair.right p' < Bird.x (bird s1)) /\
    (forall (f : Frame) (p : PipePair.t) (s1 : Game),
       running s = true -> game_over s = false ->
       In p (pipes s) -> PipePair.pid p = id -> PipePair.scored p = false ->
       let g := after_physics (frame_dt f) s in
       let dx := - current_pipe_speed g * frame_dt f in
       0 < Bird.y (bird g) -> Bird.top (bird g) < inject_Z WINDOW_HEIGHT ->
       _update f s = Some s1 ->
       (Bird.x (bird s) <= PipePair.right p + dx -> credit id s s1 = 0%Z) /\
       (-50 <= PipePair.right p + dx ->
        PipePair.right p + dx < Bird.x (bird s) -> credit id s s1 = 1%Z) /\
       (PipePair.right p + dx < -50 ->
        forall rest, forallb in_run rest = true ->
                     total_credit id (Tick f :: rest) s = 0%Z)) /\
    score sf = (score s + run_credits ins s)%Z.
Proof.
  intros id ins s sf W St Hin R.
  pose proof (run_credit_bound id ins s W St Hin) as B.
  pose proof (run_credit_flag id ins s sf W St Hin R) as F.
  assert (Rm : (remaining id s <= 1)%Z)
    by (unfold remaining; destruct (_ || _); lia).
  split; [lia|]. split; [|split; [|split; [|split; [|split]]]].
  - intro Fs. assert (R0 : remaining id s = 0%Z).
    { unfold remaining. rewrite Fs, andb_false_r. cbn [orb].
      pose proof (flag_allocated id s W (flag_in_present _ _ Fs)) as L.
      apply Nat.leb_gt in L. rewrite L. reflexivity. }
    lia.
  - intros Fs Pf. specialize (F Pf). unfold flagZ in F. rewrite Fs in F.
    destruct (flag id sf); [reflexivity | lia].
  - intros Fs (p & Hp & Ip & Pp).
    destruct (run_wf ins s W) as (sf' & R' & [Gf Pf]).
    rewrite R in R'. inversion R'; subst sf'. clear R'.
    rewrite Forall_forall in Pf. pose proof (Pf p Hp Pp) as Sp.
    assert (Ff : flag id sf = true).
    { apply flag_in_iff. exists p. tauto. }
    split; [exact Ff|].
    rewrite F by (apply flag_in_present; exact Ff).
    unfold flagZ. rewrite Ff, Fs. reflexivity.
  - intros i s1 Hi Hs C.
    apply (credit_only_at_passage id i s s1 W St Hi Hs C).
  - intros f p s1 Hr Hg Hp Ip Sp g dx Hy Ht U. subst id.
    split; [|split].
    + intro Hpass.
      apply (no_credit_before_passage f s s1 p W Hr Hg Hp Sp Hy Ht Hpass U).
    + intros Hl Hpass.
      apply (first_passage_credit f s s1 p W Hr Hg Hp Sp Hy Ht Hl Hpass U).
    + intros Hcull rest Hrest.
      apply (thrown_past_culling_line f rest s p W Hr Hg Hp Sp Hy Ht Hcull
               Hrest).
  - apply run_accounting; assumption.
Qed.

Lemma first_state_wf : wf first_state /\ started first_state = true.
Proof.
  destruct (start_game_wf 70 70 init_game init_game_wf)
    as (s' & E & W' & Rn & _).
  unfold first_state, started. rewrite E, Rn. split; [exact W' | reflexivity].
Qed.

Lemma scored_once_at_passage_witness :
  total_credit 0 (hover 1 5) first_state = 1%Z.
Proof.
  destruct first_state_wf as [W St].
  destruct (run (hover 1 5) first_state) as [sf|] eqn:R;
    [|vm_compute in R; discriminate R].
  destruct (scored_once_at_passage 0 (hover 1 5) first_state sf W St eq_refl R)
    as (_ & _ & _ & H & _).
  apply H.
  - reflexivity.
  - vm_compute in R. inversion R.
    eexists. split; [left; reflexivity|]. split; reflexivity.
Defined.

(** Against "exactly once, at the first tick at which the trailing edge has
    passed": in the played run, at score 30 and speed 180, obstacle 30 has
    its trailing edge at 148, ahead of the agent at 100; the next frame of
    nine eighths of a second takes it to -54.5, past the agent and past the
    culling line, and the obstacle is removed unscored.  The run goes on,
    the score is as before, and nothing is ever paid on its account. *)
Lemma long_frame_culls_unscored :
  wf cull_state /\ run cull_run first_state = Some cull_state /\
  running cull_state = true /\ game_over cull_state = false /\
  exists (p : PipePair.t) (sf : Game),
    In p (pipes cull_state) /\ PipePair.pid p = 30%nat /\
    PipePair.scored p = false /\
    Bird.x (bird cull_state) < PipePair.right p /\
    PipePair.right p
    + - current_pipe_speed (after_physics (frame_dt cull_frame) cull_state)
      * frame_dt cull_frame < -50 /\
    _update cull_frame cull_state = Some sf /\
    running sf = true /\ score sf = score cull_state /\
    present 30 sf = false /\
    total_credit 30 (cull_run ++ [Tick cull_frame]) first_state = 0%Z /\
    forall rest, forallb in_run rest = true -> total_credit 30 rest sf = 0%Z.
Proof.
  assert (EW : run cull_run first_state = Some cull_state /\ wf cull_state).
  { destruct (run_wf cull_run first_state (proj1 first_state_wf))
      as (s' & E' & W').
    unfold cull_state. rewrite E'. split; [reflexivity | exact W']. }
  destruct EW as [E W].
  assert (B :
    (let s := cull_state in
     let dx := - current_pipe_speed (after_physics (frame_dt cull_frame) s)
               * frame_dt cull_frame in
     match _update cull_frame s with
     | Some sf =>
         running s && negb (game_over s) && present_in 30 (pipes s)
         && negb (flag_in 30 (pipes s))
         && forallb (fun q => Qltb (Bird.x (bird s)) (PipePair.right q)
                              && (negb (has_pid 30 q)
                                  || Qltb (PipePair.right q + dx) (-50)))
                    (pipes s)
         && running sf && (score sf =? score s)%Z && negb (present 30 sf)
         && (30 <? next_pid sf)%nat
     | None => false
     end) = true) by (vm_compute; reflexivity).
  cbv zeta in B.
  destruct (_update cull_frame cull_state) as [sf|] eqn:U; [|discriminate B].
  apply andb_prop in B. destruct B as [B N1].
  apply andb_prop in B. destruct B as [B P1]. apply negb_true_iff in P1.
  apply andb_prop in B. destruct B as [B Sc].
  apply andb_prop in B. destruct B as [B Hr'].
  apply andb_prop in B. destruct B as [B Fa].
  apply andb_prop in B. destruct B as [B F0]. apply negb_true_iff in F0.
  apply andb_prop in B. destruct B as [B P0].
  apply andb_prop in B. destruct B as [Hr Hg]. apply negb_true_iff in Hg.
  split; [exact W|]. split; [exact E|]. split; [exact Hr|]. split; [exact Hg|].
  apply present_in_iff in P0. destruct P0 as (p & Hp & Ip).
  rewrite forallb_forall in Fa. pose proof (Fa p Hp) as Fp.
  apply andb_true_iff in Fp. destruct Fp as [Fp1 Fp2].
  apply Qltb_true in Fp1.
  unfold has_pid in Fp2. rewrite Ip, Nat.eqb_refl in Fp2. cbn [negb orb] in Fp2.
  apply Qltb_true in Fp2.
  exists p, sf.
  split; [exact Hp|]. split; [exact Ip|]. split.
  { rewrite <- (flag_in_member (pipes cull_state) p (g_apart _ (proj1 W)) Hp).
    rewrite Ip. exact F0. }
  split; [exact Fp1|]. split; [exact Fp2|]. split; [reflexivity|].
  split; [exact Hr'|]. split; [apply Z.eqb_eq; exact Sc|].
  split; [exact P1|]. split; [vm_compute; reflexivity|].
  intros rest Hin.
  destruct (update_wf cull_frame cull_state W) as (sf' & U' & Wf).
  rewrite U in U'. inversion U'; subst sf'.
  assert (Stf : started sf = true)
    by (unfold started; rewrite Hr'; reflexivity).
  pose proof (run_credit_bound 30 rest sf Wf Stf Hin) as Bd.
  assert (R0 : remaining 30 sf = 0%Z).
  { unfold remaining. rewrite P1. cbn [andb orb].
    apply Nat.ltb_lt in N1. apply Nat.leb_gt in N1. rewrite N1. reflexivity. }
  lia.
Qed.

(** ** Restart after the hard tier *)

(** With the easy parameters in the state, as [__init__] leaves them and
    as every run that ends below 30 leaves them, a start does what the
    specification says. *)
Lemma start_game_from_easy u0 u1 s :
  current_pipe_gap s = PIPE_GAP EASY ->
  initial_spacing_mult s = INITIAL_SPACING_MULT EASY ->
  exists s', start_game u0 u1 s = Some s' /\
    score s' = 0%Z /\ running s' = true /\ game_over s' = false /\
    bird s' = Bird.mk launch_x launch_y 0 /\
    _time_since_last_spawn s' = 0 /\
    map PipePair.x (pipes s') = [400; 920] /\
    map PipePair.gap_size (pipes s') = [300; 300].
Proof.
  intros Hg Hm.
  destruct (start_game_result u0 u1 s) as (g0 & g1 & _ & _ & E).
  { rewrite Hg. cbn. lia. }
  rewrite E, Hg, Hm. eexists. split; [reflexivity|]. repeat split.
Qed.

(** C2, on the code.  The played run [hard_run] takes the game from its
    initial state to a score of 30 and then to the floor.  The restart
    that follows resets the score, the agent and the accumulator, and
    pre-spawns two obstacles, but with the gap 200 and the spacing
    multiplier 1.05 that the last tick of the ended run left in the
    state: the second obstacle is at 820, not at 920, and the gaps are 200,
    not 300. *)
Theorem restart_keeps_stale_difficulty :
  exists s_end s',
    run hard_run init_game = Some s_end /\
    game_over s_end = true /\ score s_end = 30%Z /\
    step (StartButton 70 70) s_end = Some s' /\
    score s' = 0%Z /\ running s' = true /\ game_over s' = false /\
    bird s' = Bird.mk launch_x launch_y 0 /\
    _time_since_last_spawn s' = 0 /\
    map PipePair.x (pipes s') = [400; 820] /\
    map PipePair.gap_size (pipes s') = [200; 200] /\
    current_pipe_gap s' = 200%Z /\
    initial_spacing_mult s' = INITIAL_SPACING_MULT HARD.
Proof.
  destruct (run hard_run init_game) as [s_end|] eqn:R;
    [|vm_compute in R; discriminate R].
  vm_compute in R. inversion R. clear R.
  eexists. eexists. split; [reflexivity|].
  split; [reflexivity|]. split; [reflexivity|].
  split; [vm_compute; reflexivity|]. repeat split.
Qed.

(** * Further properties of the code *)

(** ** The difficulty ramp: bounds, saturation, monotonicity *)

Lemma clamp_unit_bounds x : 0 <= clamp x 0 1 <= 1.
Proof.
  unfold clamp.
  destruct (Q.min_spec 1 x) as [[? E1]|[? E1]];
  destruct (Q.max_spec 0 (Qmin 1 x)) as [[? E2]|[? E2]];
    rewrite E2; rewrite ?E1 in *; split; lra.
Qed.

Lemma clamp_unit_mono x y : x <= y -> clamp x 0 1 <= clamp y 0 1.
Proof.
  intro H. unfold clamp.
  destruct (Q.min_spec 1 x) as [[? E1]|[? E1]];
  destruct (Q.min_spec 1 y) as [[? E3]|[? E3]];
  destruct (Q.max_spec 0 (Qmin 1 x)) as [[? E2]|[? E2]];
  destruct (Q.max_spec 0 (Qmin 1 y)) as [[? E4]|[? E4]];
    rewrite E2, E4; rewrite ?E1, ?E3 in *; lra.
Qed.

Lemma clamp_unit_sat x : 1 <= x -> clamp x 0 1 == 1.
Proof.
  intro H. unfold clamp.
  destruct (Q.min_spec 1 x) as [[? E1]|[? E1]];
  destruct (Q.max_spec 0 (Qmin 1 x)) as [[? E2]|[? E2]];
    rewrite E2; rewrite ?E1 in *; lra.
Qed.

(** The ramp of a score, as the specification's curve has it. *)
Lemma hard_params_of_ramp s :
  (30 <= score s)%Z ->
  exists ramp,
    0 <= ramp <= 1 /\
    ramp == clamp ((inject_Z (score s) - 30) / 50) 0 1 /\
    current_pipe_speed (_apply_difficulty s) == 180 + 80 * ramp /\
    inject_Z (current_pipe_gap (_apply_difficulty s)) == 200 - 50 * ramp /\
    current_spawn_interval (_apply_difficulty s) == 2 - (8 # 10) * ramp.
Proof.
  intro H. pose proof (apply_difficulty_hard s H) as P. cbv zeta in P.
  set (ramp := clamp ((inject_Z (score s) - 30) / 50) 0 1) in *.
  pose proof (clamp_unit_bounds ((inject_Z (score s) - 30) / 50)) as B.
  fold ramp in B. unfold params_eq, params_of in P.
  destruct P as (P1 & P2 & P3 & _).
  exists ramp. split; [exact B|]. split; [reflexivity|].
  split; [exact P1|]. split.
  - rewrite P2.
    destruct (Q.max_spec 60 (200 - 50 * ramp)) as [[? E]|[? E]]; rewrite E; lra.
  - rewrite P3.
    destruct (Q.max_spec (9 # 10) (2 - (8 # 10) * ramp)) as [[? E]|[? E]];
      rewrite E; lra.
Qed.

(** X1.  Whatever the score, the recomputed difficulty stays within fixed
    bounds: the speed between 80 and 260, the gap between 150 and 300, the
    spawn interval between 1.2 and 4.  The floors 60 (gap) and 0.9
    (interval) written in the code are never reached.  From a score of 80
    on the ramp is saturated: speed 260, gap 150, interval 1.2. *)
Theorem difficulty_bounds :
  forall s : Game,
    let s' := _apply_difficulty s in
    80 <= current_pipe_speed s' <= 260 /\
    (150 <= current_pipe_gap s' <= 300)%Z /\
    6 # 5 <= current_spawn_interval s' <= 4 /\
    ((80 <= score s)%Z ->
       current_pipe_speed s' == 260 /\ current_pipe_gap s' = 150%Z /\
       current_spawn_interval s' == 6 # 5).
Proof.
  intros s s'. unfold s'.
  destruct (Z_lt_ge_dec (score s) 30) as [L | L].
  - assert (Es : current_pipe_speed (_apply_difficulty s) = 80 /\
                 current_pipe_gap (_apply_difficulty s) = 300%Z /\
                 current_spawn_interval (_apply_difficulty s) = 4).
    { unfold _apply_difficulty. apply Z.ltb_lt in L. rewrite L.
      repeat split. }
    destruct Es as (-> & -> & ->).
    split; [split; discriminate|]. split; [lia|].
    split; [split; discriminate|]. intro H. lia.
  - assert (L' : (30 <= score s)%Z) by lia.
    destruct (hard_params_of_ramp s L') as (ramp & B & R & Sp & _ & Iv).
    pose proof (apply_difficulty_gap s L') as Eg.
    split; [rewrite Sp; split; lra|].
    split; [rewrite Eg; lia|].
    split; [rewrite Iv; split; lra|].
    intro H.
    assert (R1 : ramp == 1).
    { rewrite R. apply clamp_unit_sat.
      assert (P : 80 <= inject_Z (score s)).
      { change 80 with (inject_Z 80). rewrite <- Zle_Qle. exact H. }
      qdiv. lra. }
    split; [rewrite Sp, R1; reflexivity|].
    split; [rewrite Eg; lia|].
    rewrite Iv, R1. reflexivity.
Qed.

Lemma difficulty_bounds_witness :
  current_pipe_speed (_apply_difficulty (set_score 95 init_game)) == 260 /\
  current_pipe_gap (_apply_difficulty (set_score 95 init_game)) = 150%Z /\
  current_spawn_interval (_apply_difficulty (set_score 95 init_game)) == 6 # 5.
Proof.
  apply (difficulty_bounds (set_score 95 init_game)). cbn. lia.
Defined.

(** X2.  The difficulty never eases as the score grows: of two scores, the
    higher one has a speed at least as high, a gap at most as wide and a
    spawn interval at most as long. *)
Theorem difficulty_monotone :
  forall s t : Game,
    (score s <= score t)%Z ->
    current_pipe_speed (_apply_difficulty s)
      <= current_pipe_speed (_apply_difficulty t) /\
    (current_pipe_gap (_apply_difficulty t)
      <= current_pipe_gap (_apply_difficulty s))%Z /\
    current_spawn_interval (_apply_difficulty t)
      <= current_spawn_interval (_apply_difficulty s).
Proof.
  intros s t H.
  destruct (Z_lt_ge_dec (score t) 30) as [Lt | Lt].
  - assert (Ls : (score s < 30)%Z) by lia.
    unfold _apply_difficulty.
    apply Z.ltb_lt in Ls, Lt. rewrite Ls, Lt. cbn.
    split; [apply Qle_refl|]. split; [lia | apply Qle_refl].
  - assert (Lt' : (30 <= score t)%Z) by lia.
    destruct (hard_params_of_ramp t Lt') as (rt & Bt & Rt & Spt & _ & Ivt).
    pose proof (apply_difficulty_gap t Lt') as Egt.
    destruct (Z_lt_ge_dec (score s) 30) as [Ls | Ls].
    + assert (Es : current_pipe_speed (_apply_difficulty s) = 80 /\
                   current_pipe_gap (_apply_difficulty s) = 300%Z /\
                   current_spawn_interval (_apply_difficulty s) = 4).
      { unfold _apply_difficulty. apply Z.ltb_lt in Ls. rewrite Ls.
        repeat split. }
      destruct Es as (-> & -> & ->).
      split; [rewrite Spt; lra|]. split; [rewrite Egt; lia|].
      rewrite Ivt. lra.
    + assert (Ls' : (30 <= score s)%Z) by lia.
      destruct (hard_params_of_ramp s Ls') as (rs & Bs & Rs & Sps & _ & Ivs).
      pose proof (apply_difficulty_gap s Ls') as Egs.
      assert (M : rs <= rt).
      { rewrite Rs, Rt. apply clamp_unit_mono.
        assert (P : inject_Z (score s) <= inject_Z (score t))
          by (rewrite <- Zle_Qle; exact H).
        qdiv. lra. }
      split; [rewrite Sps, Spt; lra|].
      split; [rewrite Egs, Egt; lia|].
      rewrite Ivs, Ivt. lra.
Qed.

Lemma difficulty_monotone_witness :
  current_pipe_speed (_apply_difficulty (set_score 29 init_game))
    <= current_pipe_speed (_apply_difficulty (set_score 55 init_game)).
Proof.
  apply (difficulty_monotone (set_score 29 init_game) (set_score 55 init_game)).
  cbn. lia.
Defined.

(** ** Invariants of whole runs *)

Lemma run_invariant (I : Game -> Prop) :
  (forall i s s', I s -> step i s = Some s' -> I s') ->
  forall ins s s', I s -> run ins s = Some s' -> I s'.
Proof.
  intro Hstep. induction ins as [|i ins IH]; intros s s' Hs H; cbn [run] in H.
  - inversion H; subst s'. exact Hs.
  - destruct (step i s) as [s1|] eqn:E; [|discriminate H]. cbn [bind] in H.
    apply (IH s1 s'); [|exact H]. apply (Hstep i s s1); assumption.
Qed.

Lemma step_wf_some i s s' : wf s -> step i s = Some s' -> wf s'.
Proof.
  intros W H. destruct (step_wf i s W) as (s'' & E & W').
  rewrite E in H. inversion H; subst s''. exact W'.
Qed.

(** X3.  From the initial state no sequence of key presses, touches, button
    presses and ticks, with any frame times, clock values and random
    draws, makes the game raise; and in the state it reaches the agent is
    on its column 100, the obstacles are 48 wide, in spawn order with
    leading edges at least 280 apart, none is left of the culling line,
    every obstacle whose trailing edge is behind the agent has been
    scored, and the gap in force is between 150 and 300. *)
Theorem reachable_never_raises :
  forall ins : list Input,
    exists s, run ins init_game = Some s /\
      Bird.x (bird s) = 100 /\
      StronglySorted apart (pipes s) /\
      Forall (fun p => PipePair.width_pipe p = 48 /\
                       -50 <= PipePair.right p /\
                       (PipePair.right p < 100 -> PipePair.scored p = true))
             (pipes s) /\
      (150 <= current_pipe_gap s <= 300)%Z.
Proof.
  intro ins. destruct (run_wf ins init_game init_game_wf) as (s & E & W).
  exists s. split; [exact E|].
  destruct W as [[G1 G2 G3 G4 G5 G6 G7] P].
  split; [exact G1|]. split; [exact G3|]. split; [|exact G6].
  rewrite Forall_forall in *. intros p Hp.
  split; [rewrite <- pipe_width_48; apply G2; exact Hp|].
  split; [apply G5; exact Hp|].
  specialize (P p Hp). unfold passed_scored in P. rewrite G1 in P. exact P.
Qed.

Lemma step_phase i s s' :
  step i s = Some s' -> running s && game_over s = false ->
  running s' && game_over s' = false /\
  (started s = true -> started s' = true).
Proof.
  intros H Hx. unfold started.
  destruct i as [f | now u0 u1 | u0 u1 | u0 u1]; cbn [step] in H.
  - destruct (running s) eqn:Hr; [destruct (game_over s) eqn:Hg|].
    + discriminate Hx.
    + destruct (update_shape f s s' Hr Hg H)
        as [(_ & ->) | [(_ & _ & ->) | (_ & _ & s2 & s3 & E2 & E3 & ->)]];
        try (split; reflexivity).
      destruct (tick_states f s s2 s3 Hr Hg E2 E3) as (R3 & G3 & _).
      destruct (collide_and_score_phase s3) as (Eo & Er & _).
      rewrite Eo, Er, R3, G3.
      destruct (existsb _ (pipes s3)); split; reflexivity.
    + unfold _update in H. rewrite Hr in H. inversion H; subst s'.
      rewrite Hr. split; [reflexivity | tauto].
  - destruct (negb (running s) && negb (game_over s)).
    + destruct (start_game_fields _ _ _ _ H) as (-> & -> & _).
      split; reflexivity.
    + destruct (running s) eqn:Hr; inversion H; subst s'.
      * destruct (flap_frame now s) as (v & t & ->).
        cbn [set_bird set_last_flap_time running game_over]. rewrite Hr.
        split; [exact Hx | reflexivity].
      * rewrite Hr. split; [reflexivity | tauto].
  - cbn [set_autoplay autoplay running game_over] in H.
    destruct (negb (autoplay s) && negb (running s) && negb (game_over s)).
    + destruct (start_game_fields _ _ _ _ H) as (-> & -> & _).
      split; reflexivity.
    + inversion H. cbn [set_autoplay running game_over]. tauto.
  - destruct (running s) eqn:Hr.
    + inversion H; subst s'. rewrite Hr. split; [exact Hx | reflexivity].
    + destruct (start_game_fields _ _ _ _ H) as (-> & -> & _).
      split; reflexivity.
Qed.

(** X4.  The two phase flags are never set together: a state is idle,
    running or ended, and every input keeps it so.  Once a run has been
    started the game does not become idle again. *)
Theorem phases_exclusive :
  forall (ins : list Input) (s s' : Game),
    running s && game_over s = false ->
    run ins s = Some s' ->
    running s' && game_over s' = false /\
    (started s = true -> started s' = true).
Proof.
  intros ins s s' Hx H.
  apply (run_invariant
           (fun g => running g && game_over g = false /\
                     (started s = true -> started g = true))
           ) with (ins := ins) (s := s); [|tauto|exact H].
  intros i g g' [I1 I2] Hs.
  destruct (step_phase i g g' Hs I1) as [P1 P2]. split; [exact P1|].
  intro St. apply P2, I2, St.
Qed.

Lemma phases_exclusive_witness :
  exists s', run (Press 1000 70 70 :: hover 1 3) init_game = Some s' /\
             running s' && game_over s' = false.
Proof.
  eexists. split; [vm_compute; reflexivity|].
  apply (phases_exclusive (Press 1000 70 70 :: hover 1 3) init_game);
    [reflexivity | vm_compute; reflexivity].
Defined.

Lemma set_autoplay_self s : set_autoplay (autoplay s) s = s.
Proof. destruct s. reflexivity. Qed.

(** X5.  After the end of a run nothing but the restart button changes the
    game: ticks, the space bar and touches leave the state as it is, and
    the bot key changes its flag only. *)
Theorem ended_is_frozen :
  forall (ins : list Input) (s s' : Game),
    running s = false -> game_over s = true ->
    forallb in_run ins = true ->
    run ins s = Some s' ->
    s' = set_autoplay (autoplay s') s.
Proof.
  induction ins as [|i ins IH]; intros s s' Hr Hg Hin H; cbn [run] in H.
  - inversion H; subst s'. symmetry. apply set_autoplay_self.
  - cbn [forallb] in Hin. apply andb_true_iff in Hin. destruct Hin as [Hi Hin].
    destruct i as [f | now u0 u1 | u0 u1 | u0 u1]; cbn [step] in H;
      [| | |discriminate Hi].
    + unfold _update in H. rewrite Hr in H. cbn [negb orb bind] in H.
      apply (IH s s'); assumption.
    + rewrite Hr, Hg in H. cbn [negb andb bind] in H.
      apply (IH s s'); assumption.
    + cbn [set_autoplay autoplay running game_over] in H.
      rewrite Hr, Hg in H. rewrite andb_false_r in H. cbn [bind] in H.
      rewrite (IH (set_autoplay (negb (autoplay s)) s) s');
        try assumption; reflexivity.
Qed.

Lemma ended_is_frozen_witness :
  exists s',
    run [Tick (mkFrame (1 # 60) 5 0); Press 6 0 0; ToggleBot 0 0;
         Tick (mkFrame (1 # 60) 7 0)] (end_game first_state) = Some s' /\
    s' = set_autoplay (autoplay s') (end_game first_state).
Proof.
  eexists. split; [vm_compute; reflexivity|].
  apply (ended_is_frozen
           [Tick (mkFrame (1 # 60) 5 0); Press 6 0 0; ToggleBot 0 0;
            Tick (mkFrame (1 # 60) 7 0)] (end_game first_state));
    [reflexivity | reflexivity | reflexivity | vm_compute; reflexivity].
Defined.

(** ** The agent of a running game *)

Lemma far_clear b p :
  Bird.x b + Bird.width b <= PipePair.x p -> clear_of b p.
Proof.
  intro H. unfold clear_of.
  destruct (PipePair.collides_with p _ _ _ _) eqn:C; [|reflexivity].
  apply collides_with_x in C. lra.
Qed.

Lemma marked_clear ax b p p' : marked ax p p' -> clear_of b p -> clear_of b p'.
Proof. intros [-> | (_ & _ & ->)] H; exact H. Qed.

Lemma clear_of_ext b b' p :
  Bird.x b' = Bird.x b -> Bird.y b' = Bird.y b -> clear_of b p -> clear_of b' p.
Proof.
  unfold clear_of. intros -> ->. tauto.
Qed.

Lemma no_hit_clear b ps :
  existsb (fun p => PipePair.collides_with p (Bird.x b) (Bird.y b)
                      (Bird.width b) (Bird.height b)) ps = false ->
  Forall (clear_of b) ps.
Proof.
  intro H. apply Forall_forall. intros p Hp. unfold clear_of.
  destruct (PipePair.collides_with p _ _ _ _) eqn:C; [|reflexivity].
  assert (T : existsb (fun p => PipePair.collides_with p (Bird.x b) (Bird.y b)
                      (Bird.width b) (Bird.height b)) ps = true)
    by (apply existsb_exists; exists p; tauto).
  congruence.
Qed.

Lemma in_flight_ext s s' :
  Bird.x (bird s') = Bird.x (bird s) -> Bird.y (bird s') = Bird.y (bird s) ->
  pipes s' = pipes s -> in_flight s -> in_flight s'.
Proof.
  intros Hx Hy Hp (F1 & F2 & F3). unfold in_flight, Bird.top in *.
  rewrite Hy, Hp. split; [exact F1|]. split; [exact F2|].
  eapply Forall_impl; [|exact F3]. intros p. apply clear_of_ext; assumption.
Qed.

Lemma start_game_in_flight u0 u1 s s' :
  wf s -> start_game u0 u1 s = Some s' -> in_flight s'.
Proof.
  intros [G _] H.
  destruct (start_game_fields _ _ _ _ H)
    as (_ & _ & _ & Eb & _ & _ & _ & g0 & g1 & _ & _ & Ep).
  pose proof (second_prespawn_x _ (g_mult s G)) as Hx2.
  unfold in_flight, Bird.top. rewrite Eb, Ep.
  split; [reflexivity|]. split; [reflexivity|].
  revert Hx2.
  generalize (inject_Z (WINDOW_WIDTH + 1 *
                py_int (inject_Z WINDOW_WIDTH * initial_spacing_mult s))).
  intros x2 Hx2.
  constructor; [|constructor; [|constructor]]; apply far_clear;
    cbn [PipePair.init PipePair.x Bird.x]; unfold launch_x;
    change (Bird.width _) with 64; change (inject_Z WINDOW_WIDTH) with 400;
    lra.
Qed.

Lemma step_in_flight i s s' :
  wf s -> (running s = true -> in_flight s) ->
  step i s = Some s' -> running s' = true -> in_flight s'.
Proof.
  intros W I H Hr'.
  destruct i as [f | now u0 u1 | u0 u1 | u0 u1]; cbn [step] in H.
  - destruct (running s) eqn:Hr; [destruct (game_over s) eqn:Hg|].
    + unfold _update in H. rewrite Hr, Hg in H. inversion H; subst s'.
      apply I. reflexivity.
    + destruct (update_shape f s s' Hr Hg H)
        as [(_ & ->) | [(_ & _ & ->) | (Y & T & s2 & s3 & E2 & E3 & ->)]];
        try discriminate Hr'.
      destruct (tick_states f s s2 s3 Hr Hg E2 E3)
        as (R3 & G3 & _ & X3 & Y3 & _).
      destruct (collide_and_score_phase s3) as (_ & Er & _).
      rewrite Er, R3, andb_true_r in Hr'. apply negb_true_iff in Hr'.
      destruct (collide_and_score_fields s3) as (M & _ & _ & B & _).
      unfold in_flight, Bird.top. rewrite B.
      change (Bird.height (bird s3))
        with (Bird.height (bird (after_physics (frame_dt f) s))).
      rewrite Y3. split; [exact Y|]. split; [exact T|].
      refine (Forall2_transfer _ _ _ _ _ M _ (no_hit_clear _ _ Hr')).
      intros p p'. apply marked_clear.
    + unfold _update in H. rewrite Hr in H. inversion H; subst s'.
      congruence.
  - destruct (negb (running s) && negb (game_over s)).
    + apply (start_game_in_flight u0 u1 s); assumption.
    + destruct (running s) eqn:Hr; inversion H; subst s'; [|congruence].
      destruct (flap_frame now s) as (v & t & ->).
      apply (in_flight_ext s); try reflexivity. apply I. reflexivity.
  - destruct (autoplay _ && negb (running _) && negb (game_over _)).
    + apply (start_game_in_flight u0 u1 (set_autoplay (negb (autoplay s)) s));
        [|exact H].
      apply (wf_ext s); try reflexivity. exact W.
    + inversion H; subst s'. apply (in_flight_ext s); try reflexivity.
      apply I. exact Hr'.
  - destruct (running s) eqn:Hr.
    + inversion H; subst s'. apply I. reflexivity.
    + apply (start_game_in_flight u0 u1 s); assumption.
Qed.

(** X6.  While the game is running the agent is strictly above the floor,
    strictly below the ceiling and overlaps no obstacle of the list: a
    frame in which it would not be ends the run in the same tick. *)
Theorem running_agent_in_flight :
  forall (ins : list Input) (s : Game),
    run ins init_game = Some s -> running s = true ->
    0 < Bird.y (bird s) /\ Bird.top (bird s) < inject_Z WINDOW_HEIGHT /\
    Forall (clear_of (bird s)) (pipes s).
Proof.
  intros ins s H Hr.
  assert (I : wf s /\ (running s = true -> in_flight s)).
  { apply (run_invariant (fun g => wf g /\ (running g = true -> in_flight g)))
      with (ins := ins) (s := init_game); [| |exact H].
    - intros i g g' [W F] Hs. split; [apply (step_wf_some i g); assumption|].
      apply (step_in_flight i g); assumption.
    - split; [exact init_game_wf | discriminate]. }
  apply I. exact Hr.
Qed.

Lemma running_agent_in_flight_witness :
  exists s, run (Press 1000 70 70 :: hover 1 3) init_game = Some s /\
            0 < Bird.y (bird s) /\ Bird.top (bird s) < inject_Z WINDOW_HEIGHT /\
            Forall (clear_of (bird s)) (pipes s).
Proof.
  eexists. split; [vm_compute; reflexivity|].
  apply (running_agent_in_flight (Press 1000 70 70 :: hover 1 3));
    vm_compute; reflexivity.
Defined.

(** X7.  A tick of a running game ends the run exactly when, after the
    physics step, the agent is at or below the floor or its top is at or
    above the ceiling, or, these passed, when one of the obstacles that
    are left after the advance overlaps the agent.  The obstacle spawned in
    the tick and the autopilot's flap have no part in it. *)
Theorem tick_ends_iff :
  forall (f : Frame) (s s' : Game),
    wf s -> running s = true -> game_over s = false ->
    _update f s = Some s' ->
    let s1 := after_physics (frame_dt f) s in
    (game_over s' = true <->
       Bird.y (bird s1) <= 0 \/
       inject_Z WINDOW_HEIGHT <= Bird.top (bird s1) \/
       exists p, In p (pipes (advanced (frame_dt f) s1)) /\
                 ~ clear_of (bird s1) p) /\
    running s' = negb (game_over s').
Proof.
  intros f s s' [G _] Hr Hg H s1.
  destruct (update_shape f s s' Hr Hg H)
    as [(Y & ->) | [(Y & T & ->) | (Y & T & s2 & s3 & E2 & E3 & ->)]];
    fold s1 in Y; try fold s1 in T.
  - split; [|reflexivity]. split; [intros _; left; exact Y | reflexivity].
  - split; [|reflexivity].
    split; [intros _; right; left; exact T | reflexivity].
  - fold s1 in E2.
    destruct (tick_states f s s2 s3 Hr Hg E2 E3)
      as (R3 & G3 & _ & X3 & Y3 & P3 & B2 & _). fold s1 in Y3, B2.
    pose proof (tick_geom f s s2 s3 G E2 E3) as Gm.
    destruct (collide_and_score_phase s3) as (Eo & Er & _).
    rewrite Eo, Er, R3, G3, orb_false_r, andb_true_r.
    split; [|reflexivity].
    destruct (after_physics_fields (frame_dt f) s) as (Ex & _).
    fold s1 in Ex.
    assert (Hx1 : Bird.x (bird s1) = launch_x)
      by (rewrite Ex; apply (g_bird_x s G)).
    assert (Hx3 : Bird.x (bird s3) = Bird.x (bird s1)) by congruence.
    rewrite existsb_exists. split.
    + intros (p & Hp & C). right. right. exists p. split.
      * rewrite P3 in Hp.
        destruct (maybe_spawn_fields _ _ _ _ E2)
          as (_ & _ & _ & _ & _ & _ & _ & [Ep | (gy & _ & Ep)]);
          rewrite Ep in Hp; [exact Hp|].
        apply in_app_or in Hp. destruct Hp as [Hp | [<- | []]]; [exact Hp|].
        exfalso. apply collides_with_x in C. destruct C as [_ C].
        cbn [PipePair.init PipePair.x] in C.
        assert (Hs : 420 <= spawn_x_of (pipes (advanced (frame_dt f) s1))).
        { unfold spawn_x_of. change (inject_Z (WINDOW_WIDTH + 20)) with 420.
          apply Q.le_max_l. }
        rewrite Hx3, Hx1 in C. unfold launch_x in C.
        change (Bird.width (bird s3)) with 64 in C. lra.
      * unfold clear_of. rewrite <- Hx3, <- Y3.
        change (Bird.width (bird s1)) with (Bird.width (bird s3)).
        change (Bird.height (bird s1)) with (Bird.height (bird s3)).
        rewrite C. discriminate.
    + intros [Y' | [T' | (p & Hp & C)]]; [lra | lra |].
      exists p. split.
      * rewrite P3.
        destruct (maybe_spawn_fields _ _ _ _ E2)
          as (_ & _ & _ & _ & _ & _ & _ & [Ep | (gy & _ & Ep)]);
          rewrite Ep; [exact Hp | apply in_or_app; left; exact Hp].
      * unfold clear_of in C. rewrite <- Hx3, <- Y3 in C.
        change (Bird.width (bird s1)) with (Bird.width (bird s3)) in C.
        change (Bird.height (bird s1)) with (Bird.height (bird s3)) in C.
        destruct (PipePair.collides_with p _ _ _ _); [reflexivity|].
        exfalso. apply C. reflexivity.
Qed.

Lemma tick_ends_iff_witness :
  exists s', _update crash_frame crash_state = Some s' /\
             running s' = negb (game_over s').
Proof.
  eexists. split; [vm_compute; reflexivity|].
  apply (tick_ends_iff crash_frame crash_state);
    [exact crash_state_wf | reflexivity | reflexivity | vm_compute; reflexivity].
Defined.

(** ** The score along a run *)

Lemma flips_none ax ps ps' :
  Forall (fun q => ax <= PipePair.right q) ps ->
  Forall2 (marked ax) ps ps' -> flips ps ps' = 0%Z.
Proof.
  intros Hf M. induction M as [|p p' ps ps' Hp _ IH]; [reflexivity|].
  apply Forall_cons_iff in Hf. destruct Hf as [Hfp Hf].
  cbn [flips]. rewrite (IH Hf).
  destruct Hp as [-> | (_ & Hlt & _)]; [|lra].
  destruct (PipePair.scored p); reflexivity.
Qed.

(** Of the obstacles of a well-formed list only the first can be behind the
    agent unscored: the closing loop sets at most one flag. *)
Lemma flips_at_most_one ps ps' :
  Forall (fun p => PipePair.width_pipe p = pipe_width) ps ->
  StronglySorted apart ps ->
  Forall (fun p => -50 <= PipePair.right p) ps ->
  Forall2 (marked launch_x) ps ps' ->
  (0 <= flips ps ps' <= 1)%Z.
Proof.
  intros Hw Hs Hl M. destruct M as [|p p' ps ps' Hp M]; [cbn; lia|].
  apply Forall_cons_iff in Hw. destruct Hw as [Hwp Hw].
  apply Forall_cons_iff in Hl. destruct Hl as [Hlp _].
  apply StronglySorted_inv in Hs. destruct Hs as [_ Ha].
  cbn [flips]. rewrite (flips_none launch_x ps ps'); [| |exact M].
  - destruct (PipePair.scored p' && negb (PipePair.scored p)); lia.
  - rewrite Forall_forall in *. intros q Hq.
    destruct (Ha q Hq) as [Hx _]. pose proof (Hw q Hq) as Hwq.
    unfold PipePair.right in *. rewrite Hwq. rewrite Hwp in Hlp.
    rewrite pipe_width_48 in *. unfold launch_x. lra.
Qed.

Lemma step_score i s s' :
  wf s -> in_run i = true -> started s = true -> step i s = Some s' ->
  (score s <= score s' <= score s + (if is_tick i then 1 else 0))%Z.
Proof.
  intros [G _] Hi Hs H. unfold started in Hs.
  destruct i as [f | now u0 u1 | u0 u1 | u0 u1]; cbn [step is_tick] in *;
    [| | |discriminate Hi].
  - destruct (running s) eqn:Hr; [destruct (game_over s) eqn:Hg|].
    + unfold _update in H. rewrite Hr, Hg in H. inversion H. lia.
    + destruct (after_physics_fields (frame_dt f) s) as (_ & _ & _ & Esc & _).
      destruct (update_shape f s s' Hr Hg H)
        as [(_ & ->) | [(_ & _ & ->) | (_ & _ & s2 & s3 & E2 & E3 & ->)]];
        cbn [end_game set_phase set_bird score]; try lia.
      destruct (tick_states f s s2 s3 Hr Hg E2 E3) as (_ & _ & Sc3 & X3 & _).
      destruct (tick_geom f s s2 s3 G E2 E3) as [G1 G2 G3 G4 G5 G6 G7].
      destruct (collide_and_score_fields s3) as (M & _ & _ & _ & Sc).
      rewrite G1 in M.
      pose proof (flips_at_most_one _ _ G2 G3 G5 M) as F.
      rewrite Sc, Sc3. lia.
    + unfold _update in H. rewrite Hr in H. inversion H. lia.
  - destruct (running s) eqn:Hr.
    + cbn in H. inversion H. destruct (flap_frame now s) as (v & t & ->).
      cbn. lia.
    + cbn in Hs. rewrite Hs in H. cbn in H. inversion H. lia.
  - cbn [set_autoplay autoplay running game_over] in H.
    assert (E : negb (autoplay s) && negb (running s) && negb (game_over s)
                = false).
    { destruct (running s); [apply andb_false_iff; left; apply andb_false_r|].
      cbn in Hs. rewrite Hs. apply andb_false_r. }
    rewrite E in H. inversion H. cbn. lia.
Qed.

(** X8.  Within a run, that is once started and as long as the start
    button is not pressed, the score never goes down and a tick adds at
    most one to it: over a sequence of inputs it grows by at most the
    number of ticks.  Flaps and the bot key leave it as it is. *)
Theorem score_steps :
  forall (ins : list Input) (s s' : Game),
    wf s -> started s = true -> forallb in_run ins = true ->
    run ins s = Some s' ->
    (score s <= score s' <= score s + ticks ins)%Z.
Proof.
  unfold ticks.
  induction ins as [|i ins IH]; intros s s' W St Hin H; cbn [run] in H.
  - inversion H. cbn. lia.
  - cbn [forallb] in Hin. apply andb_true_iff in Hin. destruct Hin as [Hi Hin].
    destruct (step i s) as [s1|] eqn:E; [|discriminate H]. cbn [bind] in H.
    pose proof (step_score i s s1 W Hi St E) as S1.
    pose proof (step_wf_some i s s1 W E) as W1.
    destruct (step_pipes i s s1 W Hi St E) as [_ St1].
    pose proof (IH s1 s' W1 St1 Hin H) as S2.
    cbn [filter]. destruct (is_tick i); cbn [length]; lia.
Qed.

Lemma score_steps_witness :
  exists s', run (hover 1 30) first_state = Some s' /\
             (score first_state <= score s'
              <= score first_state + ticks (hover 1 30))%Z.
Proof.
  eexists. split; [vm_compute; reflexivity|].
  apply (score_steps (hover 1 30) first_state);
    [apply first_state_wf | reflexivity | reflexivity | vm_compute; reflexivity].
Defined.

(** ** The vertical layout of the obstacles *)

Lemma init_shaped id x gy gap :
  (70 <= gy)%Z -> (150 <= gap <= 300)%Z -> (gy + gap <= 570)%Z ->
  shaped (PipePair.init id x (inject_Z gy) (inject_Z gap) pipe_width
            (inject_Z WINDOW_HEIGHT)).
Proof.
  intros H1 H2 H3. unfold shaped.
  cbn [PipePair.init PipePair.bottom_height PipePair.gap_y PipePair.top_pos
       PipePair.gap_size PipePair.top_height].
  do 3 (split; [reflexivity|]).
  split; [change 70 with (inject_Z 70); rewrite <- Zle_Qle; exact H1|].
  split.
  - split; [change 150 with (inject_Z 150) | change 300 with (inject_Z 300)];
      rewrite <- Zle_Qle; lia.
  - rewrite <- inject_Z_plus. change 570 with (inject_Z 570).
    rewrite <- Zle_Qle. exact H3.
Qed.

Lemma move_shaped dx p : shaped p -> shaped (PipePair.move dx p).
Proof. intro H. exact H. Qed.

Lemma marked_shaped ax p p' : marked ax p p' -> shaped p -> shaped p'.
Proof. intros [-> | (_ & _ & ->)] H; exact H. Qed.

Lemma step_shaped i s s' :
  wf s -> Forall shaped (pipes s) -> step i s = Some s' ->
  Forall shaped (pipes s').
Proof.
  intros W F H.
  assert (Hstart : forall u0 u1 g g',
            wf g -> start_game u0 u1 g = Some g' -> Forall shaped (pipes g')).
  { intros u0 u1 g g' [Gg _] Hg.
    destruct (start_game_fields _ _ _ _ Hg)
      as (_ & _ & _ & _ & _ & _ & _ & g0 & g1 & R0 & R1 & ->).
    pose proof (g_gap g Gg) as Hgap.
    constructor; [|constructor; [|constructor]]; apply init_shaped; lia. }
  destruct i as [f | now u0 u1 | u0 u1 | u0 u1]; cbn [step] in H.
  - destruct (running s) eqn:Hr; [destruct (game_over s) eqn:Hg|].
    + unfold _update in H. rewrite Hr, Hg in H. inversion H; subst s'. exact F.
    + destruct W as [G _].
      destruct (after_physics_fields (frame_dt f) s) as (_ & Ep & _).
      destruct (update_shape f s s' Hr Hg H)
        as [(_ & ->) | [(_ & _ & ->) | (_ & _ & s2 & s3 & E2 & E3 & ->)]];
        cbn [end_game set_phase set_bird pipes]; try (rewrite Ep; exact F).
      destruct (tick_states f s s2 s3 Hr Hg E2 E3)
        as (_ & _ & _ & _ & _ & P3 & _).
      destruct (collide_and_score_fields s3) as (M & _).
      refine (Forall2_transfer _ _ _ _ _ M (marked_shaped _) _).
      rewrite P3.
      assert (Fa : Forall shaped
                     (pipes (advanced (frame_dt f)
                               (after_physics (frame_dt f) s)))).
      { unfold advanced. cbn [set_pipes pipes]. rewrite Ep.
        eapply advance_pipes_Forall; [|exact F].
        intros p Hp _. apply move_shaped. exact Hp. }
      destruct (maybe_spawn_fields _ _ _ _ E2)
        as (_ & _ & _ & _ & _ & _ & _ & [-> | (gy & R & ->)]); [exact Fa|].
      apply Forall_app. split; [exact Fa|]. constructor; [|constructor].
      pose proof (g_gap _ (geom_after_physics (frame_dt f) s G)) as Hgap.
      unfold advanced in *. cbn [set_pipes current_pipe_gap] in *.
      apply init_shaped; lia.
    + unfold _update in H. rewrite Hr in H. inversion H; subst s'. exact F.
  - destruct (negb (running s) && negb (game_over s)).
    + apply (Hstart u0 u1 s); assumption.
    + destruct (running s); inversion H; subst s'; [|exact F].
      destruct (flap_frame now s) as (v & t & ->). exact F.
  - destruct (autoplay _ && negb (running _) && negb (game_over _)).
    + apply (Hstart u0 u1 (set_autoplay (negb (autoplay s)) s)); [|exact H].
      apply (wf_ext s); try reflexivity. exact W.
    + inversion H; subst s'. exact F.
  - destruct (running s).
    + inversion H; subst s'. exact F.
    + apply (Hstart u0 u1 s); assumption.
Qed.

(** X9.  Every obstacle of a reachable state has the layout its
    constructor gave it: a lower segment from the floor up to the gap, at
    least 70 high; a gap of 150 to 300; and an upper segment from the gap's
    top, at most 570, to the window's top, so at least 30 high.  The three
    add up to the window's height. *)
Theorem reachable_obstacles_shaped :
  forall (ins : list Input) (s : Game),
    run ins init_game = Some s ->
    Forall (fun p =>
              shaped p /\ 30 <= PipePair.top_height p /\
              PipePair.bottom_height p + PipePair.gap_size p
              + PipePair.top_height p == inject_Z WINDOW_HEIGHT)
           (pipes s).
Proof.
  intros ins s H.
  assert (I : wf s /\ Forall shaped (pipes s)).
  { apply (run_invariant (fun g => wf g /\ Forall shaped (pipes g)))
      with (ins := ins) (s := init_game); [| |exact H].
    - intros i g g' [W F] Hs. split; [apply (step_wf_some i g); assumption|].
      apply (step_shaped i g); assumption.
    - split; [exact init_game_wf | constructor]. }
  destruct I as [_ F]. eapply Forall_impl; [|exact F].
  intros p Hp. split; [exact Hp|].
  destruct Hp as (E1 & E2 & E3 & H1 & H2 & H3).
  rewrite E3, E1. change (inject_Z WINDOW_HEIGHT) with 600.
  split; [lra|]. rewrite E2. ring.
Qed.

Lemma reachable_obstacles_shaped_witness :
  exists s, run (Press 1000 70 70 :: hover 1 3) init_game = Some s /\
    Forall (fun p =>
              shaped p /\ 30 <= PipePair.top_height p /\
              PipePair.bottom_height p + PipePair.gap_size p
              + PipePair.top_height p == inject_Z WINDOW_HEIGHT)
           (pipes s).
Proof.
  eexists. split; [vm_compute; reflexivity|].
  apply (reachable_obstacles_shaped (Press 1000 70 70 :: hover 1 3)).
  vm_compute. reflexivity.
Defined.

(** X10.  For an obstacle with that layout and a box that lies within the
    window's height, the overlap test is true exactly when the box and the
    obstacle share abscissae and the box is not within the gap: its bottom
    is below the gap or its top above it.  A box within the gap, edges
    included, passes; one of the agent's height set on the gap's lower edge
    does, at every abscissa. *)
Theorem collides_iff_outside_gap :
  forall (p : PipePair.t) (bx by_ bw bh : Q),
    shaped p -> 0 < bh -> 0 <= by_ -> by_ + bh <= inject_Z WINDOW_HEIGHT ->
    (PipePair.collides_with p bx by_ bw bh = true <->
     (bx < PipePair.right p /\ PipePair.x p < bx + bw) /\
     (by_ < PipePair.gap_y p \/
      PipePair.gap_y p + PipePair.gap_size p < by_ + bh)) /\
    PipePair.collides_with p bx (PipePair.gap_y p) bw
      (inject_Z (snd BIRD_SIZE)) = false.
Proof.
  intros p bx by_ bw bh (E1 & E2 & E3 & H1 & H2 & H3) Hh Hb Ht.
  unfold PipePair.collides_with, PipePair.aabb, PipePair.right.
  change (inject_Z WINDOW_HEIGHT) with 600 in *.
  change (inject_Z (snd BIRD_SIZE)) with 64.
  split.
  - rewrite orb_true_iff, !andb_true_iff, !Qltb_true.
    rewrite E3, E2, E1.
    split.
    + intros [(((A & B) & C) & D) | (((A & B) & C) & D)].
      * split; [tauto|]. left. lra.
      * split; [tauto|]. right. exact D.
    + intros [[A B] [C | D]].
      * left. repeat split; try assumption; lra.
      * right. repeat split; try assumption; lra.
  - rewrite E1, E2.
    assert (F1 : Qltb (PipePair.gap_y p) (0 + PipePair.gap_y p) = false)
      by (apply Qltb_false; lra).
    assert (F2 : Qltb (PipePair.gap_y p + PipePair.gap_size p)
                      (PipePair.gap_y p + 64) = false)
      by (apply Qltb_false; lra).
    rewrite F1, F2, !andb_false_r. reflexivity.
Qed.

Lemma collides_iff_outside_gap_witness :
  PipePair.collides_with scenario_pipe 150 200 64 64 = true <->
  (150 < PipePair.right scenario_pipe /\ PipePair.x scenario_pipe < 150 + 64) /\
  (200 < PipePair.gap_y scenario_pipe \/
   PipePair.gap_y scenario_pipe + PipePair.gap_size scenario_pipe < 200 + 64).
Proof.
  assert (S : shaped scenario_pipe).
  { unfold shaped. cbn. repeat split; discriminate. }
  assert (H1 : 0 < 64) by reflexivity.
  assert (H2 : 0 <= 200) by discriminate.
  assert (H3 : 200 + 64 <= inject_Z WINDOW_HEIGHT) by discriminate.
  exact (proj1 (collides_iff_outside_gap scenario_pipe 150 200 64 64
                  S H1 H2 H3)).
Defined.

(** ** The live physics against the predictor *)

Lemma fall_closed_form (n : nat) (dt : Q) (b : Bird.t) :
  let bn := Nat.iter n (Bird.physics_step dt) b in
  let k := inject_Z (Z.of_nat n) in
  Bird.x bn = Bird.x b /\
  Bird.velocity bn == Bird.velocity b + GRAVITY * (k * dt) /\
  Bird.y bn == Bird.y b + Bird.velocity b * (k * dt)
               + (1 # 2) * GRAVITY * dt * dt * k * (k + 1).
Proof.
  induction n as [|n IH]; cbv zeta.
  - change (Nat.iter 0 (Bird.physics_step dt) b) with b.
    cbn [Z.of_nat]. change (inject_Z 0) with 0.
    split; [reflexivity|]. split; ring.
  - cbv zeta in IH. destruct IH as (Ix & Iv & Iy).
    assert (Ek : inject_Z (Z.of_nat (S n)) == inject_Z (Z.of_nat n) + 1).
    { rewrite Nat2Z.inj_succ. unfold Z.succ. rewrite inject_Z_plus.
      reflexivity. }
    change (Nat.iter (S n) (Bird.physics_step dt) b)
      with (Bird.physics_step dt (Nat.iter n (Bird.physics_step dt) b)).
    set (bn := Nat.iter n (Bird.physics_step dt) b) in *.
    cbn [Bird.physics_step Bird.x Bird.y Bird.velocity].
    split; [exact Ix|]. rewrite Ek, Iv, Iy. split; ring.
Qed.

(** X11.  After [n] frames of the same length without a flap, the live
    agent has the velocity the predictor computes for the elapsed time
    [T = n * dt], but it is lower than the predictor's free-fall estimate
    by [240 * T * dt]: the live step adds the velocity after gravity has
    acted on it, the predictor the closed-form parabola. *)
Theorem live_fall_below_prediction :
  forall (n : nat) (dt : Q) (s : Game),
    let b := Nat.iter n (Bird.physics_step dt) (bird s) in
    let T := inject_Z (Z.of_nat n) * dt in
    Bird.velocity b == Bird.velocity (bird s) + GRAVITY * T /\
    Bird.y b + Bird.height b / 2
    == _predict_center_with_flaps s T 0 - 240 * T * dt.
Proof.
  intros n dt s b T.
  destruct (fall_closed_form n dt (bird s)) as (_ & Iv & Iy).
  fold b in Iv, Iy. fold T in Iv, Iy.
  split; [exact Iv|].
  rewrite predict_free_fall, Iy.
  change (Bird.height b) with (Bird.height (bird s)).
  unfold T, GRAVITY. ring.
Qed.

(** ** Flaps the predictor leaves out *)

Lemma flap_events_late T k j :
  T <= flap_time k -> (k <= j)%nat -> flap_events T j = flap_events T k.
Proof.
  intros HT Hkj. induction Hkj as [|j Hkj IH]; [reflexivity|].
  unfold flap_events in *. rewrite seq_S, flat_map_app, IH.
  cbn [flat_map Nat.add]. unfold flap_event.
  assert (E : Qltb (flap_time j) T = false).
  { apply Qltb_false. eapply Qle_trans; [exact HT|].
    apply flap_time_mono. exact Hkj. }
  rewrite E. rewrite !app_nil_r. reflexivity.
Qed.

Lemma predict_late T k j s :
  T <= flap_time k -> (k <= j)%nat ->
  _predict_center_with_flaps s T j = _predict_center_with_flaps s T k.
Proof.
  intros HT Hkj. unfold _predict_center_with_flaps, build_events.
  rewrite (flap_events_late T k j HT Hkj). reflexivity.
Qed.

(** X12.  Flaps scheduled at or after the arrival time are left out of the
    prediction: if the [k]-th flap time [k * 0.18] is not before the time
    to the obstacle, asking for more than [k] flaps predicts the same
    centre as asking for [k].  With an arrival time that is not positive
    every flap count predicts the free fall. *)
Theorem predict_ignores_late_flaps :
  forall (s : Game) (T : Q) (k j : nat),
    T <= flap_time k -> (k <= j)%nat ->
    _predict_center_with_flaps s T j = _predict_center_with_flaps s T k /\
    (T <= 0 ->
     _predict_center_with_flaps s T j = _predict_center_with_flaps s T 0).
Proof.
  intros s T k j HT Hkj. split; [apply predict_late; assumption|].
  intro H0. apply predict_late; [|lia].
  assert (Z0 : flap_time 0 == 0) by reflexivity. rewrite Z0. exact H0.
Qed.

Lemma predict_ignores_late_flaps_witness :
  _predict_center_with_flaps scenario (1 # 4) 3
  = _predict_center_with_flaps scenario (1 # 4) 2.
Proof.
  apply (predict_ignores_late_flaps scenario (1 # 4) 2 3).
  - vm_compute. discriminate.
  - lia.
Defined.

(** ** The autopilot over an obstacle *)

Lemma chosen_flaps_no_time s p gc T :
  T <= 0 -> chosen_flaps s p gc T = Some 0%nat.
Proof.
  intro HT.
  assert (HT0 : T <= flap_time 0).
  { assert (Z0 : flap_time 0 == 0) by reflexivity. rewrite Z0. exact HT. }
  assert (P : forall j, _predict_center_with_flaps s T j
                        = _predict_center_with_flaps s T 0).
  { intro j. apply predict_late; [exact HT0 | lia]. }
  unfold chosen_flaps.
  change (seq 0 (max_flaps + 1)) with [0; 1; 2; 3]%nat.
  cbn [find]. unfold inside_gap.
  rewrite (P 1%nat), (P 2%nat), (P 3%nat).
  destruct (Qleb _ _ && Qleb _ _); [reflexivity|].
  unfold closest_flaps.
  change (seq 0 (max_flaps + 1)) with [0; 1; 2; 3]%nat.
  cbn [fold_left]. unfold closest_step.
  rewrite (P 1%nat), (P 2%nat), (P 3%nat). cbn [snd fst].
  set (d := Qabs (_predict_center_with_flaps s T 0 - gc)).
  assert (E : Qltb d d = false) by (apply Qltb_false; apply Qle_refl).
  rewrite E. cbn [snd fst]. rewrite E. cbn [snd fst]. rewrite E.
  reflexivity.
Qed.

(** X13.  The autopilot does not flap while the obstacle it aims at has its
    leading edge at or behind the agent's left edge, that is while the
    agent is over or under the obstacle's segments: the time to the
    obstacle is then not positive, every flap count predicts the same
    centre, and the choice is zero flaps. *)
Theorem autopilot_idle_over_obstacle :
  forall (now : Q) (s : Game) (p : PipePair.t),
    next_pipe_of s = Some p -> PipePair.x p <= Bird.x (bird s) ->
    _autoflap_logic now s = Some s.
Proof.
  intros now s p Hn Hx. unfold _autoflap_logic, autoflap_choice.
  destruct (pipes s); [reflexivity|].
  destruct (negb (running s) || game_over s); [reflexivity|].
  rewrite Hn.
  destruct (Qleb (current_pipe_speed s) 0) eqn:E; [reflexivity|].
  apply Qleb_false in E. rewrite py_div_positive by exact E. cbn [bind].
  rewrite chosen_flaps_no_time; [reflexivity|].
  apply Qle_shift_div_r; [exact E|]. lra.
Qed.

Lemma autopilot_idle_over_obstacle_witness :
  let s := set_pipes [PipePair.init 0 90 200 200 pipe_width 600] scenario in
  _autoflap_logic 1000 s = Some s.
Proof.
  intro s.
  apply (autopilot_idle_over_obstacle 1000 s
           (PipePair.init 0 90 200 200 pipe_width 600)).
  - reflexivity.
  - vm_compute. discriminate.
Defined.

(** ** The obstacle the autopilot aims at *)

Lemma find_sorted_first bx ps p :
  StronglySorted apart ps ->
  find (fun q => Qltb bx (PipePair.x q + PipePair.width_pipe q)) ps = Some p ->
  In p ps /\ bx < PipePair.right p /\
  (forall q, In q ps -> bx < PipePair.right q -> PipePair.x p <= PipePair.x q) /\
  (forall q, In q ps -> PipePair.x q < PipePair.x p -> PipePair.right q <= bx).
Proof.
  induction 1 as [|a l Hs IH Ha]; intro H; cbn [find] in H; [discriminate|].
  destruct (Qltb bx (PipePair.x a + PipePair.width_pipe a)) eqn:E.
  - inversion H; subst a. clear H. apply Qltb_true in E.
    rewrite Forall_forall in Ha.
    split; [left; reflexivity|]. split; [exact E|]. split.
    + intros q [<- | Hq] _; [apply Qle_refl|].
      destruct (Ha q Hq) as [Hx _]. lra.
    + intros q [<- | Hq] Hlt; [lra|].
      destruct (Ha q Hq) as [Hx _]. lra.
  - apply Qltb_false in E. destruct (IH H) as (I1 & I2 & I3 & I4).
    rewrite Forall_forall in Ha.
    split; [right; exact I1|]. split; [exact I2|]. split.
    + intros q [<- | Hq] Hlt; [unfold PipePair.right in Hlt; lra|].
      apply I3; assumption.
    + intros q [<- | Hq] Hlt; [exact E | apply I4; assumption].
Qed.

(** X14.  The obstacle the autopilot aims at is the nearest one whose
    trailing edge is still ahead of the agent's left edge: it is in the
    list, no obstacle with its trailing edge ahead has a smaller abscissa,
    and every obstacle before it has its trailing edge at or behind the
    agent.  When there is none, all obstacles are behind. *)
Theorem next_pipe_is_nearest_ahead :
  forall s : Game,
    wf s ->
    match next_pipe_of s with
    | Some p =>
        In p (pipes s) /\ Bird.x (bird s) < PipePair.right p /\
        (forall q, In q (pipes s) -> Bird.x (bird s) < PipePair.right q ->
                   PipePair.x p <= PipePair.x q) /\
        (forall q, In q (pipes s) -> PipePair.x q < PipePair.x p ->
                   PipePair.right q <= Bird.x (bird s))
    | None => Forall (fun q => PipePair.right q <= Bird.x (bird s)) (pipes s)
    end.
Proof.
  intros s [G _]. unfold next_pipe_of.
  destruct (find _ (pipes s)) as [p|] eqn:E.
  - apply find_sorted_first; [apply (g_apart s G) | exact E].
  - apply Forall_forall. intros q Hq.
    pose proof (find_none _ _ E q Hq) as N. cbv beta in N.
    apply Qltb_false in N. exact N.
Qed.

Lemma next_pipe_is_nearest_ahead_witness :
  match next_pipe_of first_state with
  | Some p =>
      In p (pipes first_state) /\
      Bird.x (bird first_state) < PipePair.right p /\
      (forall q, In q (pipes first_state) ->
                 Bird.x (bird first_state) < PipePair.right q ->
                 PipePair.x p <= PipePair.x q) /\
      (forall q, In q (pipes first_state) -> PipePair.x q < PipePair.x p ->
                 PipePair.right q <= Bird.x (bird first_state))
  | None => Forall (fun q => PipePair.right q <= Bird.x (bird first_state))
                   (pipes first_state)
  end.
Proof.
  exact (next_pipe_is_nearest_ahead first_state (proj1 first_state_wf)).
Defined.

(** ** The time of the last accepted flap *)

Lemma flap_last now s :
  _last_flap_time (_flap now s) = _last_flap_time s \/
  _last_flap_time s + MIN_FLAP_INTERVAL <= _last_flap_time (_flap now s).
Proof.
  destruct (Qlt_le_dec (now - _last_flap_time s) MIN_FLAP_INTERVAL) as [L | L].
  - left. rewrite (flap_rejected now s L). reflexivity.
  - right. rewrite (flap_accepted now s L).
    cbn [set_bird set_last_flap_time _last_flap_time]. lra.
Qed.

Lemma step_last_flap i s s' :
  step i s = Some s' ->
  _last_flap_time s' = _last_flap_time s \/
  _last_flap_time s + MIN_FLAP_INTERVAL <= _last_flap_time s'.
Proof.
  intro H.
  destruct i as [f | now u0 u1 | u0 u1 | u0 u1]; cbn [step] in H.
  - destruct (running s) eqn:Hr; [destruct (game_over s) eqn:Hg|].
    + unfold _update in H. rewrite Hr, Hg in H. inversion H. left. reflexivity.
    + destruct (after_physics_fields (frame_dt f) s)
        as (_ & _ & _ & _ & _ & _ & _ & El & _).
      destruct (update_shape f s s' Hr Hg H)
        as [(_ & ->) | [(_ & _ & ->) | (_ & _ & s2 & s3 & E2 & E3 & ->)]];
        try (left; exact El).
      destruct (tick_states f s s2 s3 Hr Hg E2 E3)
        as (_ & _ & _ & _ & _ & _ & _ & L2 & D).
      destruct (collide_and_score_phase s3) as (_ & _ & -> & _).
      rewrite <- L2. destruct D as [-> | ->]; [left; reflexivity|].
      apply flap_last.
    + unfold _update in H. rewrite Hr in H. inversion H. left. reflexivity.
  - destruct (negb (running s) && negb (game_over s)).
    + left. apply (start_game_fields _ _ _ _ H).
    + destruct (running s); inversion H; [apply flap_last | left; reflexivity].
  - destruct (autoplay _ && negb (running _) && negb (game_over _)).
    + left. destruct (start_game_fields _ _ _ _ H) as (_ & _ & _ & _ & L & _).
      exact L.
    + inversion H. left. reflexivity.
  - destruct (running s).
    + inversion H. left. reflexivity.
    + left. apply (start_game_fields _ _ _ _ H).
Qed.

(** X15.  The time of the last accepted flap only moves forward, and by at
    least the minimum interval each time it moves: whatever the inputs
    between two states of a game, keyboard, touch and autopilot alike, and
    whatever the clock values they carry, two accepted flaps are at least
    0.18 apart.  Starting and restarting a run do not reset it. *)
Theorem accepted_flaps_spaced :
  forall (ins : list Input) (s s' : Game),
    run ins s = Some s' ->
    _last_flap_time s' = _last_flap_time s \/
    _last_flap_time s + MIN_FLAP_INTERVAL <= _last_flap_time s'.
Proof.
  induction ins as [|i ins IH]; intros s s' H; cbn [run] in H.
  - inversion H. left. reflexivity.
  - destruct (step i s) as [s1|] eqn:E; [|discriminate H]. cbn [bind] in H.
    destruct (step_last_flap i s s1 E) as [L1 | L1];
      destruct (IH s1 s' H) as [L2 | L2].
    + left. congruence.
    + right. rewrite <- L1. exact L2.
    + right. rewrite L2. exact L1.
    + right. unfold MIN_FLAP_INTERVAL in *. lra.
Qed.

Lemma accepted_flaps_spaced_witness :
  exists s', run (hover 1 3) first_state = Some s' /\
    (_last_flap_time s' = _last_flap_time first_state \/
     _last_flap_time first_state + MIN_FLAP_INTERVAL <= _last_flap_time s').
Proof.
  eexists. split; [vm_compute; reflexivity|].
  apply (accepted_flaps_spaced (hover 1 3) first_state).
  vm_compute. reflexivity.
Defined.

(** ** Obstacles that leave the list *)

Lemma speed_after_physics dt s :
  80 <= current_pipe_speed (after_physics dt s) <= 260.
Proof.
  unfold after_physics. cbn [set_bird current_pipe_speed].
  destruct (Z_lt_ge_dec (score s) 30) as [L | L].
  - unfold _apply_difficulty. apply Z.ltb_lt in L. rewrite L. cbn.
    split; discriminate.
  - assert (L' : (30 <= score s)%Z) by lia.
    destruct (hard_params_of_ramp s L') as (ramp & B & _ & Sp & _).
    rewrite Sp. split; lra.
Qed.

(** X16.  With frame times of at most half a second, an obstacle leaves the
    list only after it has been scored: a tick then moves the obstacles by
    at most 130, less than the 150 between the agent's left edge and the
    culling line, so the obstacle has been behind the agent at the end of
    an earlier tick. *)
Theorem culled_only_after_scored :
  forall (f : Frame) (s s' : Game) (id : nat),
    wf s -> frame_dt f <= 1 # 2 -> _update f s = Some s' ->
    present id s = true -> present id s' = false ->
    flag id s = true.
Proof.
  intros f s s' id [G P] Hdt H Hp Hp'.
  destruct (running s) eqn:Hr; [destruct (game_over s) eqn:Hg|];
    [unfold _update in H; rewrite Hr, Hg in H; inversion H; subst s'; congruence
    | | unfold _update in H; rewrite Hr in H; inversion H; subst s'; congruence].
  destruct (after_physics_fields (frame_dt f) s) as (_ & Ep & _).
  unfold present in *.
  destruct (update_shape f s s' Hr Hg H)
    as [(_ & ->) | [(_ & _ & ->) | (_ & _ & s2 & s3 & E2 & E3 & ->)]];
    try (cbn [end_game set_phase set_bird pipes] in Hp'; rewrite Ep in Hp';
         congruence).
  set (s1 := after_physics (frame_dt f) s) in *.
  set (dx := - current_pipe_speed s1 * frame_dt f).
  assert (Hdx : -130 <= dx).
  { pose proof (speed_after_physics (frame_dt f) s) as [S1 S2]. fold s1 in S1, S2.
    unfold dx. clear - S1 S2 Hdt.
    destruct (Qlt_le_dec (frame_dt f) 0) as [N | N]; nra. }
  apply present_in_iff in Hp. destruct Hp as (p & Hin & Hid).
  unfold flag. apply flag_in_iff. exists p. split; [exact Hin|].
  split; [exact Hid|].
  rewrite Forall_forall in P. apply (P p Hin).
  rewrite (g_bird_x s G). unfold launch_x.
  destruct (Qlt_le_dec (PipePair.right p + dx) (-50)) as [C | C]; [lra|].
  exfalso.
  pose proof (advance_pipes_keeps dx (pipes s) p Hin C) as K.
  destruct (tick_states f s s2 s3 Hr Hg E2 E3) as (_ & _ & _ & _ & _ & P3 & _).
  destruct (collide_and_score_fields s3) as (M & _).
  assert (K2 : In (PipePair.move dx p) (pipes s3)).
  { rewrite P3.
    destruct (maybe_spawn_fields _ _ _ _ E2)
      as (_ & _ & _ & _ & _ & _ & _ & [-> | (gy & _ & ->)]);
      unfold advanced; cbn [set_pipes pipes]; fold s1; fold dx; rewrite Ep;
      [exact K | apply in_or_app; left; exact K]. }
  destruct (Forall2_In_l _ _ _ _ M K2) as (p' & Hin' & Hm).
  destruct (marked_fields _ _ _ Hm) as (Ei & _).
  assert (T : present_in id (pipes (collide_and_score s3)) = true).
  { apply present_in_iff. exists p'. split; [exact Hin'|].
    rewrite Ei. exact Hid. }
  congruence.
Qed.

Lemma culled_only_after_scored_witness :
  let s := set_pipes [PipePair.set_scored true
                        (PipePair.init 0 (-90) 150 300 pipe_width 600);
                      PipePair.init 1 300 150 300 pipe_width 600]
             (set_next_pid 2 crash_state) in
  exists s', _update (mkFrame (1 # 2) 1000 80) s = Some s' /\
             present 0 s' = false /\ flag 0 s = true.
Proof.
  intro s.
  destruct (_update (mkFrame (1 # 2) 1000 80) s) as [s'|] eqn:E;
    [|vm_compute in E; discriminate E].
  assert (Hp' : present 0 s' = false).
  { vm_compute in E. inversion E. reflexivity. }
  exists s'. split; [reflexivity|]. split; [exact Hp'|].
  apply (culled_only_after_scored (mkFrame (1 # 2) 1000 80) s s' 0%nat).
  - split.
    + constructor; cbn; repeat constructor; try lia; discriminate.
    + repeat constructor; unfold passed_scored; cbn; intro H;
        try reflexivity; discriminate H.
  - vm_compute. discriminate.
  - exact E.
  - reflexivity.
  - exact Hp'.
Defined.

(** ** Where the random draws can fail *)

(** X17.  The two draws of a gap position raise exactly when the gap in
    force leaves no room between the margins: the pre-spawn of a start
    with a gap above 480, the spawn of a tick with a gap above 500.
    Nothing else in a start or a spawn can raise. *)
Theorem draws_raise_iff_gap_too_wide :
  forall (u0 u1 u : Z) (s : Game),
    (start_game u0 u1 s = None <-> (480 < current_pipe_gap s)%Z) /\
    (spawn_pipe u s = None <-> (500 < current_pipe_gap s)%Z).
Proof.
  intros u0 u1 u s. split; split.
  - intro H. destruct (Z_le_gt_dec (current_pipe_gap s) 480) as [L | L];
      [|lia].
    destruct (start_game_result u0 u1 s L) as (g0 & g1 & _ & _ & E).
    rewrite E in H. discriminate H.
  - intro L. destruct (start_game u0 u1 s) as [s'|] eqn:E; [|reflexivity].
    destruct (start_game_fields _ _ _ _ E)
      as (_ & _ & _ & _ & _ & _ & _ & g0 & _ & R0 & _). lia.
  - intro H. destruct (Z_le_gt_dec (current_pipe_gap s) 500) as [L | L];
      [|lia].
    destruct (spawn_pipe_some u s L) as (gy & _ & E).
    rewrite E in H. discriminate H.
  - intro L. unfold spawn_pipe.
    assert (E : randint (PIPE_MIN_GAP_Y + 10)
                  (WINDOW_HEIGHT - current_pipe_gap s - 30) u = None).
    { unfold randint, PIPE_MIN_GAP_Y, WINDOW_HEIGHT.
      assert (F : (60 + 10 <=? 600 - current_pipe_gap s - 30)%Z = false)
        by (apply Z.leb_gt; lia).
      rewrite F. reflexivity. }
    rewrite E. reflexivity.
Qed.

(** ** The pixel pass of the image conversion *)

(** X18.  The pixel pass keeps the number of pixels, changes a pixel only
    into the transparent white, leaves no pixel whose three colour channels
    all reach 240 other than the transparent white, and changes nothing
    when run a second time. *)
Theorem new_pixels_idempotent :
  forall data : list pixel,
    length (new_pixels data) = length data /\
    Forall2 (fun px px' => px' = px \/ px' = (255, 255, 255, 0)%Z)
            data (new_pixels data) /\
    Forall (fun px : pixel =>
              let '(r, g, b, a) := px in
              (240 <= r)%Z /\ (240 <= g)%Z /\ (240 <= b)%Z ->
              px = (255, 255, 255, 0)%Z)
           (new_pixels data) /\
    new_pixels (new_pixels data) = new_pixels data.
Proof.
  intro data. unfold new_pixels. split; [apply length_map|].
  induction data as [|[[[r g] b] a] data (IH1 & IH2 & IH3)]; cbn [map].
  - repeat split; constructor.
  - unfold WHITE_THRESHOLD in *.
    destruct ((240 <=? r)%Z && (240 <=? g)%Z && (240 <=? b)%Z) eqn:E.
    + split; [constructor; [right; reflexivity | exact IH1]|].
      split; [constructor; [intros _; reflexivity | exact IH2]|].
      cbn. rewrite IH3. reflexivity.
    + split; [constructor; [left; reflexivity | exact IH1]|].
      split.
      * constructor; [|exact IH2]. intros (H1 & H2 & H3).
        apply Z.leb_le in H1, H2, H3. rewrite H1, H2, H3 in E. discriminate E.
      * rewrite E, IH3. reflexivity.
Qed.

(** ** The sort of the predictor's events *)

Lemma flap_events_length T n : (length (flap_events T n) <= n)%nat.
Proof.
  unfold flap_events. generalize 0%nat.
  induction n as [|n IH]; intro a; cbn [seq flat_map length]; [lia|].
  rewrite length_app. specialize (IH (S a)).
  unfold flap_event at 1. destruct (Qltb (flap_time a) T); cbn [length]; lia.
Qed.

(** X19.  The predictor builds its events in time order already: the sort
    returns the list it is given, the flaps that are strictly before the
    arrival time followed by the final event.  There are at most
    [n_flaps + 1] events, and the final event is the last one even when a
    flap time coincides with the arrival time, such a flap being left
    out. *)
Theorem events_built_in_order :
  forall (T : Q) (n : nat),
    build_events T n = flap_events T n ++ [(End, T)] /\
    StronglySorted (fun a b => snd a <= snd b) (build_events T n) /\
    (length (build_events T n) <= n + 1)%nat /\
    Forall (fun e => fst e = Flap /\ 0 <= snd e < T) (flap_events T n).
Proof.
  intros T n. pose proof (build_events_unsorted T n) as B.
  split; [exact B|]. rewrite B. split; [|split].
  - apply StronglySorted_snoc; [apply flap_events_from_sorted|].
    eapply Forall_impl; [|apply (flap_events_from_bounds T n 0)].
    intros e [_ H]. apply Qlt_le_weak. exact H.
  - rewrite length_app. pose proof (flap_events_length T n). cbn [length]. lia.
  - clear B. unfold flap_events. generalize 0%nat.
    induction n as [|n IH]; intro a; cbn [seq flat_map]; [constructor|].
    apply Forall_app. split; [|apply IH].
    unfold flap_event. destruct (Qltb (flap_time a) T) eqn:E;
      [|constructor].
    constructor; [|constructor].
    apply Qltb_true in E. cbn [fst snd]. split; [reflexivity|].
    split; [|exact E]. unfold flap_time.
    apply Qmult_le_0_compat; [|discriminate].
    change 0 with (inject_Z 0). rewrite <- Zle_Qle. lia.
Qed.

(** ** The prediction in closed form *)

Lemma flap_time_succ i : flap_time (S i) == flap_time i + MIN_FLAP_INTERVAL.
Proof.
  unfold flap_time. rewrite Nat2Z.inj_succ. unfold Z.succ.
  rewrite inject_Z_plus. ring.
Qed.

(** A run of flaps one debounce interval apart, all before the arrival:
    each adds [380 * 0.18 - 240 * 0.18^2 = 60.624] to the height. *)
Lemma flaps_fold T m : forall (a : nat) (y0 : Q),
  (m = 0%nat \/ flap_time (a + m) < T) ->
  st_eq (fold_left integrate_event
           (flat_map (flap_event T) (seq (S a) m))
           (y0, FLAP_VELOCITY, flap_time a))
        (y0 + (7578 # 125) * inject_Z (Z.of_nat m), FLAP_VELOCITY,
         flap_time (a + m)).
Proof.
  induction m as [|m IH]; intros a y0 H.
  - cbn [seq flat_map fold_left]. rewrite Nat.add_0_r. unfold st_eq.
    cbn [fst snd Z.of_nat]. change (inject_Z 0) with 0.
    repeat split; try reflexivity. ring.
  - destruct H as [H | H]; [discriminate H|].
    cbn [seq flat_map]. unfold flap_event at 1.
    assert (E : Qltb (flap_time (S a)) T = true).
    { apply Qltb_true. eapply Qle_lt_trans; [|exact H].
      apply flap_time_mono. lia. }
    rewrite E. cbn [app fold_left].
    assert (S1 : st_eq (integrate_event (y0, FLAP_VELOCITY, flap_time a)
                          (Flap, flap_time (S a)))
                       (y0 + (7578 # 125), FLAP_VELOCITY, flap_time (S a))).
    { unfold st_eq, integrate_event. cbn [fst snd].
      pose proof (flap_time_succ a) as F.
      split; [|split; reflexivity].
      rewrite F. unfold MIN_FLAP_INTERVAL, FLAP_VELOCITY, GRAVITY. ring. }
    pose proof (fold_integrate_eq
                  (flat_map (flap_event T) (seq (S (S a)) m)) _ _ S1) as S2.
    assert (H' : m = 0%nat \/ flap_time (S a + m) < T).
    { right. replace (S a + m)%nat with (a + S m)%nat by lia. exact H. }
    pose proof (IH (S a) (y0 + (7578 # 125)) H') as S3.
    replace (a + S m)%nat with (S a + m)%nat by lia.
    destruct S2 as (A1 & A2 & A3), S3 as (B1 & B2 & B3).
    unfold st_eq. split; [|split].
    + rewrite A1, B1. cbn [fst snd].
      rewrite Nat2Z.inj_succ. unfold Z.succ. rewrite inject_Z_plus. ring.
    + rewrite A2, B2. reflexivity.
    + rewrite A3, B3. reflexivity.
Qed.

(** X20.  With [k + 1] flaps that all come before the arrival time [T], the
    predicted centre is the agent's centre, plus 60.624 for each of the [k]
    full debounce intervals between flaps, plus the rise from the last
    flap to the arrival, [380 * d - 240 * d^2] over [d = T - k * 0.18].  It
    depends on the agent's height alone, not on its velocity. *)
Theorem predict_closed_form :
  forall (s : Game) (T : Q) (k : nat),
    flap_time k < T ->
    _predict_center_with_flaps s T (S k)
    == Bird.y (bird s) + Bird.height (bird s) / 2
       + (7578 # 125) * inject_Z (Z.of_nat k)
       + FLAP_VELOCITY * (T - flap_time k)
       + (1 # 2) * GRAVITY * (T - flap_time k) ^ 2.
Proof.
  intros s T k H.
  assert (HT : 0 < T).
  { eapply Qle_lt_trans; [|exact H].
    assert (Z0 : flap_time 0 == 0) by reflexivity. rewrite <- Z0.
    apply flap_time_mono. lia. }
  rewrite predict_unfold, build_events_unsorted, (flap_events_head T k HT).
  cbn [app fold_left]. rewrite fold_left_app. cbn [fold_left].
  assert (S0 : st_eq (integrate_event
                        (Bird.y (bird s), Bird.velocity (bird s), 0)
                        (Flap, flap_time 0))
                     (Bird.y (bird s), FLAP_VELOCITY, flap_time 0)).
  { unfold st_eq, integrate_event. cbn [fst snd].
    assert (Z0 : flap_time 0 - 0 == 0) by reflexivity.
    split; [rewrite Z0; ring | split; reflexivity]. }
  pose proof (fold_integrate_eq (flat_map (flap_event T) (seq 1 k)) _ _ S0)
    as S1.
  assert (Hk : k = 0%nat \/ flap_time (0 + k) < T) by (right; exact H).
  pose proof (flaps_fold T k 0 (Bird.y (bird s)) Hk) as S2.
  cbn [Nat.add] in S2.
  destruct (fold_left integrate_event (flat_map (flap_event T) (seq 1 k))
              (integrate_event (Bird.y (bird s), Bird.velocity (bird s), 0)
                 (Flap, flap_time 0))) as [[y1 v1] t1].
  destruct (fold_left integrate_event (flat_map (flap_event T) (seq 1 k))
              (Bird.y (bird s), FLAP_VELOCITY, flap_time 0)) as [[y2 v2] t2].
  unfold st_eq in S1, S2. cbn [fst snd] in S1, S2.
  destruct S1 as (A1 & A2 & A3), S2 as (B1 & B2 & B3).
  unfold integrate_event. cbn [fst snd].
  rewrite A1, A2, A3, B1, B2, B3. ring.
Qed.

Lemma predict_closed_form_witness :
  _predict_center_with_flaps scenario 1 2
  == Bird.y (bird scenario) + Bird.height (bird scenario) / 2
     + (7578 # 125) * inject_Z (Z.of_nat 1)
     + FLAP_VELOCITY * (1 - flap_time 1)
     + (1 # 2) * GRAVITY * (1 - flap_time 1) ^ 2.
Proof.
  apply (predict_closed_form scenario 1 1). reflexivity.
Defined.
